(** * Real-time vocal pitch tracker: a shallow embedding of the Python scripts

    The scripts [voice.py], [voice_2.py], [voice_4.py] and [voice_5.py] are
    four increments of one program: a pitch detector ([detect_pitch]), an
    offline reference builder ([process_audio_file]), a transport clock driven
    by key presses ([on_key], [get_elapsed_playing_time]), a capture thread
    ([audio_thread]) and a display tick ([update]).

    Numbers.  Python floats are modelled by exact rationals [Q]: comparisons,
    sums, products and quotients are the mathematical ones, so a rounding
    error of IEEE arithmetic is outside the model.  [int(x)] is truncation
    towards zero.  [np.sqrt] and [np.log2] have no rational counterpart: the
    RMS test is stated on squares, and [log2] is a parameter. *)

From Stdlib Require Import QArith Qabs ZArith List Bool Lia Lqa.
From Stdlib Require Import Sorted.
From Stdlib Require String Ascii DecimalString DecimalZ.
Import ListNotations.

Local Open Scope Q_scope.

(** ** Python values and control *)

(** The exceptions the modelled functions can raise. *)
Inductive py_exn : Set :=
| ValueError
| ZeroDivisionError
| UnboundLocalError.

(** A call either returns a value or raises. *)
Inductive outcome (A : Type) : Type :=
| Return (a : A)
| Raise (e : py_exn).

Arguments Return {A} a.
Arguments Raise {A} e.

Definition bind {A B : Type} (m : outcome A) (k : A -> outcome B) : outcome B :=
  match m with
  | Return a => k a
  | Raise e => Raise e
  end.

Notation "x <- m ;; k" := (bind m (fun x => k))
  (at level 61, m at next level, right associativity).

(** [a < b] on floats, as a boolean. *)
Definition Qlt_bool (a b : Q) : bool := negb (Qle_bool b a).

(** Python's [max(a, b)] and [min(a, b)]: the first argument wins a tie. *)
Definition py_max (a b : Q) : Q := if Qlt_bool a b then b else a.
Definition py_min (a b : Q) : Q := if Qlt_bool b a then b else a.

(** [int(x)] for a float [x]: truncation towards zero. *)
Definition py_int (x : Q) : Z := Z.quot (Qnum x) (Zpos (Qden x)).

(** [a / b] on Python ints: a float, or [ZeroDivisionError]. *)
Definition py_div (a b : Z) : outcome Q :=
  if Z.eqb b 0 then Raise ZeroDivisionError
  else Return (inject_Z a / inject_Z b).

(** [l[i:j]] for [0 <= i]. *)
Definition slice {A : Type} (l : list A) (i j : Z) : list A :=
  firstn (Z.to_nat (j - i)) (skipn (Z.to_nat i) l).

Definition len {A : Type} (l : list A) : Z := Z.of_nat (length l).

(** ** numpy on one-dimensional arrays *)

Definition np_sum (l : list Q) : Q := fold_right Qplus 0 l.

(** [np.mean(l)] of a non-empty array. *)
Definition np_mean (l : list Q) : Q := np_sum l / inject_Z (len l).

(** The inner product of the overlapping prefixes of two arrays. *)
Fixpoint dot (a b : list Q) : Q :=
  match a, b with
  | x :: a', y :: b' => x * y + dot a' b'
  | _, _ => 0
  end.

(** [np.correlate(a, a, mode='full')]: the entry at index [j] is the sum of
    [a[i + j - (n-1)] * a[i]], so the lags run from [-(n-1)] to [n-1]; an
    empty argument raises [ValueError]. *)
Definition lag_products (a : list Q) (k : nat) : Q := dot (skipn k a) a.

Definition np_correlate_full (a : list Q) : outcome (list Q) :=
  match a with
  | [] => Raise ValueError
  | _ :: _ =>
      let n := length a in
      Return (rev (map (fun k => dot a (skipn k a)) (seq 1 (n - 1)))
              ++ map (lag_products a) (seq 0 n))
  end.

(** [np.argmax(l)]: the first index holding the largest value. *)
Fixpoint argmax_from (best_i : nat) (best : Q) (i : nat) (l : list Q) : nat :=
  match l with
  | [] => best_i
  | x :: l' =>
      if Qlt_bool best x then argmax_from i x (S i) l'
      else argmax_from best_i best (S i) l'
  end.

Definition np_argmax (l : list Q) : nat :=
  match l with
  | [] => 0%nat
  | x :: l' => argmax_from 0 x 1 l'
  end.

(** [np.argmin(l)]: the first index holding the smallest value. *)
Fixpoint argmin_from (best_i : nat) (best : Q) (i : nat) (l : list Q) : nat :=
  match l with
  | [] => best_i
  | x :: l' =>
      if Qlt_bool x best then argmin_from i x (S i) l'
      else argmin_from best_i best (S i) l'
  end.

Definition np_argmin (l : list Q) : nat :=
  match l with
  | [] => 0%nat
  | x :: l' => argmin_from 0 x 1 l'
  end.

(** ** The pitch detector ([detect_pitch], identical in the four scripts) *)

Module PitchDetector.

(** [signal - np.mean(signal)]. *)
Definition remove_dc (signal : list Q) : list Q :=
  map (fun x => x - np_mean signal) signal.

(** The lag band after the two bounds checks of the source. *)
Definition min_lag_of (sample_rate : Z) : Z :=
  let min_lag := py_int (inject_Z sample_rate / 1000) in
  if (min_lag <? 1)%Z then 1%Z else min_lag.

Definition max_lag_of (sample_rate : Z) (corr : list Q) : Z :=
  let max_lag := py_int (inject_Z sample_rate / 50) in
  if (max_lag >? len corr)%Z then (len corr - 1)%Z else max_lag.

Definition detect_pitch (signal : list Q) (sample_rate : Z) : outcome Q :=
  let signal := remove_dc signal in
  full <- np_correlate_full signal ;;
  let corr := skipn (Z.to_nat (len full / 2)) full in
  let min_lag := min_lag_of sample_rate in
  let max_lag := max_lag_of sample_rate corr in
  if (min_lag >=? max_lag)%Z then Return 0
  else
    let peak_index := (Z.of_nat (np_argmax (slice corr min_lag max_lag)) + min_lag)%Z in
    if Qlt_bool (nth (Z.to_nat peak_index) corr 0) ((1 # 10) * nth 0 corr 0)
    then Return 0
    else Return (inject_Z sample_rate / inject_Z peak_index).

(** The caller's test [50 <= freq <= 2000]. *)
Definition plausible (freq : Q) : bool :=
  Qle_bool 50 freq && Qle_bool freq 2000.

(** The caller's energy gate [np.sqrt(np.mean(samples**2)) < threshold].  A
    square root is non-negative, so the test fails for [threshold <= 0] and is
    [mean(samples**2) < threshold**2] otherwise; the mean of an empty array
    is [nan], which is below nothing. *)
Definition rms_below (samples : list Q) (threshold : Q) : bool :=
  match samples with
  | [] => false
  | _ :: _ =>
      Qlt_bool 0 threshold
      && Qlt_bool (np_mean (map (fun x => x * x) samples)) (threshold * threshold)
  end.

End PitchDetector.

(** ** The reference builder ([process_audio_file], voice_2.py to voice_5.py) *)

Module ReferenceTrack.

Import PitchDetector.

Definition SAMPLE_RATE : Z := 44100.

(** The sample types [scipy.io.wavfile.read] produces. *)
Inductive dtype : Set :=
| uint8
| int16
| int32
| int64
| float32
| float64.

(** A one-dimensional array for a mono file, else one row per frame. *)
Inductive ndarray : Type :=
| Mono (samples : list Q)
| Frames (rows : list (list Q)).

Record wav : Type := {
  wav_rate : Z;
  wav_dtype : dtype;
  wav_data : ndarray
}.

(** [data[:, 0]] when [len(data.shape) == 2]. *)
Definition first_channel (data : ndarray) : list Q :=
  match data with
  | Mono samples => samples
  | Frames rows => map (fun row => nth 0 row 0) rows
  end.

(** The [if data.dtype == ...] chain; [None] is the final [else]. *)
Definition normalize (dt : dtype) (data : list Q) : option (list Q) :=
  match dt with
  | int16 => Some (map (fun x => x / 32768) data)
  | int32 => Some (map (fun x => x / 2147483648) data)
  | float32 => Some data
  | _ => None
  end.

(** [file_hop_size]: [int(hop_size / SAMPLE_RATE * rate)], at least one. *)
Definition file_hop_size_of (hop_size rate : Z) : Z :=
  let hop_seconds := inject_Z hop_size / inject_Z SAMPLE_RATE in
  let file_hop_size := py_int (hop_seconds * inject_Z rate) in
  if (file_hop_size =? 0)%Z then 1%Z else file_hop_size.

(** [range(0, stop, step)]; a negative step from 0 yields nothing here, the
    stop being positive in that case. *)
Definition py_range0 (stop step : Z) : list Z :=
  if (step <=? 0)%Z then []
  else map (fun k => (Z.of_nat k * step)%Z)
           (seq 0 (Z.to_nat ((stop + step - 1) / step))).

(** The loop variables [start_time], [times], [notes]. *)
Record builder : Type := {
  start_time : Q;
  times : list Q;
  notes : list Q
}.

Section WithLog2.

(** [np.log2]. *)
Variable log2 : Q -> Q.

Definition midi_of_freq (freq : Q) : Q := 69 + 12 * log2 (freq / 440).

(** One pass of the [for i in range(...)] body. *)
Definition hop_body (data : list Q) (file_hop_size rate : Z) (threshold : Q)
    (b : builder) (i : Z) : outcome builder :=
  let chunk := slice data i (i + file_hop_size) in
  if rms_below chunk threshold then
    step <- py_div file_hop_size rate ;;
    Return {| start_time := start_time b + step; times := times b; notes := notes b |}
  else
    freq <- detect_pitch chunk rate ;;
    let b' :=
      if plausible freq then
        {| start_time := start_time b;
           times := times b ++ [start_time b];
           notes := notes b ++ [midi_of_freq freq] |}
      else b in
    step <- py_div file_hop_size rate ;;
    Return {| start_time := start_time b' + step; times := times b'; notes := notes b' |}.

Fixpoint hop_loop (data : list Q) (file_hop_size rate : Z) (threshold : Q)
    (b : builder) (starts : list Z) : outcome builder :=
  match starts with
  | [] => Return b
  | i :: rest =>
      b' <- hop_body data file_hop_size rate threshold b i ;;
      hop_loop data file_hop_size rate threshold b' rest
  end.

(** [process_audio_file(filename, hop_size, threshold)]; the file's content
    is what [wavfile.read] returned or raised. *)
Definition process_audio_file (read : outcome wav) (hop_size : Z) (threshold : Q)
    : outcome (list Q * list Q) :=
  match read with
  | Raise _ => Return ([], [])
  | Return w =>
      let rate := wav_rate w in
      let data := first_channel (wav_data w) in
      match normalize (wav_dtype w) data with
      | None => Return ([], [])
      | Some data =>
          let file_hop_size := file_hop_size_of hop_size rate in
          b <- hop_loop data file_hop_size rate threshold
                 {| start_time := 0; times := []; notes := [] |}
                 (py_range0 (len data - file_hop_size) file_hop_size) ;;
          Return (times b, notes b)
      end
  end.

(** *** The loop, hop by hop

    The descriptions below are what the loop is compared with: the value of
    the accumulator before hop [k], and the events of the hops [k] of a list,
    each read off the chunk of that hop alone. *)

Fixpoint hop_time (file_hop_size rate : Z) (k : nat) : Q :=
  match k with
  | O => 0
  | S k' => hop_time file_hop_size rate k' + inject_Z file_hop_size / inject_Z rate
  end.

Definition hop_chunk (data : list Q) (file_hop_size : Z) (k : nat) : list Q :=
  slice data (Z.of_nat k * file_hop_size) (Z.of_nat k * file_hop_size + file_hop_size).

Definition hop_event (data : list Q) (file_hop_size rate : Z) (threshold : Q)
    (k : nat) : list (Q * Q) :=
  let chunk := hop_chunk data file_hop_size k in
  if rms_below chunk threshold then []
  else
    match detect_pitch chunk rate with
    | Return freq =>
        if plausible freq
        then [(hop_time file_hop_size rate k, midi_of_freq freq)]
        else []
    | Raise _ => []
    end.

End WithLog2.

(** The three sample formats the specification lists as supported. *)
Definition supported_format (dt : dtype) : bool :=
  match dt with
  | int16 | int32 | float32 => true
  | _ => false
  end.

End ReferenceTrack.

(** ** The session of voice_5.py: transport, capture thread, display tick *)

Module Session.

Import PitchDetector.

Definition HOP_SIZE : Z := 1024.
Definition SAMPLE_RATE : Z := 44100.
Definition PAST_DURATION : Q := 5.
Definition FUTURE_DURATION : Q := 10.
Definition VOLUME_THRESHOLD : Q := 75 # 10000.

(** The module-level variables that change while the session runs. *)
Record globals : Type := {
  is_playing : bool;
  current_playback_time : Q;
  last_resume_wall_time : Q;
  seek_to : option Q;
  times : list Q;
  notes : list Q;
  data_queue : list (Q * Q)
}.

(** The module-level values fixed before the threads start. *)
Record setup : Type := {
  audio_duration : Q;
  input_latency : Q;
  output_latency : Q;
  audio_times : list Q;
  audio_notes : list Q
}.

(** The state at [start_event.set()]: line 435 of voice_5.py has just stored
    [time.time()] in [last_resume_wall_time]. *)
Definition initial (t0 : Q) : globals :=
  {| is_playing := true; current_playback_time := 0;
     last_resume_wall_time := t0; seek_to := None;
     times := []; notes := []; data_queue := [] |}.

Definition set_transport (g : globals) (playing : bool) (cpt lrw : Q)
    (seek : option Q) : globals :=
  {| is_playing := playing; current_playback_time := cpt;
     last_resume_wall_time := lrw; seek_to := seek;
     times := times g; notes := notes g; data_queue := data_queue g |}.

(** [times.clear(); notes.clear()] and the loop that empties the queue. *)
Definition clear_live (g : globals) : globals :=
  {| is_playing := is_playing g;
     current_playback_time := current_playback_time g;
     last_resume_wall_time := last_resume_wall_time g;
     seek_to := seek_to g;
     times := []; notes := []; data_queue := [] |}.

(** [get_elapsed_playing_time()], [now] being what [time.time()] reads. *)
Definition get_elapsed_playing_time (now : Q) (g : globals) : Q :=
  if is_playing g
  then current_playback_time g + (now - last_resume_wall_time g)
  else current_playback_time g.

Inductive key : Set :=
| KeySpace
| KeyS
| KeyLeft
| KeyRight
| KeyOther.

Section WithSetup.

Variable cfg : setup.

(** [on_key(event)].  [t1] is the first reading of [time.time()] the handler
    takes and [t2] the second (the arrow keys read the clock again when they
    reset [last_resume_wall_time]). *)
Definition on_key (k : key) (t1 t2 : Q) (g : globals) : globals :=
  match k with
  | KeySpace =>
      if is_playing g then
        set_transport g false
          (current_playback_time g + (t1 - last_resume_wall_time g))
          (last_resume_wall_time g) (seek_to g)
      else
        set_transport g true (current_playback_time g) t1 (seek_to g)
  | KeyS =>
      let g1 :=
        if is_playing g then
          set_transport g false
            (current_playback_time g + (t1 - last_resume_wall_time g))
            (last_resume_wall_time g) (seek_to g)
        else g in
      let new_pos := 0 in
      clear_live
        (set_transport g1 (is_playing g1) new_pos (last_resume_wall_time g1)
           (Some new_pos))
  | KeyLeft =>
      let new_pos := current_playback_time g in
      let new_pos :=
        if is_playing g then new_pos + (t1 - last_resume_wall_time g)
        else new_pos in
      let new_pos := new_pos - 2 in
      let new_pos := py_max 0 new_pos in
      let lrw := if is_playing g then t2 else last_resume_wall_time g in
      clear_live (set_transport g (is_playing g) new_pos lrw (Some new_pos))
  | KeyRight =>
      let new_pos := current_playback_time g in
      let new_pos :=
        if is_playing g then new_pos + (t1 - last_resume_wall_time g)
        else new_pos in
      let new_pos := new_pos + 2 in
      let new_pos := py_min new_pos (audio_duration cfg) in
      let lrw := if is_playing g then t2 else last_resume_wall_time g in
      clear_live (set_transport g (is_playing g) new_pos lrw (Some new_pos))
  | KeyOther => g
  end.

(** The head of the [play_audio] loop: a pending seek is applied once and
    cleared.  The cursor of the wave file is not part of the model. *)
Definition play_audio_poll (g : globals) : globals :=
  match seek_to g with
  | Some _ =>
      set_transport g (is_playing g) (current_playback_time g)
        (last_resume_wall_time g) None
  | None => g
  end.

(** *** The display tick [update(frame)] *)

(** What one tick hands to the two scatter plots. *)
Record frame : Type := {
  bg : list (Q * Q);
  live : list (Q * Q);
  errors : list Q
}.

(** [while times and times[0] < cutoff: times.pop(0); notes.pop(0)]. *)
Fixpoint prune (cutoff : Q) (ts ns : list Q) : list Q * list Q :=
  match ts with
  | [] => ([], ns)
  | t :: ts' =>
      if Qlt_bool t cutoff then prune cutoff ts' (tl ns) else (ts, ns)
  end.

(** The body of [for i, lx in enumerate(live_x)], on the past reference
    points [(bg_x_past, bg_y_past)]. *)
Definition score_point (past : list (Q * Q)) (p : Q * Q) : Q :=
  let lx := fst p in
  let idx := np_argmin (map (fun x => Qabs (x - lx)) (map fst past)) in
  let dt := Qabs (nth idx (map fst past) 0 - lx) in
  if Qlt_bool dt (2 # 10) then Qabs (snd p - nth idx (map snd past) 0)
  else 3.

(** The [errors] array, given the shown reference points [(bg_x, bg_y)]. *)
Definition score (shown : list (Q * Q)) (live_pts : list (Q * Q)) : list Q :=
  let default := map (fun _ => 3) live_pts in
  if (len shown >? 0)%Z then
    let past := filter (fun p => Qle_bool (fst p) 0) shown in
    if existsb (fun p => Qle_bool (fst p) 0) shown
    then map (score_point past) live_pts
    else default
  else default.

(** The shown reference points, or [None] when [audio_times] is empty and
    the names [bg_x], [bg_y] stay unbound. *)
Definition background (current_time : Q) : option (list (Q * Q)) :=
  match audio_times cfg with
  | [] => None
  | _ :: _ =>
      let rel_x := map (fun a => a - current_time + output_latency cfg)
                       (audio_times cfg) in
      Some (filter (fun p => Qle_bool (- PAST_DURATION) (fst p)
                             && Qle_bool (fst p) FUTURE_DURATION)
                   (combine rel_x (audio_notes cfg)))
  end.

(** [update(frame)] with [time.time()] reading [now]: the globals after the
    call, and the frame drawn or the exception raised. *)
Definition update (now : Q) (g : globals) : globals * outcome frame :=
  let current_time := get_elapsed_playing_time now g in
  let new_data := data_queue g in
  let ts := times g ++ map fst new_data in
  let ns := notes g ++ map snd new_data in
  let (ts, ns) := prune (current_time - PAST_DURATION - 1) ts ns in
  let g' :=
    {| is_playing := is_playing g;
       current_playback_time := current_playback_time g;
       last_resume_wall_time := last_resume_wall_time g;
       seek_to := seek_to g;
       times := ts; notes := ns; data_queue := [] |} in
  let shown := background current_time in
  let drawn_bg := match shown with Some pts => pts | None => [] end in
  match ts with
  | [] => (g', Return {| bg := drawn_bg; live := []; errors := [] |})
  | _ :: _ =>
      let rel_live_x := map (fun t => t - current_time) ts in
      let live_pts :=
        filter (fun p => Qle_bool (- PAST_DURATION) (fst p)
                         && Qle_bool (fst p) 0)
               (combine rel_live_x ns) in
      match shown with
      | None => (g', Raise UnboundLocalError)
      | Some pts =>
          (g', Return {| bg := pts; live := live_pts;
                         errors := score pts live_pts |})
      end
  end.

(** *** The capture thread [audio_thread] *)

Variable log2 : Q -> Q.

Definition midi_of_freq (freq : Q) : Q := 69 + 12 * log2 (freq / 440).

(** Where the thread stands between its accesses to shared state: before
    [stream.read]; holding a note, before [get_elapsed_playing_time()];
    holding the stamped tuple, before [data_queue.put]; or past the [break]
    of the exception handler. *)
Inductive capture_pc : Type :=
| AwaitChunk
| HaveNote (midi_note : Q)
| HaveEvent (ev : Q * Q)
| Broken.

(** From [stream.read] to the end of the detection: the locked test of
    [is_playing], the energy gate, the detector, the plausibility test. *)
Definition capture_chunk (samples : list Q) (g : globals) : capture_pc :=
  if negb (is_playing g) then AwaitChunk
  else if rms_below samples VOLUME_THRESHOLD then AwaitChunk
  else
    match detect_pitch samples SAMPLE_RATE with
    | Raise _ => Broken
    | Return freq =>
        if plausible freq then HaveNote (midi_of_freq freq) else AwaitChunk
    end.

(** [current_time = get_elapsed_playing_time() - input_latency]. *)
Definition capture_stamp (now : Q) (midi_note : Q) (g : globals) : Q * Q :=
  (get_elapsed_playing_time now g - input_latency cfg, midi_note).

(** [data_queue.put(ev)]. *)
Definition queue_put (ev : Q * Q) (g : globals) : globals :=
  {| is_playing := is_playing g;
     current_playback_time := current_playback_time g;
     last_resume_wall_time := last_resume_wall_time g;
     seek_to := seek_to g;
     times := times g; notes := notes g;
     data_queue := data_queue g ++ [ev] |}.

(** *** The threads interleaved *)

(** The shared variables, the capture thread's position, the latest reading
    of the wall clock, and the frames drawn so far (latest first). *)
Record world : Type := {
  shared : globals;
  capture : capture_pc;
  wall : Q;
  drawn : list (outcome frame)
}.

(** The atomic actions: a key handler and a display tick run on the main
    thread; the playback thread polls; the capture thread reads a chunk,
    stamps a note and puts the tuple, releasing the lock in between. *)
Inductive action : Type :=
| KeyPress (k : key) (t1 t2 : Q)
| Tick (now : Q)
| PlaybackPoll
| CaptureChunk (samples : list Q)
| CaptureStamp (now : Q)
| CapturePut.

Definition step (a : action) (w : world) : world :=
  match a with
  | KeyPress k t1 t2 =>
      {| shared := on_key k t1 t2 (shared w); capture := capture w;
         wall := t2; drawn := drawn w |}
  | Tick now =>
      let (g, f) := update now (shared w) in
      {| shared := g; capture := capture w; wall := now;
         drawn := f :: drawn w |}
  | PlaybackPoll =>
      {| shared := play_audio_poll (shared w); capture := capture w;
         wall := wall w; drawn := drawn w |}
  | CaptureChunk samples =>
      match capture w with
      | AwaitChunk =>
          {| shared := shared w; capture := capture_chunk samples (shared w);
             wall := wall w; drawn := drawn w |}
      | _ => w
      end
  | CaptureStamp now =>
      match capture w with
      | HaveNote n =>
          {| shared := shared w;
             capture := HaveEvent (capture_stamp now n (shared w));
             wall := now; drawn := drawn w |}
      | _ => w
      end
  | CapturePut =>
      match capture w with
      | HaveEvent ev =>
          {| shared := queue_put ev (shared w); capture := AwaitChunk;
             wall := wall w; drawn := drawn w |}
      | _ => w
      end
  end.

(** The wall clock never runs backwards: every reading an action takes is
    at or after the latest one. *)
Definition timely (a : action) (w : world) : Prop :=
  match a with
  | KeyPress _ t1 t2 => wall w <= t1 /\ t1 <= t2
  | Tick now | CaptureStamp now => wall w <= now
  | PlaybackPoll | CaptureChunk _ | CapturePut => True
  end.

Definition start (t0 : Q) : world :=
  {| shared := initial t0; capture := AwaitChunk; wall := t0; drawn := [] |}.

Fixpoint run (acts : list action) (w : world) : world :=
  match acts with
  | [] => w
  | a :: rest => run rest (step a w)
  end.

(** The worlds the session can be in. *)
Inductive reachable : world -> Prop :=
| reachable_start (t0 : Q) : reachable (start t0)
| reachable_step (a : action) (w : world) :
    reachable w -> timely a w -> reachable (step a w).

(** A seek or stop key. *)
Definition repositions (a : action) : bool :=
  match a with
  | KeyPress KeyS _ _ | KeyPress KeyLeft _ _ | KeyPress KeyRight _ _ => true
  | _ => false
  end.

(** A key handler, as opposed to the other threads' actions and the tick. *)
Definition is_key (a : action) : bool :=
  match a with
  | KeyPress _ _ _ => true
  | _ => false
  end.

(** A press of the space bar. *)
Definition is_toggle (a : action) : bool :=
  match a with
  | KeyPress KeySpace _ _ => true
  | _ => false
  end.

End WithSetup.

(** What the capture thread holds between the locked test and
    [data_queue.put]: the note of a chunk that passed the test, stamped or
    not yet.  [ev] is a tuple the thread may still put. *)
Definition in_flight (w : world) (ev : Q * Q) : Prop :=
  match capture w with
  | HaveNote n => snd ev = n
  | HaveEvent e => ev = e
  | AwaitChunk | Broken => False
  end.

(** How many tuples the thread holds: one or none. *)
Definition in_flight_count (w : world) : nat :=
  match capture w with
  | HaveNote _ | HaveEvent _ => 1
  | AwaitChunk | Broken => 0
  end.

(** *** The specification's wording, for comparison *)

(** [clamp(x, lo, hi)]. *)
Definition clamp (x lo hi : Q) : Q := py_max lo (py_min x hi).

(** The scorer as the specification words it: the nearest in time among
    the reference points at or before [now], the note distance when the time
    gap is below 0.2 s, the penalty 3 otherwise. *)
Definition spec_error (refs : list (Q * Q)) (now : Q) (p : Q * Q) : Q :=
  let cands := filter (fun r => Qle_bool (fst r) now) refs in
  match cands with
  | [] => 3
  | _ :: _ =>
      let idx := np_argmin (map (fun r => Qabs (fst r - fst p)) cands) in
      let r := nth idx cands (0, 0) in
      if Qlt_bool (Qabs (fst r - fst p)) (2 # 10) then Qabs (snd p - snd r)
      else 3
  end.

(** Every reference point in display coordinates (seconds from the "now"
    line, shifted by the output latency), shown or not. *)
Definition reference_points (cfg : setup) (current_time : Q) : list (Q * Q) :=
  combine (map (fun a => a - current_time + output_latency cfg) (audio_times cfg))
          (audio_notes cfg).

(** What an error [e] of the shown live point [p] has to be, given the
    candidate reference points [past]: the penalty when there is none, else
    decided by a candidate nearest in time. *)
Definition scored (past : list (Q * Q)) (p : Q * Q) (e : Q) : Prop :=
  match past with
  | [] => e = 3
  | _ :: _ =>
      exists r,
        In r past /\
        (forall r', In r' past ->
                    Qabs (fst r - fst p) <= Qabs (fst r' - fst p)) /\
        (Qabs (fst r - fst p) < 2 # 10 -> e = Qabs (snd p - snd r)) /\
        (2 # 10 <= Qabs (fst r - fst p) -> e = 3)
  end.

End Session.

(** ** Sample inputs *)

Module Samples.

Import ReferenceTrack.

(** A square wave of period 4 and a single click, ten samples each. *)
Definition square_chunk : list Q := [1; 1; -1; -1; 1; 1; -1; -1; 1; 1].
Definition click_chunk : list Q := [1; 0; 0; 0; 0; 0; 0; 0; 0; 0].

(** A 16-bit mono file at 1000 Hz: a silent hop, a square-wave hop, a click
    hop, and five more samples. *)
Definition pcm16_samples : list Q :=
  repeat 0 10 ++ map (fun x => x * 16384) square_chunk
  ++ map (fun x => x * 16384) click_chunk ++ repeat 0 5.

Definition pcm16_file : wav :=
  {| wav_rate := 1000; wav_dtype := int16; wav_data := Mono pcm16_samples |}.

(** An 8-bit file, which [wavfile.read] hands over as [uint8]. *)
Definition pcm8_file : wav :=
  {| wav_rate := 8000; wav_dtype := uint8; wav_data := Mono [128; 130; 126; 128] |}.

(** A stand-in for [np.log2] where a concrete function is needed. *)
Definition log2_stub (x : Q) : Q := x.

(** A three-minute track with one reference note, no device latency. *)
Definition three_minutes : Session.setup :=
  {| Session.audio_duration := 180;
     Session.input_latency := 0;
     Session.output_latency := 0;
     Session.audio_times := [49 # 10];
     Session.audio_notes := [60] |}.

(** The same session without a reference track. *)
Definition no_reference : Session.setup :=
  {| Session.audio_duration := 180;
     Session.input_latency := 0;
     Session.output_latency := 0;
     Session.audio_times := [];
     Session.audio_notes := [] |}.

(** Paused at 10 s with one live point sung at 5 s. *)
Definition paused_at_ten : Session.globals :=
  {| Session.is_playing := false;
     Session.current_playback_time := 10;
     Session.last_resume_wall_time := 0;
     Session.seek_to := None;
     Session.times := [5];
     Session.notes := [62];
     Session.data_queue := [] |}.

(** A track with three reference notes, at 7 s, 9 s and 12 s. *)
Definition three_references : Session.setup :=
  {| Session.audio_duration := 180;
     Session.input_latency := 0;
     Session.output_latency := 0;
     Session.audio_times := [7; 9; 12];
     Session.audio_notes := [60; 64; 67] |}.

(** Paused at 10 s with three live points: one sung right on the first
    reference note, one half-way between the first two, one 0.1 s after
    the second. *)
Definition three_sung_at_ten : Session.globals :=
  {| Session.is_playing := false;
     Session.current_playback_time := 10;
     Session.last_resume_wall_time := 0;
     Session.seek_to := None;
     Session.times := [7; 8; 91 # 10];
     Session.notes := [62; 62; 65];
     Session.data_queue := [] |}.

End Samples.

(** ** The detector's search, on its own *)

Module DetectorSearch.

Import PitchDetector.

(** The autocorrelation of the chunk, mean removed, at lag [k]: the entry
    [corr[k]] of [detect_pitch]. *)
Definition autocorr (signal : list Q) (k : nat) : Q :=
  lag_products (remove_dc signal) k.

(** The array [corr] of [detect_pitch]. *)
Definition corr_of (signal : list Q) : list Q :=
  map (autocorr signal) (seq 0 (length signal)).

(** What [detect_pitch] does once [corr] is there. *)
Definition search_band (corr : list Q) (sample_rate : Z) : Q :=
  let min_lag := min_lag_of sample_rate in
  let max_lag := max_lag_of sample_rate corr in
  if (min_lag >=? max_lag)%Z then 0
  else
    let peak_index := (Z.of_nat (np_argmax (slice corr min_lag max_lag)) + min_lag)%Z in
    if Qlt_bool (nth (Z.to_nat peak_index) corr 0) ((1 # 10) * nth 0 corr 0)
    then 0
    else inject_Z sample_rate / inject_Z peak_index.

End DetectorSearch.

(** ** The reference track as a list of events *)

Module ReferenceEvents.

Import ReferenceTrack.

(** The events of the hops the loop visits, in the order of the hops. *)
Definition events_of (log2 : Q -> Q) (data : list Q) (h rate : Z) (th : Q)
    : list (Q * Q) :=
  flat_map (hop_event log2 data h rate th)
           (seq 0 (length (py_range0 (len data - h) h))).

End ReferenceEvents.

(** ** The playback thread ([play_audio], voice_5.py) *)

Module Playback.

Import Session.

(** The wave file as [wave.open] presents it. *)
Record wave_file : Type := {
  nframes : Z;
  framerate : Z;
  sampwidth : Z;
  nchannels : Z
}.

(** [audio_duration], as the script computes it from the same file:
    [getnframes() / float(getframerate())]. *)
Definition duration_of (wf : wave_file) : Q :=
  inject_Z (nframes wf) / inject_Z (framerate wf).

(** What an iteration hands to [stream.write]: a buffer of zero bytes, or
    [count] frames of the file from frame [first] on. *)
Inductive written : Type :=
| Silence (bytes : Z)
| FileFrames (first count : Z).

(** The thread is in its loop, past the [break] at the end of the file, or
    dead of the [wave.Error] that [setpos] raised. *)
Inductive thread_state : Set :=
| Running
| Finished
| Crashed.

(** The cursor of the wave file, the thread's state, what was written. *)
Record player : Type := {
  pos : Z;
  state : thread_state;
  output : list written
}.

Definition chunk : Z := 1024.

(** [wf.setpos(p)]: the new cursor, or [None] for [wave.Error], raised when
    [p] is negative or beyond the number of frames. *)
Definition setpos (wf : wave_file) (p : Z) : option Z :=
  if (p <? 0)%Z || (p >? nframes wf)%Z then None else Some p.

(** How many frames [wf.readframes(n)] returns with the cursor at [p]: the
    frames left, at most [n]. *)
Definition readframes (wf : wave_file) (p n : Z) : Z :=
  Z.min n (nframes wf - p).

(** The locked block at the head of the loop: a pending seek moves the
    cursor and is cleared; if [setpos] raises, the thread dies there, the
    target still pending. *)
Definition playback_seek (wf : wave_file) (g : globals) (p : player)
    : globals * player :=
  match state p with
  | Running =>
      match seek_to g with
      | None => (g, p)
      | Some target =>
          let frame_pos := py_int (target * inject_Z (framerate wf)) in
          match setpos wf frame_pos with
          | None => (g, {| pos := pos p; state := Crashed; output := output p |})
          | Some q =>
              (set_transport g (is_playing g) (current_playback_time g)
                 (last_resume_wall_time g) None,
               {| pos := q; state := Running; output := output p |})
          end
      end
  | _ => (g, p)
  end.

(** The rest of the iteration, which reads [is_playing] without the lock:
    silence while not playing, else the next frames, or the end. *)
Definition playback_feed (wf : wave_file) (g : globals) (p : player) : player :=
  match state p with
  | Running =>
      if negb (is_playing g) then
        {| pos := pos p; state := Running;
           output := output p ++ [Silence (chunk * sampwidth wf * nchannels wf)] |}
      else
        let count := readframes wf (pos p) chunk in
        if (count =? 0)%Z then
          {| pos := pos p; state := Finished; output := output p |}
        else
          {| pos := pos p + count; state := Running;
             output := output p ++ [FileFrames (pos p) count] |}
  | _ => p
  end.

(** [k] iterations with nothing pending and the transport as in [g]. *)
Fixpoint feeds (wf : wave_file) (g : globals) (k : nat) (p : player) : player :=
  match k with
  | O => p
  | S k' => feeds wf g k' (playback_feed wf g p)
  end.

(** One whole iteration of the loop: the locked block, then the rest. *)
Definition playback_iteration (wf : wave_file) (gp : globals * player)
    : globals * player :=
  let (g', p') := playback_seek wf (fst gp) (snd gp) in
  (g', playback_feed wf g' p').

(** [k] whole iterations in a row, no other thread touching the shared
    variables in between. *)
Fixpoint playback_iterations (wf : wave_file) (k : nat) (gp : globals * player)
    : globals * player :=
  match k with
  | O => gp
  | S k' => playback_iterations wf k' (playback_iteration wf gp)
  end.

(** The thread as [pyaudio] has just opened the stream. *)
Definition fresh : player := {| pos := 0; state := Running; output := [] |}.

End Playback.

(** ** Note names and staff labels ([midi_to_name], [create_staff_lines]) *)

Module NoteNames.

Import String Ascii.

Local Open Scope string_scope.

Definition note_names : list string :=
  ["C"; "C#"; "D"; "D#"; "E"; "F"; "F#"; "G"; "G#"; "A"; "A#"; "B"].

(** An integer in an f-string: its decimal digits, after a minus sign when
    negative. *)
Definition str (z : Z) : string :=
  DecimalString.NilEmpty.string_of_int (Z.to_int z).

(** [midi_to_name(midi_note)]; [//] and [%] round towards minus infinity. *)
Definition midi_to_name (midi_note : Z) : string :=
  let octave := (midi_note / 12 - 1)%Z in
  let note_name := nth (Z.to_nat (midi_note mod 12)) note_names "" in
  note_name ++ str octave.

(** [c in s] for a character [c]. *)
Fixpoint has_char (c : ascii) (s : string) : bool :=
  match s with
  | EmptyString => false
  | String a s' => Ascii.eqb a c || has_char c s'
  end.

(** [range(lo, hi + 1)]. *)
Definition notes_between (lo hi : Z) : list Z :=
  map (fun k => (lo + Z.of_nat k)%Z) (seq 0 (Z.to_nat (hi + 1 - lo))).

(** The labels [create_staff_lines] writes at the left of the staff: the
    notes of the range whose name has no sharp, each with its name. *)
Definition staff_labels (min_note max_note : Z) : list (Z * string) :=
  map (fun note => (note, midi_to_name note))
      (filter (fun note => negb (has_char "#" (midi_to_name note)))
              (notes_between min_note max_note)).

End NoteNames.

(** ** Runs of the session *)

Module SessionRuns.

Import Session.

(** Every action of the run reads the wall clock at or after the reading
    before it. *)
Fixpoint timely_run (cfg : setup) (log2 : Q -> Q) (acts : list action)
    (w : world) : Prop :=
  match acts with
  | [] => True
  | a :: rest => timely a w /\ timely_run cfg log2 rest (step cfg log2 a w)
  end.

(** What the clock reads at the latest reading of the wall clock. *)
Definition clock (w : world) : Q :=
  get_elapsed_playing_time (wall w) (shared w).

End SessionRuns.

(** ** The display tick of voice_2.py: a window that scrolls with the clock *)

Module Scrolling.

Definition WINDOW_DURATION : Q := 30.

(** The live lists and the queue. *)
Record buffers : Type := {
  times : list Q;
  notes : list Q;
  data_queue : list (Q * Q)
}.

(** What a tick hands to the two scatter plots and to [ax.set_xlim]. *)
Record view : Type := {
  bg : list (Q * Q);
  live : list (Q * Q);
  xlim : Q * Q
}.

(** [update(frame)] of voice_2.py, with [time.time()] reading [now]. *)
Definition update (audio_times audio_notes : list Q) (start_time_global now : Q)
    (b : buffers) : buffers * view :=
  let current_time_ref := now - start_time_global in
  let window_min := py_max 0 (current_time_ref - WINDOW_DURATION) in
  let window_max := current_time_ref in
  let new_data := data_queue b in
  let ts := times b ++ map fst new_data in
  let ns := notes b ++ map snd new_data in
  let (ts, ns) := Session.prune window_min ts ns in
  let shown :=
    match audio_times with
    | [] => []
    | _ :: _ =>
        filter (fun p => Qle_bool window_min (fst p) && Qle_bool (fst p) window_max)
               (combine audio_times audio_notes)
    end in
  ({| times := ts; notes := ns; data_queue := [] |},
   {| bg := shown; live := combine ts ns; xlim := (window_min, window_max) |}).

End Scrolling.

(** ** More sample inputs *)

Module MoreSamples.

Import ReferenceTrack.

(** The sample file with its last five samples replaced. *)
Definition pcm16_other_tail : wav :=
  {| wav_rate := 1000; wav_dtype := int16;
     wav_data := Mono (firstn 30 Samples.pcm16_samples
                       ++ [16384; -16384; 16384; -16384; 16384]) |}.

(** The wave file of the three-minute session: stereo, 16 bits, 44100 Hz. *)
Definition three_minutes_file : Playback.wave_file :=
  {| Playback.nframes := 7938000; Playback.framerate := 44100;
     Playback.sampwidth := 2; Playback.nchannels := 2 |}.

End MoreSamples.

(** * Properties *)

(** ** Comparisons and Python arithmetic *)

Lemma Qlt_bool_iff (a b : Q) : Qlt_bool a b = true <-> a < b.
Proof.
  unfold Qlt_bool. rewrite negb_true_iff.
  destruct (Qle_bool b a) eqn:E.
  - apply Qle_bool_iff in E. split; [discriminate | intro H; lra].
  - split; [intros _ | reflexivity].
    apply Qnot_le_lt. intro H. apply Qle_bool_iff in H. congruence.
Qed.

Lemma Qlt_bool_false_iff (a b : Q) : Qlt_bool a b = false <-> b <= a.
Proof.
  unfold Qlt_bool. rewrite negb_false_iff. apply Qle_bool_iff.
Qed.

Lemma py_max_spec (a b : Q) : a <= py_max a b /\ b <= py_max a b.
Proof.
  unfold py_max. destruct (Qlt_bool a b) eqn:E.
  - apply Qlt_bool_iff in E. lra.
  - apply Qlt_bool_false_iff in E. lra.
Qed.

Lemma py_min_spec (a b : Q) : py_min a b <= a /\ py_min a b <= b.
Proof.
  unfold py_min. destruct (Qlt_bool b a) eqn:E.
  - apply Qlt_bool_iff in E. lra.
  - apply Qlt_bool_false_iff in E. lra.
Qed.

Lemma py_max_cases (a b : Q) :
  (py_max a b = a /\ b <= a) \/ (py_max a b = b /\ a < b).
Proof.
  unfold py_max. destruct (Qlt_bool a b) eqn:E.
  - right. split; [reflexivity | now apply Qlt_bool_iff].
  - left. split; [reflexivity | now apply Qlt_bool_false_iff].
Qed.

Lemma py_min_cases (a b : Q) :
  (py_min a b = a /\ a <= b) \/ (py_min a b = b /\ b < a).
Proof.
  unfold py_min. destruct (Qlt_bool b a) eqn:E.
  - right. split; [reflexivity | now apply Qlt_bool_iff].
  - left. split; [reflexivity | now apply Qlt_bool_false_iff].
Qed.

Lemma py_int_ratio (a : Z) (p : positive) :
  py_int (inject_Z a / inject_Z (Zpos p)) = Z.quot a (Zpos p).
Proof.
  unfold py_int, Qdiv, Qmult, Qinv, inject_Z. simpl.
  now rewrite Z.mul_1_r.
Qed.

(** ** The autocorrelation the detector searches *)

Module PitchDetectorFacts.

Import PitchDetector.

(** Slicing the full correlation at its middle leaves the lags [0..n-1]. *)
Lemma nonnegative_lags (s full : list Q) :
  np_correlate_full s = Return full ->
  skipn (Z.to_nat (len full / 2)) full = map (lag_products s) (seq 0 (length s)).
Proof.
  unfold np_correlate_full. destruct s as [|x s']; [discriminate|].
  intros H. injection H as <-. cbv zeta.
  set (s := x :: s').
  set (neg := rev (map (fun k => dot s (skipn k s)) (seq 1 (length s - 1)))).
  assert (Hneg : length neg = (length s - 1)%nat).
  { unfold neg. now rewrite length_rev, length_map, length_seq. }
  assert (Hmid : Z.to_nat (len (neg ++ map (lag_products s) (seq 0 (length s))) / 2)
                 = length neg).
  { unfold len. rewrite length_app, length_map, length_seq, Hneg.
    assert (Hs : (1 <= length s)%nat) by (unfold s; simpl; lia).
    replace (Z.of_nat (length s - 1 + length s))
      with (1 + (Z.of_nat (length s) - 1) * 2)%Z by lia.
    rewrite Z.div_add, Z.div_small by lia. lia. }
  change (skipn (Z.to_nat (len (neg ++ map (lag_products s) (seq 0 (length s))) / 2))
                (neg ++ map (lag_products s) (seq 0 (length s)))
          = map (lag_products s) (seq 0 (length s))).
  rewrite Hmid, skipn_app, skipn_all, Nat.sub_diag. reflexivity.
Qed.

Lemma length_lags (s : list Q) :
  length (map (lag_products s) (seq 0 (length s))) = length s.
Proof. now rewrite length_map, length_seq. Qed.

(** The index [np.argmax] returns lies inside a non-empty array. *)
Lemma argmax_from_bound (l : list Q) (bi i : nat) (b : Q) :
  (bi < i)%nat -> (argmax_from bi b i l < i + length l)%nat.
Proof.
  revert bi i b. induction l as [|x l IH]; intros bi i b Hbi; simpl.
  - lia.
  - destruct (Qlt_bool b x).
    + specialize (IH i (S i) x). lia.
    + specialize (IH bi (S i) b). lia.
Qed.

Lemma np_argmax_bound (l : list Q) :
  l <> [] -> (np_argmax l < length l)%nat.
Proof.
  destruct l as [|x l]; [congruence|]. intros _. simpl.
  pose proof (argmax_from_bound l 0 1 x). lia.
Qed.

(** What a call of [detect_pitch] can return: [0], or the sample rate over a
    lag of the searched band. *)
Lemma detect_pitch_returns (signal : list Q) (sample_rate : Z) (f : Q) :
  detect_pitch signal sample_rate = Return f ->
  f = 0 \/
  exists lag : Z,
    (min_lag_of sample_rate <= lag)%Z /\
    (lag < max_lag_of sample_rate
             (map (lag_products (remove_dc signal))
                  (seq 0 (length (remove_dc signal)))))%Z /\
    f = inject_Z sample_rate / inject_Z lag.
Proof.
  unfold detect_pitch.
  destruct (np_correlate_full (remove_dc signal)) as [full|e] eqn:Hfull;
    simpl; [|discriminate].
  rewrite (nonnegative_lags _ _ Hfull).
  set (corr := map (lag_products (remove_dc signal))
                   (seq 0 (length (remove_dc signal)))).
  destruct (min_lag_of sample_rate >=? max_lag_of sample_rate corr)%Z eqn:Hband.
  - intros H. injection H as <-. now left.
  - destruct (Qlt_bool _ _).
    + intros H. injection H as <-. now left.
    + intros H. injection H as <-. right.
      set (sl := slice corr (min_lag_of sample_rate) (max_lag_of sample_rate corr)).
      exists (Z.of_nat (np_argmax sl) + min_lag_of sample_rate)%Z.
      assert (Hlt : (min_lag_of sample_rate < max_lag_of sample_rate corr)%Z) by lia.
      assert (Hmin : (1 <= min_lag_of sample_rate)%Z).
      { unfold min_lag_of. cbv zeta.
        destruct (Z.ltb_spec (py_int (inject_Z sample_rate / 1000)) 1); lia. }
      assert (Hmax : (max_lag_of sample_rate corr <= len corr)%Z).
      { unfold max_lag_of. cbv zeta.
        destruct (Z.gtb_spec (py_int (inject_Z sample_rate / 50)) (len corr)); lia. }
      assert (Hsl : length sl
                    = Z.to_nat (max_lag_of sample_rate corr - min_lag_of sample_rate)).
      { unfold sl, slice. rewrite length_firstn, length_skipn.
        unfold len in Hmax. lia. }
      assert (Hne : sl <> []).
      { intro E. rewrite E in Hsl. simpl in Hsl. lia. }
      pose proof (np_argmax_bound sl Hne).
      repeat split; try lia.
Qed.

(** *** A chunk without energy around its mean *)

Definition all_zero (l : list Q) : Prop := Forall (fun x => x == 0) l.

Lemma all_zero_skipn (k : nat) (l : list Q) : all_zero l -> all_zero (skipn k l).
Proof.
  unfold all_zero. revert l. induction k as [|k IH]; intros l H; [exact H|].
  destruct H as [|x l _ H]; simpl; [constructor | now apply IH].
Qed.

Lemma all_zero_firstn (k : nat) (l : list Q) : all_zero l -> all_zero (firstn k l).
Proof.
  unfold all_zero. revert l. induction k as [|k IH]; intros l H; [constructor|].
  destruct H as [|x l Hx H]; simpl; constructor; [exact Hx | now apply IH].
Qed.

Lemma all_zero_nth (l : list Q) (k : nat) : all_zero l -> nth k l 0 == 0.
Proof.
  intros H. revert k. induction H as [|x l Hx _ IH]; intros [|k]; simpl;
    try reflexivity; auto.
Qed.

Lemma dot_all_zero (a b : list Q) : all_zero a -> dot a b == 0.
Proof.
  intros H. revert b. induction H as [|x a Hx _ IH]; intros [|y b]; simpl;
    try reflexivity.
  rewrite Hx, IH. ring.
Qed.

Lemma dot_self_nonneg (a : list Q) : 0 <= dot a a.
Proof.
  induction a as [|x a IH]; simpl; [lra|].
  assert (0 <= x * x) by nra. lra.
Qed.

(** The lag-0 autocorrelation is the energy: it vanishes only on zeros. *)
Lemma dot_self_zero (a : list Q) : dot a a == 0 -> all_zero a.
Proof.
  induction a as [|x a IH]; simpl; intros H; constructor.
  - pose proof (dot_self_nonneg a). assert (0 <= x * x) by nra.
    assert (Hx : x * x == 0) by lra.
    destruct (Qmult_integral _ _ Hx); assumption.
  - apply IH. pose proof (dot_self_nonneg a). assert (0 <= x * x) by nra. lra.
Qed.

Lemma argmax_from_all_zero (l : list Q) (bi i : nat) (b : Q) :
  b == 0 -> all_zero l -> argmax_from bi b i l = bi.
Proof.
  intros Hb H. revert i. induction H as [|x l Hx _ IH]; intros i; simpl.
  - reflexivity.
  - replace (Qlt_bool b x) with false; [apply IH|].
    symmetry. apply Qlt_bool_false_iff. lra.
Qed.

Lemma np_argmax_all_zero (l : list Q) : all_zero l -> np_argmax l = 0%nat.
Proof.
  intros H. destruct H as [|x l Hx H]; simpl; [reflexivity|].
  now apply argmax_from_all_zero.
Qed.

(** With no energy at lag 0 the correlation is zero at every lag, the first
    lag of the band wins the search, the confidence test [0 < 0.1 * 0] does
    not reject it, and the detector answers [sample_rate / min_lag]. *)
Lemma detect_pitch_no_energy (signal : list Q) (sample_rate : Z) :
  signal <> [] ->
  lag_products (remove_dc signal) 0 == 0 ->
  (min_lag_of sample_rate
   < max_lag_of sample_rate (map (lag_products (remove_dc signal))
                                 (seq 0 (length signal))))%Z ->
  detect_pitch signal sample_rate
  = Return (inject_Z sample_rate / inject_Z (min_lag_of sample_rate)).
Proof.
  intros Hne H0 Hband.
  assert (Hz : all_zero (remove_dc signal)) by (apply dot_self_zero, H0).
  assert (Hlen : length (remove_dc signal) = length signal)
    by (unfold remove_dc; apply length_map).
  unfold detect_pitch.
  destruct (np_correlate_full (remove_dc signal)) as [full|e] eqn:Hfull; simpl.
  2:{ unfold np_correlate_full in Hfull.
      destruct (remove_dc signal) eqn:E; [|discriminate].
      destruct signal; [congruence | discriminate]. }
  rewrite (nonnegative_lags _ _ Hfull), Hlen.
  set (corr := map (lag_products (remove_dc signal)) (seq 0 (length signal))) in *.
  assert (Hcorr : all_zero corr).
  { unfold corr, all_zero. rewrite Forall_map, Forall_forall. intros k _.
    unfold lag_products. apply dot_all_zero, all_zero_skipn, Hz. }
  destruct (min_lag_of sample_rate >=? max_lag_of sample_rate corr)%Z eqn:E;
    [lia|].
  rewrite np_argmax_all_zero
    by (unfold slice; apply all_zero_firstn, all_zero_skipn, Hcorr).
  replace (Qlt_bool _ _) with false; [reflexivity|].
  symmetry. apply Qlt_bool_false_iff.
  rewrite !all_zero_nth by assumption. lra.
Qed.

Lemma np_sum_constant (c : Q) (l : list Q) :
  Forall (fun x => x == c) l -> np_sum l == inject_Z (len l) * c.
Proof.
  unfold len. induction 1 as [|x l Hx _ IH].
  - simpl. ring.
  - assert (E : inject_Z (Z.of_nat (length (x :: l)))
                 == inject_Z (Z.of_nat (length l)) + 1).
    { simpl length. rewrite Nat2Z.inj_succ. unfold Z.succ.
      now rewrite inject_Z_plus. }
    change (np_sum (x :: l)) with (x + np_sum l).
    rewrite E. lra.
Qed.

(** A constant chunk has no energy around its mean. *)
Lemma constant_chunk_no_energy (c : Q) (signal : list Q) :
  signal <> [] ->
  Forall (fun x => x == c) signal ->
  lag_products (remove_dc signal) 0 == 0.
Proof.
  intros Hne Hc. unfold lag_products. simpl skipn.
  apply dot_all_zero. unfold remove_dc, all_zero.
  rewrite Forall_map.
  assert (Hmean : np_mean signal == c).
  { unfold np_mean. rewrite (np_sum_constant c) by assumption.
    field. unfold len. intro H.
    assert (E : Z.of_nat (length signal) = 0%Z).
    { unfold Qeq in H. simpl in H. lia. }
    destruct signal; [congruence | simpl in E; lia]. }
  revert Hc. apply Forall_impl. intros x Hx. rewrite Hx, Hmean. ring.
Qed.

Lemma max_lag_of_lags (sample_rate : Z) (s : list Q) (n : nat) :
  max_lag_of sample_rate (map (lag_products s) (seq 0 n))
  = if (Z.quot sample_rate 50 >? Z.of_nat n)%Z then (Z.of_nat n - 1)%Z
    else Z.quot sample_rate 50.
Proof.
  unfold max_lag_of, len. rewrite length_map, length_seq.
  change 50 with (inject_Z 50). now rewrite py_int_ratio.
Qed.

Lemma min_lag_of_quot (sample_rate : Z) :
  min_lag_of sample_rate
  = if (Z.quot sample_rate 1000 <? 1)%Z then 1%Z else Z.quot sample_rate 1000.
Proof.
  unfold min_lag_of. change 1000 with (inject_Z 1000). now rewrite py_int_ratio.
Qed.

(** A constant chunk of the capture thread's size, at its sample rate. *)
Lemma detect_pitch_constant_hop (c : Q) :
  detect_pitch (repeat c 1024) 44100 = Return (inject_Z 44100 / inject_Z 44).
Proof.
  assert (Hne : repeat c 1024 <> []) by discriminate.
  rewrite detect_pitch_no_energy; try assumption.
  - reflexivity.
  - apply (constant_chunk_no_energy c); [assumption|].
    apply Forall_forall. intros x Hx. apply repeat_spec in Hx. now subst.
  - rewrite max_lag_of_lags, min_lag_of_quot, repeat_length. reflexivity.
Qed.

(** C1, at a failing input.  For the all-zero chunk of 1024 samples at
    44100 Hz the detector does not report unvoiced: it returns 44100/44 Hz
    (about 1002 Hz), which the caller's 50-2000 Hz test accepts.  A constant
    chunk at level 0.5, whose lag-0 autocorrelation is zero as well, is not
    held back by the energy gate either and yields the same frequency. *)
Theorem silent_chunk_detected_voiced :
  detect_pitch (repeat 0 1024) 44100 = Return (inject_Z 44100 / inject_Z 44)
  /\ plausible (inject_Z 44100 / inject_Z 44) = true
  /\ lag_products (remove_dc (repeat (1 # 2) 1024)) 0 == 0
  /\ rms_below (repeat (1 # 2) 1024) (75 # 10000) = false
  /\ detect_pitch (repeat (1 # 2) 1024) 44100
     = Return (inject_Z 44100 / inject_Z 44).
Proof.
  split; [apply detect_pitch_constant_hop|].
  split; [reflexivity|].
  split.
  { apply (constant_chunk_no_energy (1 # 2)); [discriminate|].
    apply Forall_forall. intros x Hx. apply repeat_spec in Hx. now subst. }
  split; [vm_compute; reflexivity | apply detect_pitch_constant_hop].
Qed.

(** C10.  A non-zero frequency returned by [detect_pitch] is the sample
    rate over an integer lag that is at least [int(sample_rate / 1000)] (and
    at least 1), so it never exceeds [sample_rate / int(sample_rate / 1000)]
    (stated as a product, the quotient having no value when the divisor is
    0); it is below 2000 Hz, so the caller's test [50 <= freq <= 2000] is
    decided by its lower bound alone; at 44100 Hz it is at most 44100/44. *)
Theorem detected_frequency_bounded (signal : list Q) (sample_rate : Z) (f : Q) :
  detect_pitch signal sample_rate = Return f ->
  ~ f == 0 ->
  (exists lag : Z,
      (1 <= lag)%Z /\
      (py_int (inject_Z sample_rate / 1000) <= lag)%Z /\
      f = inject_Z sample_rate / inject_Z lag) /\
  f * inject_Z (py_int (inject_Z sample_rate / 1000)) <= inject_Z sample_rate /\
  f < 2000 /\
  plausible f = Qle_bool 50 f /\
  (sample_rate = 44100%Z -> f <= 44100 # 44).
Proof.
  intros Hret Hnz.
  destruct (detect_pitch_returns _ _ _ Hret) as [-> | (lag & Hlo & Hhi & ->)].
  { exfalso. apply Hnz. reflexivity. }
  rewrite max_lag_of_lags in Hhi. rewrite min_lag_of_quot in Hlo.
  change 1000 with (inject_Z 1000). rewrite py_int_ratio.
  set (q := Z.quot sample_rate 1000) in *.
  assert (Hlag : (1 <= lag)%Z) by (destruct (Z.ltb_spec q 1); lia).
  assert (Hq : (q <= lag)%Z) by (destruct (Z.ltb_spec q 1); lia).
  assert (Hsr : (0 < sample_rate)%Z).
  { destruct (Z.gtb_spec (Z.quot sample_rate 50) (Z.of_nat (length (remove_dc signal)))).
    - destruct (Z_lt_le_dec 0 sample_rate) as [|Hneg]; [assumption|].
      assert (Z.quot sample_rate 50 <= 0)%Z.
      { apply Z.quot_le_upper_bound; lia. }
      lia.
    - destruct (Z_lt_le_dec 0 sample_rate) as [|Hneg]; [assumption|].
      assert (Z.quot sample_rate 50 <= 0)%Z.
      { apply Z.quot_le_upper_bound; lia. }
      lia. }
  assert (Hq0 : (0 <= q)%Z) by (apply Z.quot_pos; lia).
  assert (Hqr : (sample_rate < (q + 1) * 1000)%Z).
  { unfold q. rewrite Z.quot_div_nonneg by lia.
    pose proof (Z.mod_pos_bound sample_rate 1000).
    pose proof (Z.div_mod sample_rate 1000). lia. }
  assert (Hqm : (q * 1000 <= sample_rate)%Z).
  { unfold q. rewrite Z.quot_div_nonneg by lia.
    pose proof (Z.mod_pos_bound sample_rate 1000).
    pose proof (Z.div_mod sample_rate 1000). lia. }
  assert (Hf : inject_Z sample_rate / inject_Z lag < 2000).
  { destruct lag as [|p|p]; try lia.
    unfold Qlt, Qdiv, Qmult, Qinv, inject_Z; simpl. lia. }
  split; [exists lag; auto|].
  split.
  { destruct lag as [|p|p]; try lia.
    unfold Qle, Qdiv, Qmult, Qinv, inject_Z; simpl. nia. }
  split; [exact Hf|].
  split.
  { unfold plausible.
    replace (Qle_bool (inject_Z sample_rate / inject_Z lag) 2000) with true;
      [apply andb_true_r|].
    symmetry. apply Qle_bool_iff. lra. }
  intros ->. subst q.
  assert (44 <= lag)%Z by (revert Hq; vm_compute (Z.quot 44100 1000); lia).
  destruct lag as [|p|p]; try lia.
  unfold Qle, Qdiv, Qmult, Qinv, inject_Z; simpl. lia.
Qed.

Lemma detected_frequency_bounded_witness :
  detect_pitch Samples.square_chunk 1000 = Return (1000 # 4) /\
  ~ (1000 # 4) == 0 /\
  (1000 # 4) * inject_Z (py_int (inject_Z 1000 / 1000)) <= inject_Z 1000 /\
  (1000 # 4) < 2000.
Proof.
  split; [reflexivity|].
  split; [discriminate|].
  pose proof (detected_frequency_bounded Samples.square_chunk 1000 (1000 # 4)
                eq_refl) as H.
  destruct H as (_ & Hb & Hf & _); [discriminate|].
  split; assumption.
Defined.

End PitchDetectorFacts.

(** ** The reference builder *)

Module ReferenceTrackFacts.

Import PitchDetector ReferenceTrack PitchDetectorFacts.

Lemma py_div_nonzero (a b : Z) :
  b <> 0%Z -> py_div a b = Return (inject_Z a / inject_Z b).
Proof.
  intros H. unfold py_div. destruct (Z.eqb_spec b 0); [contradiction | reflexivity].
Qed.

(** On a non-empty chunk the detector returns. *)
Lemma detect_pitch_total (signal : list Q) (sample_rate : Z) :
  signal <> [] -> exists f, detect_pitch signal sample_rate = Return f.
Proof.
  intros Hne. unfold detect_pitch.
  destruct (np_correlate_full (remove_dc signal)) as [full|e] eqn:Hfull; simpl.
  - destruct (_ >=? _)%Z; [eauto|]. destruct (Qlt_bool _ _); eauto.
  - unfold np_correlate_full in Hfull.
    destruct (remove_dc signal) eqn:E; [|discriminate].
    destruct signal; [congruence | discriminate].
Qed.

Lemma py_range0_seq (stop step : Z) :
  py_range0 stop step
  = map (fun k => (Z.of_nat k * step)%Z) (seq 0 (length (py_range0 stop step))).
Proof.
  unfold py_range0. destruct (step <=? 0)%Z; [reflexivity|].
  now rewrite length_map, length_seq.
Qed.

(** Every index the loop visits starts a whole hop inside the data. *)
Lemma py_range0_inside (stop step : Z) (k : nat) :
  (k < length (py_range0 stop step))%nat ->
  (0 < step)%Z /\ (Z.of_nat k * step < stop)%Z.
Proof.
  unfold py_range0. destruct (Z.leb_spec step 0) as [Hle|Hlt]; simpl; [lia|].
  rewrite length_map, length_seq. intros Hk.
  split; [assumption|].
  assert (Hpos : (0 < (stop + step - 1) / step)%Z) by lia.
  assert (Hk' : (Z.of_nat k + 1 <= (stop + step - 1) / step)%Z) by lia.
  pose proof (Z.mul_div_le (stop + step - 1) step Hlt).
  nia.
Qed.

Lemma hop_chunk_nonempty (data : list Q) (h : Z) (k : nat) :
  (k < length (py_range0 (len data - h) h))%nat -> hop_chunk data h k <> [].
Proof.
  intros Hk. destruct (py_range0_inside _ _ _ Hk) as [Hh Hin].
  unfold hop_chunk, slice. intros E.
  apply (f_equal (@length Q)) in E.
  rewrite length_firstn, length_skipn in E. simpl in E.
  unfold len in Hin. lia.
Qed.

Section WithLog2.

Variable log2 : Q -> Q.

(** One hop: the accumulator advances by [file_hop_size / rate] whatever the
    chunk holds; the lists grow by one event, stamped with the accumulator's
    value before the advance, exactly when the chunk passes the energy gate
    and the detector's answer is plausible. *)
Lemma hop_body_advances (data : list Q) (h rate : Z) (th : Q) (b : builder) (k : nat) :
  rate <> 0%Z ->
  hop_chunk data h k <> [] ->
  exists b',
    hop_body log2 data h rate th b (Z.of_nat k * h) = Return b' /\
    start_time b' = start_time b + inject_Z h / inject_Z rate /\
    (forall t, start_time b = t ->
       times b' = times b ++ map fst (map (fun e => (t, snd e))
                                          (hop_event log2 data h rate th k)) /\
       notes b' = notes b ++ map snd (hop_event log2 data h rate th k)).
Proof.
  intros Hrate Hne. unfold hop_body, hop_event. fold (hop_chunk data h k).
  rewrite py_div_nonzero by assumption.
  destruct (rms_below (hop_chunk data h k) th).
  - eexists. split; [reflexivity|]. simpl.
    split; [reflexivity|]. intros t _. now rewrite !app_nil_r.
  - destruct (detect_pitch_total _ rate Hne) as [f Hf]. rewrite Hf. simpl.
    destruct (plausible f); eexists; (split; [reflexivity|]); simpl;
      (split; [reflexivity|]); intros t Ht; subst; now rewrite ?app_nil_r.
Qed.

Lemma hop_time_closed (h rate : Z) (k : nat) :
  hop_time h rate k == inject_Z (Z.of_nat k) * (inject_Z h / inject_Z rate).
Proof.
  induction k as [|k IH].
  - simpl. ring.
  - change (hop_time h rate (S k))
      with (hop_time h rate k + inject_Z h / inject_Z rate).
    rewrite IH, Nat2Z.inj_succ. unfold Z.succ. rewrite inject_Z_plus. ring.
Qed.

(** The stamp a hop's event carries is the accumulator's value there. *)
Lemma hop_event_stamp (data : list Q) (h rate : Z) (th : Q) (k : nat) :
  map (fun e => (hop_time h rate k, snd e)) (hop_event log2 data h rate th k)
  = hop_event log2 data h rate th k.
Proof.
  unfold hop_event. destruct (rms_below _ _); [reflexivity|].
  destruct (detect_pitch _ _) as [f|]; [|reflexivity].
  destruct (plausible f); reflexivity.
Qed.

(** The loop over the hops [m, m+1, ..., m+n-1], entered with the
    accumulator at [hop_time m]. *)
Lemma hop_loop_seq (data : list Q) (h rate : Z) (th : Q) (n : nat) :
  rate <> 0%Z ->
  forall (m : nat) (b : builder),
    (forall k, (m <= k < m + n)%nat -> hop_chunk data h k <> []) ->
    start_time b = hop_time h rate m ->
    exists b',
      hop_loop log2 data h rate th b
        (map (fun k => (Z.of_nat k * h)%Z) (seq m n)) = Return b' /\
      start_time b' = hop_time h rate (m + n) /\
      times b' = times b
                 ++ map fst (flat_map (hop_event log2 data h rate th) (seq m n)) /\
      notes b' = notes b
                 ++ map snd (flat_map (hop_event log2 data h rate th) (seq m n)).
Proof.
  intros Hrate. induction n as [|n IH]; intros m b Hne Hstart.
  - exists b. simpl. rewrite Nat.add_0_r, !app_nil_r. auto.
  - destruct (hop_body_advances data h rate th b m Hrate) as (b1 & Hb1 & Hs1 & Hev).
    { apply Hne. lia. }
    destruct (Hev _ Hstart) as [Ht1 Hn1]. rewrite hop_event_stamp in Ht1.
    destruct (IH (S m) b1) as (b' & Hloop & Hs' & Ht' & Hn').
    { intros k Hk. apply Hne. lia. }
    { rewrite Hs1, Hstart. reflexivity. }
    exists b'. simpl. rewrite Hb1. simpl. rewrite Hloop.
    split; [reflexivity|].
    split; [rewrite Hs'; f_equal; lia|].
    rewrite Ht', Hn', Ht1, Hn1, !map_app, !app_assoc. auto.
Qed.

(** C5.  For a file of a supported format and a non-zero rate,
    [process_audio_file] returns; at every hop the loop visits, the
    accumulator [start_time] grows by exactly [file_hop_size / rate], also
    when the hop is gated out or unvoiced, in which cases the lists are left
    as they were; a gated-in hop with a plausible frequency appends one
    event stamped with the accumulator's value before the advance.  So the
    accumulator before hop [k] is [k] advances from 0, and the result lists
    the events of the hops in order. *)
Theorem reference_hops_advance (w : wav) (hop_size : Z) (th : Q) (data : list Q) :
  normalize (wav_dtype w) (first_channel (wav_data w)) = Some data ->
  wav_rate w <> 0%Z ->
  let rate := wav_rate w in
  let h := file_hop_size_of hop_size rate in
  let n := length (py_range0 (len data - h) h) in
  let events := flat_map (hop_event log2 data h rate th) (seq 0 n) in
  (forall (b : builder) (k : nat),
      (k < n)%nat ->
      exists b',
        hop_body log2 data h rate th b (Z.of_nat k * h) = Return b' /\
        start_time b' = start_time b + inject_Z h / inject_Z rate /\
        (rms_below (hop_chunk data h k) th = true ->
           times b' = times b /\ notes b' = notes b) /\
        (forall f,
            rms_below (hop_chunk data h k) th = false ->
            detect_pitch (hop_chunk data h k) rate = Return f ->
            if plausible f
            then times b' = times b ++ [start_time b] /\
                 notes b' = notes b ++ [midi_of_freq log2 f]
            else times b' = times b /\ notes b' = notes b)) /\
  (exists b,
      hop_loop log2 data h rate th {| start_time := 0; times := []; notes := [] |}
        (py_range0 (len data - h) h) = Return b /\
      start_time b = hop_time h rate n /\
      times b = map fst events /\ notes b = map snd events) /\
  process_audio_file log2 (Return w) hop_size th
  = Return (map fst events, map snd events) /\
  (forall k, hop_time h rate k
             == inject_Z (Z.of_nat k) * (inject_Z h / inject_Z rate)).
Proof.
  intros Hnorm Hrate rate h n events.
  assert (Hloop : exists b,
      hop_loop log2 data h rate th {| start_time := 0; times := []; notes := [] |}
        (py_range0 (len data - h) h) = Return b /\
      start_time b = hop_time h rate n /\
      times b = map fst events /\ notes b = map snd events).
  { rewrite py_range0_seq. fold n.
    destruct (hop_loop_seq data h rate th n Hrate 0
                {| start_time := 0; times := []; notes := [] |})
      as (b & Hb & Hs & Ht & Hn).
    - intros k Hk. apply hop_chunk_nonempty. fold n. lia.
    - reflexivity.
    - exists b. auto. }
  split; [|split; [exact Hloop|split]].
  - intros b k Hk.
    destruct (hop_body_advances data h rate th b k Hrate) as (b' & Hb' & Hs & Hev).
    { apply hop_chunk_nonempty. fold n. exact Hk. }
    destruct (Hev _ eq_refl) as [Ht Hn]. clear Hev.
    exists b'. split; [exact Hb'|]. split; [exact Hs|].
    unfold hop_event in Ht, Hn. split.
    + intros Hg. rewrite Hg in Ht, Hn. simpl in Ht, Hn.
      now rewrite app_nil_r in Ht, Hn.
    + intros f Hg Hf. rewrite Hg, Hf in Ht, Hn.
      destruct (plausible f); simpl in Ht, Hn;
        rewrite ?app_nil_r in Ht, Hn; auto.
  - destruct Hloop as (b & Hb & _ & Ht & Hn).
    unfold process_audio_file. rewrite Hnorm. fold rate h.
    rewrite Hb. simpl. now rewrite Ht, Hn.
  - apply hop_time_closed.
Qed.

(** C3, as amended.  A file of any other sample format does not make the
    load fail: for every hop size and threshold [process_audio_file] raises
    nothing and returns the empty reference track [([], [])].  16-bit
    samples are divided by 2^15 and 32-bit samples by 2^31, which lands in
    [-1, 1]; float samples are passed through unchanged. *)
Theorem unsupported_format_empty_track (w : wav) (hop_size : Z) (th : Q)
    (pcm16 pcm32 floats : list Q) :
  supported_format (wav_dtype w) = false ->
  Forall (fun x => -32768 <= x <= 32767) pcm16 ->
  Forall (fun x => -2147483648 <= x <= 2147483647) pcm32 ->
  process_audio_file log2 (Return w) hop_size th = Return ([], []) /\
  normalize int16 pcm16 = Some (map (fun x => x / 32768) pcm16) /\
  Forall (fun y => -1 <= y <= 1) (map (fun x => x / 32768) pcm16) /\
  normalize int32 pcm32 = Some (map (fun x => x / 2147483648) pcm32) /\
  Forall (fun y => -1 <= y <= 1) (map (fun x => x / 2147483648) pcm32) /\
  normalize float32 floats = Some floats.
Proof.
  intros Hfmt H16 H32.
  split.
  { unfold process_audio_file.
    destruct (wav_dtype w); try discriminate Hfmt; reflexivity. }
  split; [reflexivity|].
  split.
  { rewrite Forall_map. revert H16. apply Forall_impl. intros x [Hlo Hhi].
    split.
    - apply Qle_shift_div_l; lra.
    - apply Qle_shift_div_r; lra. }
  split; [reflexivity|].
  split; [|reflexivity].
  rewrite Forall_map. revert H32. apply Forall_impl. intros x [Hlo Hhi].
  split.
  - apply Qle_shift_div_l; lra.
  - apply Qle_shift_div_r; lra.
Qed.

End WithLog2.

Lemma reference_hops_advance_witness :
  wav_rate Samples.pcm16_file <> 0%Z /\
  process_audio_file Samples.log2_stub (Return Samples.pcm16_file) 441 (75 # 10000)
  = Return
      (map fst (flat_map (hop_event Samples.log2_stub
                            (map (fun x => x / 32768) Samples.pcm16_samples)
                            10 1000 (75 # 10000)) (seq 0 3)),
       map snd (flat_map (hop_event Samples.log2_stub
                            (map (fun x => x / 32768) Samples.pcm16_samples)
                            10 1000 (75 # 10000)) (seq 0 3))).
Proof.
  split; [discriminate|].
  pose proof (reference_hops_advance Samples.log2_stub Samples.pcm16_file 441
                (75 # 10000) (map (fun x => x / 32768) Samples.pcm16_samples)
                eq_refl) as H.
  cbv zeta in H.
  destruct H as (_ & _ & H & _); [discriminate|].
  exact H.
Defined.

(** The sample file: the silent hop and the click hop leave no event, the
    square-wave hop leaves one, stamped with one hop's duration. *)
Example reference_of_sample_file :
  process_audio_file Samples.log2_stub (Return Samples.pcm16_file) 441 (75 # 10000)
  = Return ([10 # 1000], [133440 # 1760]).
Proof. vm_compute. reflexivity. Qed.

Lemma unsupported_format_empty_track_witness :
  supported_format (wav_dtype Samples.pcm8_file) = false /\
  process_audio_file Samples.log2_stub (Return Samples.pcm8_file) 1024 (75 # 10000)
  = Return ([], []).
Proof.
  split; [reflexivity|].
  apply (unsupported_format_empty_track Samples.log2_stub Samples.pcm8_file 1024
           (75 # 10000) [-32768; 0; 32767] [-2147483648; 2147483647] [1 # 2]).
  - reflexivity.
  - repeat constructor; simpl; lra.
  - repeat constructor; simpl; lra.
Defined.

(** C3, as stated, fails: an 8-bit file is of none of the three supported
    formats, and loading it raises nothing. *)
Lemma unsupported_format_not_raised :
  ~ (forall (log2 : Q -> Q) (w : wav) (hop_size : Z) (th : Q),
        supported_format (wav_dtype w) = false ->
        exists e, process_audio_file log2 (Return w) hop_size th = Raise e).
Proof.
  intros H.
  destruct (H Samples.log2_stub Samples.pcm8_file 1024%Z (75 # 10000) eq_refl)
    as [e He].
  discriminate He.
Qed.

End ReferenceTrackFacts.

(** ** The transport clock *)

Module TransportFacts.

Import PitchDetector Session.

Section WithSetup.

Variable cfg : setup.
Variable log2 : Q -> Q.

Local Abbreviation step := (Session.step cfg log2).
Local Abbreviation run := (Session.run cfg log2).
Local Abbreviation reachable := (Session.reachable cfg log2).
Local Abbreviation on_key := (Session.on_key cfg).

(** Only key handlers write the transport variables. *)
Lemma step_keeps_transport (a : action) (w : world) :
  is_key a = false ->
  is_playing (shared (step a w)) = is_playing (shared w) /\
  current_playback_time (shared (step a w)) = current_playback_time (shared w) /\
  last_resume_wall_time (shared (step a w)) = last_resume_wall_time (shared w).
Proof.
  destruct a as [k t1 t2|now| |samples|now|]; simpl; try discriminate; intros _.
  - unfold update. destruct (prune _ _ _) as [ts ns].
    destruct ts; [simpl; auto|]. destruct (background _ _); simpl; auto.
  - unfold play_audio_poll. destruct (seek_to (shared w)); simpl; auto.
  - destruct (capture w); simpl; auto.
  - destruct (capture w); simpl; auto.
  - destruct (capture w); simpl; auto.
Qed.

Lemma run_keeps_transport (acts : list action) (w : world) :
  Forall (fun a => is_key a = false) acts ->
  is_playing (shared (run acts w)) = is_playing (shared w) /\
  current_playback_time (shared (run acts w)) = current_playback_time (shared w) /\
  last_resume_wall_time (shared (run acts w)) = last_resume_wall_time (shared w).
Proof.
  intros H. revert w. induction H as [|a acts Ha _ IH]; intros w; simpl.
  - auto.
  - destruct (IH (step a w)) as (-> & -> & ->).
    now apply step_keeps_transport.
Qed.

(** C7.  From Playing, a press of the space bar at wall time [t1] pauses:
    whatever the other threads and the display do meanwhile, the clock then
    reads, at every wall time, what it read at [t1].  A second press at
    [t2] resumes: the clock reads at [t2] what it read at [t1], and from
    there on that value plus the wall time elapsed since [t2]; the interval
    [t2 - t1] spent paused is not counted. *)
Theorem pause_interval_not_counted (w : world) (t1 t1' t2 t2' : Q)
    (meanwhile : list action) :
  is_playing (shared w) = true ->
  Forall (fun a => is_key a = false) meanwhile ->
  let at_pause := get_elapsed_playing_time t1 (shared w) in
  let paused := step (KeyPress KeySpace t1 t1') w in
  let idle := run meanwhile paused in
  let resumed := step (KeyPress KeySpace t2 t2') idle in
  is_playing (shared paused) = false /\
  is_playing (shared idle) = false /\
  (forall t, get_elapsed_playing_time t (shared paused) = at_pause) /\
  (forall t, get_elapsed_playing_time t (shared idle) = at_pause) /\
  is_playing (shared resumed) = true /\
  get_elapsed_playing_time t2 (shared resumed) == at_pause /\
  (forall t, get_elapsed_playing_time t (shared resumed) == at_pause + (t - t2)).
Proof.
  intros Hplay Hmean at_pause paused idle resumed.
  assert (Hp : is_playing (shared paused) = false
               /\ current_playback_time (shared paused) = at_pause).
  { unfold paused, at_pause, get_elapsed_playing_time. simpl.
    rewrite Hplay. simpl. auto. }
  destruct Hp as [Hp1 Hp2].
  destruct (run_keeps_transport meanwhile paused Hmean) as (Hi1 & Hi2 & _).
  fold idle in Hi1, Hi2. rewrite Hp1 in Hi1. rewrite Hp2 in Hi2.
  assert (Hr : is_playing (shared resumed) = true
               /\ current_playback_time (shared resumed) = at_pause
               /\ last_resume_wall_time (shared resumed) = t2).
  { unfold resumed. simpl. rewrite Hi1. simpl. auto. }
  destruct Hr as (Hr1 & Hr2 & Hr3).
  repeat split; try assumption.
  - intros t. unfold get_elapsed_playing_time. now rewrite Hp1.
  - intros t. unfold get_elapsed_playing_time. now rewrite Hi1.
  - unfold get_elapsed_playing_time. rewrite Hr1, Hr2, Hr3. ring.
  - intros t. unfold get_elapsed_playing_time. rewrite Hr1, Hr2, Hr3. ring.
Qed.

(** The handlers never store a negative playback time, and the stored
    resume time is never ahead of the wall clock. *)
Lemma on_key_clock (k : key) (t1 t2 : Q) (g : globals) (now : Q) :
  0 <= audio_duration cfg ->
  0 <= current_playback_time g ->
  last_resume_wall_time g <= now ->
  now <= t1 -> t1 <= t2 ->
  0 <= current_playback_time (on_key k t1 t2 g) /\
  last_resume_wall_time (on_key k t1 t2 g) <= t2.
Proof.
  intros Hdur Hcpt Hlrw H1 H2.
  destruct k; simpl.
  - destruct (is_playing g); simpl; lra.
  - destruct (is_playing g); simpl; lra.
  - destruct (is_playing g); simpl;
      match goal with |- context [py_max 0 ?x] =>
        destruct (py_max_cases 0 x) as [[-> ?]|[-> ?]] end; lra.
  - destruct (is_playing g); simpl;
      match goal with |- context [py_min ?x ?y] =>
        destruct (py_min_cases x y) as [[-> ?]|[-> ?]] end; lra.
  - lra.
Qed.

Lemma step_wall (a : action) (w : world) :
  timely a w -> wall w <= wall (step a w).
Proof.
  destruct a as [k t1 t2|now| |samples|now|]; simpl.
  - lra.
  - intros H. destruct (update cfg now (shared w)). simpl. exact H.
  - lra.
  - destruct (capture w); simpl; lra.
  - destruct (capture w); simpl; lra.
  - destruct (capture w); simpl; lra.
Qed.

Lemma reachable_clock (w : world) :
  0 <= audio_duration cfg ->
  reachable w ->
  0 <= current_playback_time (shared w) /\
  last_resume_wall_time (shared w) <= wall w.
Proof.
  intros Hdur H. induction H as [t0|a w Hw [IH1 IH2] Ha].
  - simpl. lra.
  - destruct (is_key a) eqn:Hk.
    + destruct a as [k t1 t2| | | | |]; try discriminate.
      simpl in Ha. simpl.
      apply (on_key_clock k t1 t2 (shared w) (wall w)); lra.
    + destruct (step_keeps_transport a w Hk) as (_ & -> & ->).
      pose proof (step_wall a w Ha). lra.
Qed.

(** C2, as amended.  In every reachable state the accumulated playback time
    is at least 0, and so is what the clock reads from then on; the clock
    never reads less at a later wall time, and no action other than a seek
    or a stop lowers the accumulated time or the clock's reading.  The
    track's duration bounds the accumulated time right after a forward seek,
    and a stop leaves it at 0; nothing else enforces the upper bound. *)
Theorem playback_time_nonnegative_monotone (w : world) :
  0 <= audio_duration cfg ->
  reachable w ->
  0 <= current_playback_time (shared w) /\
  (forall t, wall w <= t -> 0 <= get_elapsed_playing_time t (shared w)) /\
  (forall t t', wall w <= t -> t <= t' ->
     get_elapsed_playing_time t (shared w)
     <= get_elapsed_playing_time t' (shared w)) /\
  (forall a, timely a w -> repositions a = false ->
     current_playback_time (shared w)
     <= current_playback_time (shared (step a w)) /\
     get_elapsed_playing_time (wall w) (shared w)
     <= get_elapsed_playing_time (wall (step a w)) (shared (step a w))) /\
  (forall t1 t2,
     timely (KeyPress KeyRight t1 t2) w ->
     0 <= current_playback_time (shared (step (KeyPress KeyRight t1 t2) w))
     /\ current_playback_time (shared (step (KeyPress KeyRight t1 t2) w))
        <= audio_duration cfg) /\
  (forall t1 t2,
     current_playback_time (shared (step (KeyPress KeyS t1 t2) w)) = 0).
Proof.
  intros Hdur Hw. destruct (reachable_clock w Hdur Hw) as [Hcpt Hlrw].
  split; [exact Hcpt|].
  split.
  { intros t Ht. unfold get_elapsed_playing_time.
    destruct (is_playing (shared w)); lra. }
  split.
  { intros t t' Ht Ht'. unfold get_elapsed_playing_time.
    destruct (is_playing (shared w)); lra. }
  split.
  { intros a Ha Hrep. destruct (is_key a) eqn:Hk.
    - destruct a as [k t1 t2| | | | |]; try discriminate.
      simpl in Ha. destruct k; try discriminate; simpl;
        unfold get_elapsed_playing_time.
      + destruct (is_playing (shared w)); simpl; lra.
      + destruct (is_playing (shared w)); simpl; lra.
    - destruct (step_keeps_transport a w Hk) as (Hp & Hc & Hl).
      pose proof (step_wall a w Ha).
      unfold get_elapsed_playing_time. rewrite Hp, Hc, Hl.
      destruct (is_playing (shared w)); lra. }
  split.
  { intros t1 t2 Ht. simpl in Ht. simpl.
    match goal with |- context [py_min ?x ?y] =>
      destruct (py_min_cases x y) as [[E ?]|[E ?]]
    end; rewrite E; destruct (is_playing (shared w)); lra. }
  intros t1 t2. simpl. destruct (is_playing (shared w)); reflexivity.
Qed.

(** C4, as amended.  Each arrow key clamps on the side it moves towards.
    With [now] the clock's reading when the key is handled, the rewind key
    stores [max(0, now - 2)] and the forward key [min(now + 2, duration)],
    each in both the accumulated time and the pending seek target.  The
    stored value is never below 0, and after the forward key never above the
    duration, where it is the two-sided clamp; after the rewind key it is the
    two-sided clamp whenever [now - 2] is within the duration.  When playing,
    the resume time becomes the wall clock's latest reading; when paused it
    is left alone. *)
Theorem seek_clamps_on_its_side (w : world) (t1 t2 : Q) :
  0 <= audio_duration cfg ->
  reachable w ->
  wall w <= t1 -> t1 <= t2 ->
  let g := shared w in
  let now := get_elapsed_playing_time t1 g in
  let back := on_key KeyLeft t1 t2 g in
  let forth := on_key KeyRight t1 t2 g in
  (current_playback_time back = py_max 0 (now - 2) /\
   seek_to back = Some (py_max 0 (now - 2)) /\
   0 <= current_playback_time back /\
   (now - 2 <= audio_duration cfg ->
    current_playback_time back = clamp (now - 2) 0 (audio_duration cfg))) /\
  (current_playback_time forth = py_min (now + 2) (audio_duration cfg) /\
   seek_to forth = Some (py_min (now + 2) (audio_duration cfg)) /\
   0 <= current_playback_time forth /\
   current_playback_time forth <= audio_duration cfg /\
   current_playback_time forth == clamp (now + 2) 0 (audio_duration cfg)) /\
  is_playing back = is_playing g /\
  is_playing forth = is_playing g /\
  (is_playing g = true ->
   last_resume_wall_time back = t2 /\ last_resume_wall_time forth = t2) /\
  (is_playing g = false ->
   last_resume_wall_time back = last_resume_wall_time g /\
   last_resume_wall_time forth = last_resume_wall_time g).
Proof.
  intros Hdur Hw H1 H2 g now back forth.
  destruct (reachable_clock w Hdur Hw) as [Hcpt Hlrw]. fold g in Hcpt, Hlrw.
  assert (Hnow : 0 <= now).
  { unfold now, get_elapsed_playing_time. destruct (is_playing g); lra. }
  assert (Hback : current_playback_time back = py_max 0 (now - 2)).
  { unfold back, now, get_elapsed_playing_time. simpl.
    destruct (is_playing g); reflexivity. }
  assert (Hforth : current_playback_time forth = py_min (now + 2) (audio_duration cfg)).
  { unfold forth, now, get_elapsed_playing_time. simpl.
    destruct (is_playing g); reflexivity. }
  split; [|split].
  - split; [exact Hback|]. split.
    { unfold back, now, get_elapsed_playing_time. simpl.
      destruct (is_playing g); reflexivity. }
    split.
    { rewrite Hback. apply py_max_spec. }
    intros Hin. rewrite Hback. unfold clamp.
    destruct (py_min_cases (now - 2) (audio_duration cfg)) as [[-> _]|[_ Hlt]];
      [reflexivity | lra].
  - split; [exact Hforth|]. split.
    { unfold forth, now, get_elapsed_playing_time. simpl.
      destruct (is_playing g); reflexivity. }
    rewrite Hforth.
    assert (Hlo : 0 <= py_min (now + 2) (audio_duration cfg)).
    { destruct (py_min_cases (now + 2) (audio_duration cfg)) as [[-> _]|[-> _]]; lra. }
    split; [exact Hlo|]. split; [apply py_min_spec|].
    unfold clamp.
    destruct (py_max_cases 0 (py_min (now + 2) (audio_duration cfg)))
      as [[-> Hle]|[-> _]]; [lra | reflexivity].
  - unfold back, forth. simpl.
    split; [reflexivity|]. split; [reflexivity|].
    split; intros E; unfold g in *; rewrite E; split; reflexivity.
Qed.

End WithSetup.

Lemma start_then_pause_reachable (cfg : setup) (log2 : Q -> Q) (t : Q) :
  0 <= t ->
  reachable cfg log2 (step cfg log2 (KeyPress KeySpace t t) (start 0)).
Proof.
  intros Ht. apply reachable_step; [apply reachable_start|].
  simpl. lra.
Qed.

Lemma pause_interval_not_counted_witness :
  let w := start 0 in
  let paused := step Samples.three_minutes Samples.log2_stub (KeyPress KeySpace 10 10) w in
  let idle := run Samples.three_minutes Samples.log2_stub [Tick 12; PlaybackPoll] paused in
  let resumed := step Samples.three_minutes Samples.log2_stub (KeyPress KeySpace 25 25) idle in
  is_playing (shared w) = true /\
  get_elapsed_playing_time 25 (shared resumed)
  == get_elapsed_playing_time 10 (shared w).
Proof.
  split; [reflexivity|].
  apply (pause_interval_not_counted Samples.three_minutes Samples.log2_stub
           (start 0) 10 10 25 25 [Tick 12; PlaybackPoll]).
  - reflexivity.
  - repeat constructor.
Defined.

Lemma playback_time_nonnegative_monotone_witness :
  0 <= audio_duration Samples.three_minutes /\
  0 <= current_playback_time
         (shared (step Samples.three_minutes Samples.log2_stub
                    (KeyPress KeySpace 200 200) (start 0))).
Proof.
  split; [discriminate|].
  apply (playback_time_nonnegative_monotone Samples.three_minutes Samples.log2_stub).
  - discriminate.
  - apply start_then_pause_reachable. discriminate.
Defined.

(** C2, as stated, fails: left playing for 200 s and then paused, the session
    holds an accumulated playback time of 200 s on a track of 180 s. *)
Lemma playback_time_exceeds_duration :
  ~ (forall (cfg : setup) (log2 : Q -> Q) (w : world),
        0 <= audio_duration cfg ->
        reachable cfg log2 w ->
        0 <= current_playback_time (shared w) /\
        current_playback_time (shared w) <= audio_duration cfg).
Proof.
  intros H.
  destruct (H Samples.three_minutes Samples.log2_stub
              (step Samples.three_minutes Samples.log2_stub
                 (KeyPress KeySpace 200 200) (start 0))) as [_ Hhi].
  - discriminate.
  - apply start_then_pause_reachable. discriminate.
  - vm_compute in Hhi. apply Hhi. reflexivity.
Qed.

Lemma seek_clamps_on_its_side_witness :
  0 <= audio_duration Samples.three_minutes /\
  wall (start 0) <= 1 /\
  current_playback_time (on_key Samples.three_minutes KeyLeft 1 1 (shared (start 0)))
  = py_max 0 (get_elapsed_playing_time 1 (shared (start 0)) - 2).
Proof.
  split; [discriminate|]. split; [discriminate|].
  assert (Hdur : 0 <= audio_duration Samples.three_minutes) by discriminate.
  assert (Hwall : wall (start 0) <= 1) by discriminate.
  assert (Hord : 1 <= 1) by discriminate.
  pose proof (seek_clamps_on_its_side Samples.three_minutes Samples.log2_stub
                (start 0) 1 1 Hdur (reachable_start _ _ 0) Hwall Hord) as H.
  cbv zeta in H. destruct H as ((H & _) & _). exact H.
Defined.

(** Rewinding when the clock reads 1.0 s lands on 0; going forward 1 s
    before the end lands on the duration. *)
Example seek_at_the_edges :
  current_playback_time (on_key Samples.three_minutes KeyLeft 1 1 (initial 0)) == 0 /\
  current_playback_time (on_key Samples.three_minutes KeyRight 179 179 (initial 0)) == 180.
Proof. split; vm_compute; reflexivity. Qed.

(** C4, as stated, fails: with the clock at 200 s on a track of 180 s, the
    rewind key stores 198 s, not the clamped 180 s. *)
Lemma rewind_not_clamped_to_duration :
  ~ (forall (cfg : setup) (log2 : Q -> Q) (w : world) (t1 t2 : Q),
        0 <= audio_duration cfg ->
        reachable cfg log2 w ->
        wall w <= t1 -> t1 <= t2 ->
        current_playback_time (on_key cfg KeyLeft t1 t2 (shared w))
        == clamp (get_elapsed_playing_time t1 (shared w) - 2) 0 (audio_duration cfg)).
Proof.
  intros H.
  specialize (H Samples.three_minutes Samples.log2_stub (start 0) 200 200).
  assert (E : ~ current_playback_time
                  (on_key Samples.three_minutes KeyLeft 200 200 (shared (start 0)))
                == clamp (get_elapsed_playing_time 200 (shared (start 0)) - 2) 0
                     (audio_duration Samples.three_minutes))
    by (vm_compute; discriminate).
  apply E, H; try discriminate. apply reachable_start.
Qed.

End TransportFacts.

(** ** The capture thread and the live buffer *)

Module CaptureFacts.

Import PitchDetector Session PitchDetectorFacts.

Section WithSetup.

Variable cfg : setup.
Variable log2 : Q -> Q.

Local Abbreviation step := (Session.step cfg log2).
Local Abbreviation run := (Session.run cfg log2).
Local Abbreviation on_key := (Session.on_key cfg).

(** Stop and both seeks leave the live lists and the queue empty. *)
Lemma reposition_clears (k : key) (t1 t2 : Q) (g : globals) :
  repositions (KeyPress k t1 t2) = true ->
  times (on_key k t1 t2 g) = [] /\
  notes (on_key k t1 t2 g) = [] /\
  data_queue (on_key k t1 t2 g) = [].
Proof.
  destruct k; simpl; try discriminate; auto.
Qed.

(** While paused, with no chunk of the capture thread in flight, an action
    other than a press of the space bar keeps things that way and adds
    nothing to the queue. *)
Lemma paused_step (a : action) (w : world) :
  is_toggle a = false ->
  is_playing (shared w) = false ->
  capture w = AwaitChunk ->
  is_playing (shared (step a w)) = false /\
  capture (step a w) = AwaitChunk /\
  (forall ev, In ev (data_queue (shared (step a w))) ->
              In ev (data_queue (shared w))).
Proof.
  intros Ha Hp Hc.
  destruct a as [k t1 t2|now| |samples|now|]; simpl.
  - destruct k; try discriminate; simpl; rewrite ?Hp; simpl;
      repeat split; auto; try (intros ev []).
  - unfold update. destruct (prune _ _ _) as [ts ns].
    destruct ts; [|destruct (background _ _)]; simpl;
      repeat split; auto; intros ev [].
  - unfold play_audio_poll. destruct (seek_to (shared w)); simpl; auto.
  - rewrite Hc. simpl. unfold capture_chunk. rewrite Hp. simpl. auto.
  - rewrite Hc. auto.
  - rewrite Hc. auto.
Qed.

Lemma paused_run (acts : list action) (w : world) :
  Forall (fun a => is_toggle a = false) acts ->
  is_playing (shared w) = false ->
  capture w = AwaitChunk ->
  is_playing (shared (run acts w)) = false /\
  capture (run acts w) = AwaitChunk /\
  (forall ev, In ev (data_queue (shared (run acts w))) ->
              In ev (data_queue (shared w))).
Proof.
  intros H. revert w. induction H as [|a acts Ha _ IH]; intros w Hp Hc; simpl.
  - auto.
  - destruct (paused_step a w Ha Hp Hc) as (Hp' & Hc' & Hq').
    destruct (IH (step a w) Hp' Hc') as (Hp'' & Hc'' & Hq'').
    auto.
Qed.

(** While paused, whatever the capture thread holds, an action other than a
    press of the space bar leaves the transport paused, puts nothing into
    the queue but a tuple the thread already held, and hands the thread
    nothing new to hold. *)
Lemma paused_step_in_flight (a : action) (w : world) :
  is_toggle a = false ->
  is_playing (shared w) = false ->
  is_playing (shared (step a w)) = false /\
  (length (data_queue (shared (step a w))) + in_flight_count (step a w)
   <= length (data_queue (shared w)) + in_flight_count w)%nat /\
  (forall ev, In ev (data_queue (shared (step a w))) ->
              In ev (data_queue (shared w)) \/ in_flight w ev) /\
  (forall ev, in_flight (step a w) ev -> in_flight w ev).
Proof.
  intros Ha Hp.
  destruct a as [k t1 t2|now| |samples|now|].
  - unfold in_flight, in_flight_count.
    destruct k; try discriminate; simpl; rewrite ?Hp; simpl;
      repeat split; auto; try lia; try (intros ev []).
  - unfold in_flight, in_flight_count. simpl.
    unfold update. destruct (prune _ _ _) as [ts ns].
    destruct ts; [|destruct (background _ _)]; simpl;
      repeat split; auto; try lia; intros ev [].
  - unfold in_flight, in_flight_count. simpl.
    unfold play_audio_poll. destruct (seek_to (shared w)); simpl;
      repeat split; auto.
  - unfold in_flight, in_flight_count. simpl.
    destruct (capture w) eqn:Hc; simpl; rewrite ?Hc;
      repeat split; auto.
    + unfold capture_chunk. rewrite Hp. simpl. lia.
    + unfold capture_chunk. rewrite Hp. simpl. intros ev [].
  - unfold in_flight, in_flight_count. simpl.
    destruct (capture w) eqn:Hc; simpl; rewrite ?Hc;
      repeat split; auto.
    intros ev ->. reflexivity.
  - unfold in_flight, in_flight_count. simpl.
    destruct (capture w) eqn:Hc; simpl; rewrite ?Hc;
      repeat split; auto.
    + rewrite length_app. simpl. lia.
    + intros ev' Hin. apply in_app_or in Hin.
      destruct Hin as [Hin|[->|[]]]; auto.
    + intros ev' [].
Qed.

Lemma paused_run_in_flight (acts : list action) (w : world) :
  Forall (fun a => is_toggle a = false) acts ->
  is_playing (shared w) = false ->
  is_playing (shared (run acts w)) = false /\
  (length (data_queue (shared (run acts w))) + in_flight_count (run acts w)
   <= length (data_queue (shared w)) + in_flight_count w)%nat /\
  (forall ev, In ev (data_queue (shared (run acts w))) ->
              In ev (data_queue (shared w)) \/ in_flight w ev) /\
  (forall ev, in_flight (run acts w) ev -> in_flight w ev).
Proof.
  intros H. revert w. induction H as [|a acts Ha _ IH]; intros w Hp; simpl.
  - repeat split; auto.
  - destruct (paused_step_in_flight a w Ha Hp) as (Hp' & Hn' & Hq' & Hf').
    destruct (IH (step a w) Hp') as (Hp'' & Hn'' & Hq'' & Hf'').
    repeat split; auto.
    + lia.
    + intros ev Hin. destruct (Hq'' ev Hin) as [Hold|Hfl]; auto.
Qed.

(** C9, as amended.  A chunk for which the locked test reads [is_playing]
    false is dropped there, whatever it holds: the thread goes back to
    reading, the shared state is untouched, and neither the energy gate nor
    the detector decides anything.  The test is the only check.  While the
    transport stays paused (any actions but a press of the space bar), the
    queue receives nothing but the one tuple the thread may have held when
    the pause began, from a chunk that had passed the test before; with no
    chunk in flight it receives nothing. *)
Theorem paused_chunk_discarded (w : world) (samples : list Q) :
  is_playing (shared w) = false ->
  capture_chunk log2 samples (shared w) = AwaitChunk /\
  shared (step (CaptureChunk samples) w) = shared w /\
  (forall acts,
     Forall (fun a => is_toggle a = false) acts ->
     is_playing (shared (run acts w)) = false /\
     (length (data_queue (shared (run acts w))) + in_flight_count (run acts w)
      <= length (data_queue (shared w)) + in_flight_count w)%nat /\
     (forall ev, In ev (data_queue (shared (run acts w))) ->
                 In ev (data_queue (shared w)) \/ in_flight w ev)) /\
  (capture w = AwaitChunk ->
   step (CaptureChunk samples) w = w /\
   forall acts,
     Forall (fun a => is_toggle a = false) acts ->
     is_playing (shared (run acts w)) = false /\
     capture (run acts w) = AwaitChunk /\
     (forall ev, In ev (data_queue (shared (run acts w))) ->
                 In ev (data_queue (shared w)))).
Proof.
  intros Hp.
  assert (Hdrop : capture_chunk log2 samples (shared w) = AwaitChunk).
  { unfold capture_chunk. now rewrite Hp. }
  split; [exact Hdrop|]. split.
  { simpl. destruct (capture w); reflexivity. }
  split.
  { intros acts Hacts.
    destruct (paused_run_in_flight acts w Hacts Hp) as (H1 & H2 & H3 & _).
    auto. }
  intros Hc. split.
  { simpl. rewrite Hc, Hdrop. destruct w; simpl in *. now subst. }
  intros acts Hacts. now apply paused_run.
Qed.

End WithSetup.

(** A chunk at the constant level 0.5 passes the gate and the detector. *)
Lemma constant_hop_captured (log2 : Q -> Q) (g : globals) :
  is_playing g = true ->
  capture_chunk log2 (repeat (1 # 2) 1024) g
  = HaveNote (midi_of_freq log2 (inject_Z 44100 / inject_Z 44)).
Proof.
  intros Hp. unfold capture_chunk. rewrite Hp. simpl negb. cbv iota.
  replace (rms_below (repeat (1 # 2) 1024) VOLUME_THRESHOLD) with false
    by (vm_compute; reflexivity).
  unfold SAMPLE_RATE. rewrite detect_pitch_constant_hop. reflexivity.
Qed.

(** The chunk passes the locked test at 9 s, the space bar pauses at 10 s,
    and the thread still holds the note. *)
Lemma paused_with_chunk_in_flight :
  Session.run Samples.three_minutes Samples.log2_stub
    [CaptureChunk (repeat (1 # 2) 1024); KeyPress KeySpace 10 10] (start 0)
  = {| shared := Session.on_key Samples.three_minutes KeySpace 10 10 (initial 0);
       capture := HaveNote (midi_of_freq Samples.log2_stub
                              (inject_Z 44100 / inject_Z 44));
       wall := 10; drawn := [] |}.
Proof.
  change (Session.run Samples.three_minutes Samples.log2_stub
            [CaptureChunk (repeat (1 # 2) 1024); KeyPress KeySpace 10 10]
            (start 0))
    with (Session.step Samples.three_minutes Samples.log2_stub
            (KeyPress KeySpace 10 10)
            {| shared := initial 0;
               capture := capture_chunk Samples.log2_stub (repeat (1 # 2) 1024)
                            (initial 0);
               wall := 0; drawn := [] |}).
  rewrite constant_hop_captured by reflexivity. reflexivity.
Qed.

Lemma paused_chunk_discarded_witness :
  let w := {| shared := Session.on_key Samples.three_minutes KeySpace 10 10
                          (initial 0);
              capture := HaveNote (midi_of_freq Samples.log2_stub
                                     (inject_Z 44100 / inject_Z 44));
              wall := 10; drawn := [] |} in
  let acts := [CaptureStamp 11; CapturePut;
               CaptureChunk (repeat (1 # 2) 1024); CaptureStamp 12;
               CapturePut] in
  is_playing (shared w) = false /\
  capture_chunk Samples.log2_stub (repeat (1 # 2) 1024) (shared w)
  = AwaitChunk /\
  Forall (fun a => is_toggle a = false) acts /\
  (length (data_queue
             (shared (Session.run Samples.three_minutes Samples.log2_stub
                        acts w)))
   + in_flight_count (Session.run Samples.three_minutes Samples.log2_stub
                        acts w)
   <= length (data_queue (shared w)) + in_flight_count w)%nat.
Proof.
  intros w acts.
  assert (Hacts : Forall (fun a => is_toggle a = false) acts)
    by (repeat constructor).
  split; [reflexivity|].
  pose proof (paused_chunk_discarded Samples.three_minutes Samples.log2_stub
                w (repeat (1 # 2) 1024) eq_refl) as H.
  destruct H as (Hdrop & _ & Hrun & _).
  split; [exact Hdrop|]. split; [exact Hacts|].
  destruct (Hrun acts Hacts) as (_ & Hlen & _). exact Hlen.
Defined.

(** C9, as stated, fails: a chunk that passed the locked test just before
    the space bar paused the session is stamped and put while the transport
    is paused. *)
Lemma paused_capture_still_pushes :
  ~ (forall (cfg : setup) (log2 : Q -> Q) (w : world),
        Session.reachable cfg log2 w ->
        is_playing (shared w) = false ->
        data_queue (shared (Session.step cfg log2 CapturePut w))
        = data_queue (shared w)).
Proof.
  intros H.
  pose (w := Session.run Samples.three_minutes Samples.log2_stub
               [CaptureChunk (repeat (1 # 2) 1024); KeyPress KeySpace 10 10;
                CaptureStamp 11] (start 0)).
  assert (Hw : w = Session.step Samples.three_minutes Samples.log2_stub
                     (CaptureStamp 11)
                     (Session.run Samples.three_minutes Samples.log2_stub
                        [CaptureChunk (repeat (1 # 2) 1024);
                         KeyPress KeySpace 10 10] (start 0)))
    by reflexivity.
  assert (Hr : Session.reachable Samples.three_minutes Samples.log2_stub w).
  { rewrite Hw. apply reachable_step.
    - change (Session.run Samples.three_minutes Samples.log2_stub
                [CaptureChunk (repeat (1 # 2) 1024); KeyPress KeySpace 10 10]
                (start 0))
        with (Session.step Samples.three_minutes Samples.log2_stub
                (KeyPress KeySpace 10 10)
                (Session.step Samples.three_minutes Samples.log2_stub
                   (CaptureChunk (repeat (1 # 2) 1024)) (start 0))).
      apply reachable_step.
      + apply reachable_step; [apply reachable_start | exact I].
      + change (0 <= 10 /\ 10 <= 10). split; lra.
    - rewrite paused_with_chunk_in_flight. change (10 <= 11). lra. }
  rewrite Hw, paused_with_chunk_in_flight in Hr.
  specialize (H _ _ _ Hr eq_refl).
  discriminate H.
Qed.

(** C8, at a failing schedule.  The capture thread has detected a note and
    stamped it at 10 s, and has not yet called [data_queue.put], when the
    main thread handles the forward key: the handler leaves the live lists
    and the queue empty, the thread then puts its tuple, and the next tick
    draws it, 2 s behind the new position.  After a stop the same tuple
    stays in the live buffer and is drawn once playback, resumed, reaches
    10 s again. *)
Theorem stale_event_drawn_after_seek (log2 : Q -> Q) (samples : list Q) (n : Q) :
  capture_chunk log2 samples (initial 0) = HaveNote n ->
  let run := Session.run Samples.three_minutes log2 in
  let stamped := run [CaptureChunk samples; CaptureStamp 10] (start 0) in
  let sought := run [KeyPress KeyRight 10 10] stamped in
  let stopped := run [KeyPress KeyS 10 10] stamped in
  (exists t, capture stamped = HaveEvent (t, n) /\ t == 10) /\
  (times (shared sought) = [] /\ notes (shared sought) = [] /\
   data_queue (shared sought) = [] /\
   get_elapsed_playing_time 10 (shared sought) == 12) /\
  (exists f x,
      drawn (run [CapturePut; Tick 10] sought) = [Return f] /\
      live f = [(x, n)] /\ x == -2) /\
  (times (shared stopped) = [] /\ notes (shared stopped) = [] /\
   data_queue (shared stopped) = []) /\
  (exists f x,
      drawn (run [CapturePut; KeyPress KeySpace 20 20; Tick 30] stopped)
      = [Return f] /\
      live f = [(x, n)] /\ x == 0).
Proof.
  intros Hnote run stamped sought stopped.
  assert (Hst : stamped
                = {| shared := initial 0;
                     capture := HaveEvent
                       (capture_stamp Samples.three_minutes 10 n (initial 0));
                     wall := 10; drawn := [] |}).
  { unfold stamped, run.
    change (Session.run Samples.three_minutes log2
              [CaptureChunk samples; CaptureStamp 10] (start 0))
      with (Session.step Samples.three_minutes log2 (CaptureStamp 10)
              {| shared := initial 0;
                 capture := capture_chunk log2 samples (initial 0);
                 wall := 0; drawn := [] |}).
    rewrite Hnote. reflexivity. }
  split.
  { rewrite Hst. simpl. eexists. split; [reflexivity|]. vm_compute. reflexivity. }
  split.
  { unfold sought. rewrite Hst. simpl. repeat split. }
  split.
  { unfold sought. rewrite Hst. vm_compute.
    eexists. eexists. split; [reflexivity|]. split; reflexivity. }
  split.
  { unfold stopped. rewrite Hst. simpl. repeat split. }
  unfold stopped. rewrite Hst. vm_compute.
  eexists. eexists. split; [reflexivity|]. split; reflexivity.
Qed.

Lemma stale_event_drawn_after_seek_witness :
  capture_chunk Samples.log2_stub (repeat (1 # 2) 1024) (initial 0)
  = HaveNote (midi_of_freq Samples.log2_stub (inject_Z 44100 / inject_Z 44)) /\
  exists f x,
    drawn (Session.run Samples.three_minutes Samples.log2_stub
             [CapturePut; Tick 10]
             (Session.run Samples.three_minutes Samples.log2_stub
                [KeyPress KeyRight 10 10]
                (Session.run Samples.three_minutes Samples.log2_stub
                   [CaptureChunk (repeat (1 # 2) 1024); CaptureStamp 10]
                   (start 0))))
    = [Return f] /\
    live f = [(x, midi_of_freq Samples.log2_stub (inject_Z 44100 / inject_Z 44))] /\
    x == -2.
Proof.
  assert (Hnote : capture_chunk Samples.log2_stub (repeat (1 # 2) 1024) (initial 0)
                  = HaveNote (midi_of_freq Samples.log2_stub
                                (inject_Z 44100 / inject_Z 44)))
    by (apply constant_hop_captured; reflexivity).
  split; [exact Hnote|].
  pose proof (stale_event_drawn_after_seek Samples.log2_stub
                (repeat (1 # 2) 1024) _ Hnote) as H.
  cbv zeta in H. destruct H as (_ & _ & H & _). exact H.
Defined.

End CaptureFacts.

(** ** The scorer *)

Module ScorerFacts.

Import Session.

Lemma argmin_from_spec (l : list Q) :
  forall (bi : nat) (b : Q) (i : nat),
    (argmin_from bi b i l = bi /\ Forall (fun x => b <= x) l) \/
    ((i <= argmin_from bi b i l < i + length l)%nat /\
     nth (argmin_from bi b i l - i) l 0 <= b /\
     Forall (fun x => nth (argmin_from bi b i l - i) l 0 <= x) l).
Proof.
  induction l as [|x l IH]; intros bi b i; simpl.
  - left. auto.
  - destruct (Qlt_bool x b) eqn:E.
    + apply Qlt_bool_iff in E. right.
      destruct (IH i x (S i)) as [[Hj Hall]|(Hj & Hle & Hall)].
      * rewrite Hj, Nat.sub_diag. repeat split; try lia; try lra.
        constructor; [lra | exact Hall].
      * set (j := argmin_from i x (S i) l) in *.
        replace (j - i)%nat with (S (j - S i)) by lia.
        repeat split; try lia; try lra.
        constructor; [exact Hle | exact Hall].
    + apply Qlt_bool_false_iff in E.
      destruct (IH bi b (S i)) as [[Hj Hall]|(Hj & Hle & Hall)].
      * left. split; [exact Hj|]. constructor; assumption.
      * right. set (j := argmin_from bi b (S i) l) in *.
        replace (j - i)%nat with (S (j - S i)) by lia.
        repeat split; try lia; try assumption.
        constructor; [lra | exact Hall].
Qed.

(** [np.argmin] points inside a non-empty array, at a least entry. *)
Lemma np_argmin_spec (l : list Q) :
  l <> [] ->
  (np_argmin l < length l)%nat /\
  Forall (fun y => nth (np_argmin l) l 0 <= y) l.
Proof.
  destruct l as [|x l]; [congruence|]. intros _. simpl np_argmin.
  destruct (argmin_from_spec l 0 x 1) as [[Hj Hall]|(Hj & Hle & Hall)].
  - rewrite Hj. simpl. split; [lia|]. constructor; [lra | exact Hall].
  - set (j := argmin_from 0 x 1 l) in *. simpl length.
    split; [lia|].
    destruct j as [|j]; [lia|]. simpl.
    replace (S j - 1)%nat with j in * by lia.
    constructor; assumption.
Qed.

(** The loop body picks, among the candidates, one nearest in time. *)
Lemma score_point_scored (past : list (Q * Q)) (p : Q * Q) :
  past <> [] -> scored past p (score_point past p).
Proof.
  intros Hne. unfold scored. destruct past as [|r0 past0] eqn:Epast; [congruence|].
  rewrite <- Epast in *. clear Epast r0 past0.
  unfold score_point.
  set (lx := fst p).
  set (gaps := map (fun x => Qabs (x - lx)) (map fst past)).
  assert (Hgl : length gaps = length past)
    by (unfold gaps; now rewrite !length_map).
  assert (Hgne : gaps <> []).
  { intros E. rewrite E in Hgl. destruct past; [congruence | discriminate]. }
  destruct (np_argmin_spec gaps Hgne) as [Hidx Hmin].
  set (idx := np_argmin gaps) in *.
  set (r := nth idx past (0, 0)).
  assert (Hx : nth idx (map fst past) 0 = fst r).
  { unfold r. change (0 : Q) with (fst ((0 : Q), (0 : Q))) at 1.
    apply map_nth. }
  assert (Hy : nth idx (map snd past) 0 = snd r).
  { unfold r. change (0 : Q) with (snd ((0 : Q), (0 : Q))) at 1.
    apply map_nth. }
  assert (Hg : nth idx gaps 0 = Qabs (fst r - lx)).
  { rewrite (nth_indep gaps 0 (Qabs (0 - lx))) by exact Hidx.
    unfold gaps. rewrite (map_nth (fun x => Qabs (x - lx))). now rewrite Hx. }
  rewrite Hx, Hy. exists r. split.
  { unfold r. apply nth_In. lia. }
  split.
  { intros r' Hr'. rewrite <- Hg.
    rewrite Forall_forall in Hmin. apply Hmin.
    unfold gaps. apply in_map with (f := fun x => Qabs (x - lx)).
    now apply in_map. }
  destruct (Qlt_bool (Qabs (fst r - lx)) (2 # 10)) eqn:E.
  - apply Qlt_bool_iff in E. split; [reflexivity | intros H; lra].
  - apply Qlt_bool_false_iff in E. split; [intros H; lra | reflexivity].
Qed.

Lemma existsb_filter_nil {A : Type} (f : A -> bool) (l : list A) :
  existsb f l = false -> filter f l = [].
Proof.
  induction l as [|x l IH]; simpl; [reflexivity|].
  destruct (f x); simpl; [discriminate | exact IH].
Qed.

Lemma existsb_filter_cons {A : Type} (f : A -> bool) (l : list A) :
  existsb f l = true -> filter f l <> [].
Proof.
  induction l as [|x l IH]; simpl; [discriminate|].
  destruct (f x); simpl; [discriminate | exact IH].
Qed.

Lemma Forall2_map_right {A B : Type} (R : A -> B -> Prop) (f : A -> B) (l : list A) :
  (forall a, R a (f a)) -> Forall2 R l (map f l).
Proof.
  intros H. induction l; simpl; constructor; auto.
Qed.

(** The [errors] array, point by point. *)
Lemma score_scored (shown live_pts : list (Q * Q)) :
  Forall2 (scored (filter (fun p => Qle_bool (fst p) 0) shown))
          live_pts (score shown live_pts).
Proof.
  unfold score.
  assert (Hdefault : filter (fun p => Qle_bool (fst p) 0) shown = [] ->
            Forall2 (scored (filter (fun p => Qle_bool (fst p) 0) shown))
                    live_pts (map (fun _ => 3) live_pts)).
  { intros ->. apply Forall2_map_right. intros a. reflexivity. }
  destruct (Z.gtb_spec (len shown) 0) as [Hlen|Hlen].
  - destruct (existsb _ shown) eqn:Eany.
    + apply existsb_filter_cons in Eany.
      apply Forall2_map_right. intros a. now apply score_point_scored.
    + apply Hdefault. now apply existsb_filter_nil.
  - apply Hdefault. destruct shown; [reflexivity|].
    unfold len in Hlen. simpl length in Hlen. lia.
Qed.

Section WithSetup.

Variable cfg : setup.

(** C6, as amended.  With a non-empty reference track, a tick returns a
    frame, and the error of every shown live point is decided among the
    reference points that are themselves shown (display position within the
    visible window) and lie at or before the "now" line, positions being
    timestamps less the clock's reading, plus the output latency for the
    reference: with no such point the error is the penalty 3; otherwise
    there is one nearest in time, and the error is the note distance to it
    when the time gap is strictly below 0.2 s, and 3 when it is not. *)
Theorem scorer_uses_shown_past_points (now : Q) (g : globals) :
  audio_times cfg <> [] ->
  exists shown f,
    background cfg (get_elapsed_playing_time now g) = Some shown /\
    shown = filter (fun p => Qle_bool (- PAST_DURATION) (fst p)
                             && Qle_bool (fst p) FUTURE_DURATION)
                   (reference_points cfg (get_elapsed_playing_time now g)) /\
    snd (update cfg now g) = Return f /\
    bg f = shown /\
    Forall2 (scored (filter (fun p => Qle_bool (fst p) 0) shown))
            (live f) (errors f).
Proof.
  intros Hne.
  assert (Hbg : exists shown,
             background cfg (get_elapsed_playing_time now g) = Some shown /\
             shown = filter (fun p => Qle_bool (- PAST_DURATION) (fst p)
                                      && Qle_bool (fst p) FUTURE_DURATION)
                            (reference_points cfg (get_elapsed_playing_time now g))).
  { unfold background, reference_points.
    destruct (audio_times cfg); [congruence|]. eexists. split; reflexivity. }
  destruct Hbg as (shown & Hshown & Hfilter).
  unfold update. rewrite Hshown.
  destruct (prune _ _ _) as [ts ns].
  destruct ts as [|t ts].
  - exists shown. eexists. simpl. repeat split; try assumption. constructor.
  - exists shown. eexists. simpl snd.
    split; [reflexivity|]. split; [exact Hfilter|]. split; [reflexivity|].
    split; [reflexivity|]. simpl. apply score_scored.
Qed.

End WithSetup.

(** A live point right on a candidate's time is scored by the note distance
    to a candidate at that very time. *)
Lemma scored_zero_gap (past : list (Q * Q)) (p : Q * Q) (e : Q) (r0 : Q * Q) :
  scored past p e ->
  In r0 past -> fst r0 == fst p ->
  exists r, In r past /\ fst r == fst p /\ e = Qabs (snd p - snd r).
Proof.
  unfold scored. destruct past as [|q past]; [intros _ []|].
  intros (r & Hin & Hmin & Hnear & _) Hr0 Hgap.
  exists r. split; [exact Hin|].
  pose proof (Hmin r0 Hr0) as Hle.
  assert (H0 : Qabs (fst r0 - fst p) == 0).
  { setoid_replace (fst r0 - fst p) with 0 by lra. reflexivity. }
  pose proof (Qabs_nonneg (fst r - fst p)) as Hpos.
  assert (Hz : Qabs (fst r - fst p) == 0) by lra.
  split.
  - assert (Hb : Qabs (fst r - fst p) <= 0) by lra.
    apply Qabs_Qle_condition in Hb. lra.
  - apply Hnear. lra.
Qed.

Lemma scorer_uses_shown_past_points_witness :
  audio_times Samples.three_references <> [] /\
  exists shown f,
    snd (update Samples.three_references 0 Samples.three_sung_at_ten)
    = Return f /\
    bg f = shown /\
    shown = [(-3, 60); (-1, 64); (2, 67)] /\
    live f = [(-3, 62); (-2, 62); (-9 # 10, 65)] /\
    errors f = [2; 3; 1] /\
    Forall2 (scored (filter (fun p => Qle_bool (fst p) 0) shown))
            (live f) (errors f).
Proof.
  split; [discriminate|].
  destruct (scorer_uses_shown_past_points Samples.three_references 0
              Samples.three_sung_at_ten)
    as (shown & f & _ & Hfilter & Hret & Hbg & Hscored);
    [discriminate|].
  exists shown, f.
  split; [exact Hret|]. split; [exact Hbg|].
  split; [rewrite Hfilter; vm_compute; reflexivity|].
  vm_compute in Hret. injection Hret as Hf. rewrite <- Hf in Hscored |- *.
  split; [reflexivity|]. split; [reflexivity|]. exact Hscored.
Defined.

(** C6, as stated, fails: paused at 10 s with a live point sung at 5 s and a
    reference point at 4.9 s, 0.1 s before it and before "now", the point is
    scored 3, not the note distance 2: the reference point lies left of the
    visible window and the scorer does not see it. *)
Lemma scorer_misses_reference_off_window :
  ~ (forall (cfg : setup) (now : Q) (g : globals) (f : frame),
        snd (update cfg now g) = Return f ->
        Forall2 Qeq (errors f)
          (map (spec_error
                  (reference_points cfg (get_elapsed_playing_time now g)) 0)
               (live f))).
Proof.
  intros H.
  pose proof (H Samples.three_minutes 0 Samples.paused_at_ten) as H'.
  vm_compute in H'. specialize (H' _ eq_refl).
  vm_compute in H'. inversion H' as [|e e' es es' Hq _]; subst.
  discriminate Hq.
Qed.

(** Without a reference track, a tick that has a live point to draw raises
    instead of scoring it with the penalty: [bg_x] was never bound. *)
Example tick_without_reference_raises :
  snd (update Samples.no_reference 0 Samples.paused_at_ten)
  = Raise UnboundLocalError.
Proof. reflexivity. Qed.

End ScorerFacts.

(** ** More on the pitch detector *)

Module DetectorProps.

Import PitchDetector PitchDetectorFacts DetectorSearch.

Lemma remove_dc_length (s : list Q) : length (remove_dc s) = length s.
Proof. unfold remove_dc. apply length_map. Qed.

(** On a non-empty chunk, [detect_pitch] is the search over [corr]. *)
Lemma detect_pitch_search (signal : list Q) (sample_rate : Z) :
  signal <> [] ->
  detect_pitch signal sample_rate
  = Return (search_band (corr_of signal) sample_rate).
Proof.
  intros Hne. unfold detect_pitch.
  destruct (np_correlate_full (remove_dc signal)) as [full|e] eqn:Hfull; simpl.
  - rewrite (nonnegative_lags _ _ Hfull), remove_dc_length.
    fold (corr_of signal). unfold search_band.
    destruct (_ >=? _)%Z; [reflexivity|].
    destruct (Qlt_bool _ _); reflexivity.
  - unfold np_correlate_full in Hfull.
    destruct (remove_dc signal) eqn:E; [|discriminate].
    destruct signal; [congruence | discriminate].
Qed.

Lemma corr_of_length (s : list Q) : length (corr_of s) = length s.
Proof. unfold corr_of. now rewrite length_map, length_seq. Qed.

Lemma corr_of_nth (s : list Q) (k : nat) :
  (k < length s)%nat -> nth k (corr_of s) 0 = autocorr s k.
Proof.
  intros Hk. unfold corr_of.
  rewrite (nth_indep _ 0 (autocorr s 0)) by (now rewrite length_map, length_seq).
  rewrite map_nth, seq_nth by exact Hk. reflexivity.
Qed.

Lemma min_lag_of_pos (sample_rate : Z) : (1 <= min_lag_of sample_rate)%Z.
Proof.
  rewrite min_lag_of_quot. destruct (Z.ltb_spec (Z.quot sample_rate 1000) 1); lia.
Qed.

Lemma max_lag_of_bounds (sample_rate : Z) (corr : list Q) :
  (max_lag_of sample_rate corr <= len corr)%Z /\
  (max_lag_of sample_rate corr <= Z.quot sample_rate 50)%Z.
Proof.
  unfold max_lag_of. change 50 with (inject_Z 50). rewrite py_int_ratio.
  destruct (Z.gtb_spec (Z.quot sample_rate 50) (len corr)); lia.
Qed.

Lemma max_lag_of_corr (sample_rate : Z) (s : list Q) :
  max_lag_of sample_rate (corr_of s)
  = if (Z.quot sample_rate 50 >? len s)%Z then (len s - 1)%Z
    else Z.quot sample_rate 50.
Proof.
  unfold max_lag_of, len. rewrite corr_of_length.
  change 50 with (inject_Z 50). now rewrite py_int_ratio.
Qed.

Lemma argmax_from_spec (l : list Q) :
  forall (bi : nat) (b : Q) (i : nat),
    (argmax_from bi b i l = bi /\ Forall (fun x => x <= b) l) \/
    ((i <= argmax_from bi b i l < i + length l)%nat /\
     b < nth (argmax_from bi b i l - i) l 0 /\
     Forall (fun x => x <= nth (argmax_from bi b i l - i) l 0) l /\
     forall k, (k < argmax_from bi b i l - i)%nat ->
               nth k l 0 < nth (argmax_from bi b i l - i) l 0).
Proof.
  induction l as [|x l IH]; intros bi b i; simpl.
  - left. auto.
  - destruct (Qlt_bool b x) eqn:E.
    + apply Qlt_bool_iff in E. right.
      destruct (IH i x (S i)) as [[Hj Hall]|(Hj & Hlt & Hall & Hfirst)].
      * rewrite Hj, Nat.sub_diag.
        split; [lia|]. split; [exact E|]. split.
        -- constructor; [lra | exact Hall].
        -- intros k Hk. lia.
      * set (j := argmax_from i x (S i) l) in *.
        replace (j - i)%nat with (S (j - S i)) by lia.
        split; [lia|]. split; [simpl; lra|]. split.
        -- constructor; [simpl; lra | exact Hall].
        -- intros [|k] Hk; simpl; [lra | apply Hfirst; lia].
    + apply Qlt_bool_false_iff in E.
      destruct (IH bi b (S i)) as [[Hj Hall]|(Hj & Hlt & Hall & Hfirst)].
      * left. split; [exact Hj|]. constructor; assumption.
      * right. set (j := argmax_from bi b (S i) l) in *.
        replace (j - i)%nat with (S (j - S i)) by lia.
        split; [lia|]. split; [exact Hlt|]. split.
        -- constructor; [simpl; lra | exact Hall].
        -- intros [|k] Hk; simpl; [lra | apply Hfirst; lia].
Qed.

(** [np.argmax] points at a largest entry, and at the first of them. *)
Lemma np_argmax_spec (l : list Q) :
  l <> [] ->
  (np_argmax l < length l)%nat /\
  (forall k, (k < length l)%nat -> nth k l 0 <= nth (np_argmax l) l 0) /\
  (forall k, (k < np_argmax l)%nat -> nth k l 0 < nth (np_argmax l) l 0).
Proof.
  destruct l as [|x l]; [congruence|]. intros _. simpl np_argmax.
  destruct (argmax_from_spec l 0 x 1) as [[Hj Hall]|(Hj & Hlt & Hall & Hfirst)].
  - rewrite Hj. simpl length. split; [lia|]. split.
    + intros [|k] Hk; simpl; [lra|].
      rewrite Forall_forall in Hall. apply Hall, nth_In. lia.
    + intros k Hk. lia.
  - set (j := argmax_from 0 x 1 l) in *. simpl length.
    destruct j as [|j]; [lia|].
    replace (S j - 1)%nat with j in * by lia.
    split; [lia|]. split.
    + intros [|k] Hk; simpl; [lra|].
      rewrite Forall_forall in Hall. apply Hall, nth_In. lia.
    + intros [|k] Hk; simpl; [lra | apply Hfirst; lia].
Qed.

Lemma slice_length {A : Type} (l : list A) (i j : Z) :
  (0 <= i <= j)%Z -> (j <= len l)%Z ->
  length (slice l i j) = Z.to_nat (j - i).
Proof.
  intros Hij Hj. unfold slice, len in *.
  rewrite length_firstn, length_skipn. lia.
Qed.

Lemma slice_nth (l : list Q) (i j : Z) (k : nat) :
  (0 <= i)%Z -> (Z.of_nat k < j - i)%Z ->
  nth k (slice l i j) 0 = nth (Z.to_nat i + k) l 0.
Proof.
  intros Hi Hk. unfold slice.
  rewrite nth_firstn.
  destruct (Nat.ltb_spec k (Z.to_nat (j - i))); [|lia].
  apply nth_skipn.
Qed.

(** The search answers 0 or the sample rate over the winning lag; in the
    second case the band is not empty and the rate is positive. *)
Lemma search_band_result (corr : list Q) (sample_rate : Z) :
  search_band corr sample_rate = 0 \/
  exists lag : nat,
    (min_lag_of sample_rate <= Z.of_nat lag < max_lag_of sample_rate corr)%Z /\
    lag = (Z.to_nat (min_lag_of sample_rate)
           + np_argmax (slice corr (min_lag_of sample_rate)
                          (max_lag_of sample_rate corr)))%nat /\
    (1 # 10) * nth 0 corr 0 <= nth lag corr 0 /\
    (0 < sample_rate)%Z /\
    search_band corr sample_rate = inject_Z sample_rate / inject_Z (Z.of_nat lag).
Proof.
  unfold search_band.
  pose proof (min_lag_of_pos sample_rate) as Hmin.
  destruct (max_lag_of_bounds sample_rate corr) as [Hmax Hq].
  set (lo := min_lag_of sample_rate) in *.
  set (hi := max_lag_of sample_rate corr) in *.
  destruct (Z.geb_spec lo hi) as [Hge|Hlt]; [now left|].
  set (sl := slice corr lo hi).
  assert (Hsl : length sl = Z.to_nat (hi - lo)) by (apply slice_length; lia).
  assert (Hne : sl <> []).
  { intros E. rewrite E in Hsl. simpl in Hsl. lia. }
  destruct (np_argmax_spec sl Hne) as (Hidx & _ & _).
  replace (Z.to_nat (Z.of_nat (np_argmax sl) + lo))
    with (Z.to_nat lo + np_argmax sl)%nat by lia.
  destruct (Qlt_bool _ _) eqn:E; [now left|]. right.
  apply Qlt_bool_false_iff in E.
  exists (Z.to_nat lo + np_argmax sl)%nat.
  split; [lia|]. split; [reflexivity|]. split; [exact E|]. split.
  - destruct (Z_lt_le_dec 0 sample_rate) as [|Hneg]; [assumption|].
    assert (Z.quot sample_rate 50 <= 0)%Z by (apply Z.quot_le_upper_bound; lia).
    lia.
  - f_equal. f_equal. lia.
Qed.

(** X1.  [detect_pitch] raises exactly on the empty chunk, where
    [np.correlate] refuses its argument; on every other chunk, and for every
    sample rate, it returns a frequency that is not negative. *)
Theorem detector_raises_only_on_empty (sample_rate : Z) :
  detect_pitch [] sample_rate = Raise ValueError /\
  forall (x : Q) (signal : list Q),
    exists f, detect_pitch (x :: signal) sample_rate = Return f /\ 0 <= f.
Proof.
  split; [reflexivity|]. intros x signal.
  rewrite detect_pitch_search by discriminate.
  eexists. split; [reflexivity|].
  destruct (search_band_result (corr_of (x :: signal)) sample_rate)
    as [-> | (lag & Hband & _ & _ & Hsr & ->)]; [lra|].
  pose proof (min_lag_of_pos sample_rate).
  destruct lag as [|lag]; [lia|].
  unfold Qle, Qdiv, Qmult, Qinv, inject_Z. simpl. lia.
Qed.

(** A non-empty chunk gets an answer. *)
Lemma detector_cases (x : Q) (signal : list Q) (sample_rate : Z) :
  exists f, detect_pitch (x :: signal) sample_rate = Return f.
Proof.
  rewrite detect_pitch_search by discriminate. eauto.
Qed.

(** A result other than 0 lies strictly between 50 Hz and 2000 Hz. *)
Lemma nonzero_result_in_band (signal : list Q) (sample_rate : Z) (f : Q) :
  detect_pitch signal sample_rate = Return f ->
  ~ f == 0 ->
  50 < f /\ f < 2000.
Proof.
  intros Hret Hnz.
  destruct signal as [|x signal]; [discriminate|].
  rewrite detect_pitch_search in Hret by discriminate.
  injection Hret as <-.
  destruct (search_band_result (corr_of (x :: signal)) sample_rate)
    as [E | (lag & Hband & _ & _ & Hsr & E)]; rewrite E in *.
  { exfalso. apply Hnz. reflexivity. }
  destruct (max_lag_of_bounds sample_rate (corr_of (x :: signal))) as [_ Hq].
  rewrite min_lag_of_quot in Hband.
  assert (H50 : (Z.quot sample_rate 50 * 50 <= sample_rate)%Z).
  { rewrite Z.quot_div_nonneg by lia.
    pose proof (Z.mod_pos_bound sample_rate 50).
    pose proof (Z.div_mod sample_rate 50). lia. }
  assert (H1000 : (sample_rate < (Z.quot sample_rate 1000 + 1) * 1000)%Z).
  { rewrite Z.quot_div_nonneg by lia.
    pose proof (Z.mod_pos_bound sample_rate 1000).
    pose proof (Z.div_mod sample_rate 1000). lia. }
  assert (H0 : (0 <= Z.quot sample_rate 1000)%Z) by (apply Z.quot_pos; lia).
  assert (Hlag : (1 <= Z.of_nat lag)%Z /\ (Z.quot sample_rate 1000 <= Z.of_nat lag)%Z).
  { destruct (Z.ltb_spec (Z.quot sample_rate 1000) 1); lia. }
  destruct (Z.of_nat lag) as [|p|p] eqn:Ep; try lia.
  unfold Qlt, Qdiv, Qmult, Qinv, inject_Z. simpl. lia.
Qed.

(** X2.  Whatever the chunk and the sample rate, the caller's test
    [50 <= freq <= 2000] on the detector's answer only tells 0 from the
    rest: every answer other than 0 lies strictly between the two bounds, so
    neither bound ever rejects a detected frequency. *)
Theorem plausible_iff_detected (signal : list Q) (sample_rate : Z) (f : Q) :
  detect_pitch signal sample_rate = Return f ->
  (plausible f = true <-> ~ f == 0) /\
  (~ f == 0 -> 50 < f /\ f < 2000).
Proof.
  intros Hret. split; [|apply (nonzero_result_in_band signal sample_rate f Hret)].
  split.
  - unfold plausible. intros H Hz. apply andb_true_iff in H as [H _].
    apply Qle_bool_iff in H. lra.
  - intros Hnz.
    destruct (nonzero_result_in_band signal sample_rate f Hret Hnz) as [Hlo Hhi].
    unfold plausible. apply andb_true_iff.
    split; apply Qle_bool_iff; lra.
Qed.

(** X3.  A chunk with no more samples than the shortest lag searched, or
    any non-empty chunk at a sample rate below 100 Hz, leaves no lag to
    search and is reported unvoiced. *)
Theorem short_chunk_unvoiced (signal : list Q) (sample_rate : Z) :
  signal <> [] ->
  (len signal <= min_lag_of sample_rate)%Z \/ (sample_rate < 100)%Z ->
  detect_pitch signal sample_rate = Return 0.
Proof.
  intros Hne Hshort. rewrite detect_pitch_search by exact Hne. f_equal.
  destruct (search_band_result (corr_of signal) sample_rate)
    as [E | (lag & Hband & _ & _ & Hsr & _)]; [exact E|].
  exfalso.
  pose proof (min_lag_of_pos sample_rate) as Hmin.
  rewrite max_lag_of_corr in Hband. unfold len in *.
  destruct Hshort as [Hlen|Hrate].
  - destruct (Z.gtb_spec (Z.quot sample_rate 50) (Z.of_nat (length signal))); lia.
  - assert (Z.quot sample_rate 50 < 2)%Z by (apply Z.quot_lt_upper_bound; lia).
    destruct (Z.gtb_spec (Z.quot sample_rate 50) (Z.of_nat (length signal))); lia.
Qed.

(** X4.  A frequency other than 0 is the sample rate over a lag of the
    band [min_lag, max_lag) at which the autocorrelation of the chunk, mean
    removed, is at least a tenth of its value at lag 0 and largest over the
    band; among equal maxima the shortest lag, hence the highest frequency,
    is the one returned. *)
Theorem detected_lag_is_band_maximum (signal : list Q) (sample_rate : Z) (f : Q) :
  detect_pitch signal sample_rate = Return f ->
  ~ f == 0 ->
  let lo := min_lag_of sample_rate in
  let hi := max_lag_of sample_rate (corr_of signal) in
  exists lag : nat,
    (lo <= Z.of_nat lag < hi)%Z /\
    f = inject_Z sample_rate / inject_Z (Z.of_nat lag) /\
    (1 # 10) * autocorr signal 0 <= autocorr signal lag /\
    (forall k : nat, (lo <= Z.of_nat k < hi)%Z ->
                     autocorr signal k <= autocorr signal lag) /\
    (forall k : nat, (lo <= Z.of_nat k < Z.of_nat lag)%Z ->
                     autocorr signal k < autocorr signal lag).
Proof.
  intros Hret Hnz lo hi.
  destruct signal as [|x signal']; [discriminate|].
  set (signal := x :: signal') in *.
  rewrite detect_pitch_search in Hret by discriminate.
  injection Hret as <-.
  destruct (search_band_result (corr_of signal) sample_rate)
    as [E | (lag & Hband & Hlag & Hconf & Hsr & E)].
  { exfalso. apply Hnz. rewrite E. reflexivity. }
  fold lo hi in Hband, Hlag.
  pose proof (min_lag_of_pos sample_rate) as Hmin. fold lo in Hmin.
  destruct (max_lag_of_bounds sample_rate (corr_of signal)) as [Hmax _].
  fold hi in Hmax. unfold len in Hmax. rewrite corr_of_length in Hmax.
  set (sl := slice (corr_of signal) lo hi) in *.
  assert (Hsl : length sl = Z.to_nat (hi - lo)).
  { apply slice_length; [lia|]. unfold len. rewrite corr_of_length. lia. }
  assert (Hne : sl <> []).
  { intros E'. rewrite E' in Hsl. simpl in Hsl. lia. }
  destruct (np_argmax_spec sl Hne) as (Hidx & Hbest & Hfirst).
  assert (Hat : forall k : nat, (lo <= Z.of_nat k < hi)%Z ->
                  nth (k - Z.to_nat lo) sl 0 = autocorr signal k).
  { intros k Hk. unfold sl. rewrite slice_nth by lia.
    replace (Z.to_nat lo + (k - Z.to_nat lo))%nat with k by lia.
    apply corr_of_nth. lia. }
  assert (Hpeak : nth (np_argmax sl) sl 0 = autocorr signal lag).
  { rewrite <- (Hat lag Hband). f_equal. lia. }
  exists lag. split; [exact Hband|]. split; [exact E|].
  split.
  { rewrite (corr_of_nth signal lag) in Hconf by lia.
    rewrite (corr_of_nth signal 0) in Hconf by (unfold signal; simpl; lia).
    exact Hconf. }
  split.
  - intros k Hk. rewrite <- Hpeak, <- (Hat k Hk). apply Hbest. lia.
  - intros k Hk. rewrite <- Hpeak, <- (Hat k) by lia. apply Hfirst. lia.
Qed.

(** *** The energy gate *)

Lemma np_sum_lower (m : Q) (l : list Q) :
  Forall (fun x => m <= x) l -> inject_Z (len l) * m <= np_sum l.
Proof.
  unfold len. induction 1 as [|x l Hx _ IH].
  - simpl. change (inject_Z 0) with 0. lra.
  - assert (E : inject_Z (Z.of_nat (length (x :: l)))
                 == inject_Z (Z.of_nat (length l)) + 1).
    { simpl length. rewrite Nat2Z.inj_succ. unfold Z.succ.
      now rewrite inject_Z_plus. }
    change (np_sum (x :: l)) with (x + np_sum l). rewrite E. lra.
Qed.

Lemma np_sum_upper_strict (m : Q) (l : list Q) :
  l <> [] -> Forall (fun x => x < m) l -> np_sum l < inject_Z (len l) * m.
Proof.
  unfold len. intros Hne H. induction H as [|x l Hx Hl IH]; [congruence|].
  assert (E : inject_Z (Z.of_nat (length (x :: l)))
               == inject_Z (Z.of_nat (length l)) + 1).
  { simpl length. rewrite Nat2Z.inj_succ. unfold Z.succ.
    now rewrite inject_Z_plus. }
  change (np_sum (x :: l)) with (x + np_sum l). rewrite E.
  destruct l as [|y l].
  - simpl. change (inject_Z 0) with 0. lra.
  - assert (np_sum (y :: l) < inject_Z (Z.of_nat (length (y :: l))) * m)
      by (apply IH; discriminate).
    lra.
Qed.

Lemma len_positive (s : list Q) : s <> [] -> 0 < inject_Z (len s).
Proof.
  intros Hne. unfold len, Qlt. simpl.
  destruct s; [congruence | simpl length; lia].
Qed.

Lemma square_abs (x : Q) : x * x == Qabs x * Qabs x.
Proof.
  apply (Qabs_case x (fun y => x * x == y * y)); intros _; ring.
Qed.

(** A chunk whose samples all stay below the threshold is held back. *)
Lemma quiet_chunk_gated (samples : list Q) (threshold : Q) :
  samples <> [] ->
  Forall (fun x => Qabs x < threshold) samples ->
  rms_below samples threshold = true.
Proof.
  intros Hne Hquiet.
  assert (Hlen : 0 < inject_Z (len (map (fun x => x * x) samples))).
  { apply len_positive. destruct samples; [congruence | discriminate]. }
  assert (Hth : 0 < threshold).
  { destruct samples as [|x samples]; [congruence|].
    inversion Hquiet as [|? ? Hx _]; subst.
    pose proof (Qabs_nonneg x). lra. }
  destruct samples as [|x0 s0] eqn:Es; [congruence|]. rewrite <- Es in *.
  replace (rms_below samples threshold)
    with (Qlt_bool 0 threshold
          && Qlt_bool (np_mean (map (fun x => x * x) samples))
                      (threshold * threshold))
    by (rewrite Es; reflexivity).
  apply andb_true_iff. split; [now apply Qlt_bool_iff|].
  apply Qlt_bool_iff. unfold np_mean.
  apply Qlt_shift_div_r; [exact Hlen|].
  rewrite Qmult_comm. apply np_sum_upper_strict.
  - rewrite Es. discriminate.
  - rewrite Forall_map. revert Hquiet. apply Forall_impl. intros x Hx.
    rewrite (square_abs x). pose proof (Qabs_nonneg x). nra.
Qed.

(** X7.  The energy gate [rms < threshold].  A threshold that is not
    positive lets every chunk through.  For a positive one, a chunk whose
    samples are all below the threshold in magnitude (the all-zero chunk
    among them) is held back, and a chunk whose samples all reach it is let
    through. *)
Theorem energy_gate_by_sample (samples : list Q) (threshold : Q) :
  samples <> [] ->
  (threshold <= 0 -> rms_below samples threshold = false) /\
  (Forall (fun x => Qabs x < threshold) samples ->
   rms_below samples threshold = true) /\
  (Forall (fun x => threshold <= Qabs x) samples ->
   rms_below samples threshold = false).
Proof.
  intros Hne.
  split; [|split; [now apply quiet_chunk_gated|]].
  - intros Hth. destruct samples; [congruence|]. unfold rms_below.
    replace (Qlt_bool 0 threshold) with false; [reflexivity|].
    symmetry. now apply Qlt_bool_false_iff.
  - intros Hloud.
    assert (Hlen : 0 < inject_Z (len (map (fun x => x * x) samples))).
    { apply len_positive. destruct samples; [congruence | discriminate]. }
    destruct samples as [|x0 s0] eqn:Es; [congruence|]. rewrite <- Es in *.
    replace (rms_below samples threshold)
      with (Qlt_bool 0 threshold
            && Qlt_bool (np_mean (map (fun x => x * x) samples))
                        (threshold * threshold))
      by (rewrite Es; reflexivity).
    destruct (Qlt_le_dec 0 threshold) as [Hth|Hth].
    2:{ replace (Qlt_bool 0 threshold) with false; [reflexivity|].
        symmetry. now apply Qlt_bool_false_iff. }
    apply andb_false_iff. right. apply Qlt_bool_false_iff. unfold np_mean.
    apply Qle_shift_div_l; [exact Hlen|].
    rewrite Qmult_comm. apply np_sum_lower.
    rewrite Forall_map. revert Hloud. apply Forall_impl. intros x Hx.
    rewrite (square_abs x). nra.
Qed.

Lemma plausible_iff_detected_witness :
  detect_pitch Samples.square_chunk 1000 = Return (1000 # 4) /\
  (plausible (1000 # 4) = true <-> ~ (1000 # 4) == 0).
Proof.
  split; [reflexivity|].
  apply (plausible_iff_detected Samples.square_chunk 1000 (1000 # 4)).
  reflexivity.
Defined.

Lemma short_chunk_unvoiced_witness :
  [1; -1; 1] <> [] /\
  detect_pitch [1; -1; 1] 44100 = Return 0.
Proof.
  split; [discriminate|].
  apply short_chunk_unvoiced; [discriminate|].
  left. vm_compute. discriminate.
Defined.

Lemma detected_lag_is_band_maximum_witness :
  detect_pitch Samples.square_chunk 1000 = Return (1000 # 4) /\
  exists lag : nat,
    (1000 # 4) = inject_Z 1000 / inject_Z (Z.of_nat lag) /\
    (1 # 10) * autocorr Samples.square_chunk 0 <= autocorr Samples.square_chunk lag.
Proof.
  split; [reflexivity|].
  destruct (detected_lag_is_band_maximum Samples.square_chunk 1000 (1000 # 4)
              eq_refl) as (lag & _ & Hf & Hconf & _); [discriminate|].
  exists lag. split; assumption.
Defined.

Lemma energy_gate_by_sample_witness :
  Samples.square_chunk <> [] /\
  rms_below Samples.square_chunk (75 # 10000) = false /\
  rms_below (map (fun x => (1 # 1000) * x) Samples.square_chunk) (75 # 10000)
  = true.
Proof.
  split; [discriminate|]. split.
  - apply (energy_gate_by_sample Samples.square_chunk (75 # 10000));
      [discriminate|].
    repeat constructor; vm_compute; discriminate.
  - apply (energy_gate_by_sample
             (map (fun x => (1 # 1000) * x) Samples.square_chunk) (75 # 10000));
      [discriminate|].
    repeat constructor; vm_compute; reflexivity.
Defined.

End DetectorProps.

(** ** More on the reference builder *)

Module ReferenceProps.

Import PitchDetector ReferenceTrack PitchDetectorFacts ReferenceTrackFacts.

Section WithLog2.

Variable log2 : Q -> Q.

Local Abbreviation process_audio_file := (ReferenceTrack.process_audio_file log2).
Local Abbreviation hop_loop := (ReferenceTrack.hop_loop log2).
Local Abbreviation hop_body := (ReferenceTrack.hop_body log2).
Local Abbreviation hop_event := (ReferenceTrack.hop_event log2).

Local Abbreviation events_of := (ReferenceEvents.events_of log2).

(** With a rate other than 0 the loop returns the events of its hops. *)
Lemma process_returns_events (w : wav) (hop_size : Z) (th : Q) (data : list Q) :
  normalize (wav_dtype w) (first_channel (wav_data w)) = Some data ->
  wav_rate w <> 0%Z ->
  process_audio_file (Return w) hop_size th
  = Return (map fst (events_of data (file_hop_size_of hop_size (wav_rate w))
                       (wav_rate w) th),
            map snd (events_of data (file_hop_size_of hop_size (wav_rate w))
                       (wav_rate w) th)).
Proof.
  intros Hnorm Hrate. unfold ReferenceTrack.process_audio_file. rewrite Hnorm.
  set (rate := wav_rate w) in *.
  set (h := file_hop_size_of hop_size rate).
  rewrite py_range0_seq.
  destruct (hop_loop_seq log2 data h rate th
              (length (py_range0 (len data - h) h)) Hrate 0
              {| start_time := 0; times := []; notes := [] |})
    as (b & Hb & _ & Ht & Hn).
  - intros k Hk. apply hop_chunk_nonempty. lia.
  - reflexivity.
  - rewrite Hb. simpl. unfold ReferenceEvents.events_of. now rewrite Ht, Hn.
Qed.

Lemma file_hop_size_zero_rate (hop_size : Z) : file_hop_size_of hop_size 0 = 1%Z.
Proof.
  unfold file_hop_size_of, py_int.
  replace (Qnum (inject_Z hop_size / inject_Z SAMPLE_RATE * inject_Z 0)) with 0%Z.
  - reflexivity.
  - unfold Qdiv, Qmult, inject_Z. simpl. lia.
Qed.

(** At rate 0 the first hop divides by the rate, gated out or not. *)
Lemma hop_body_zero_rate (data : list Q) (h : Z) (th : Q) (b : builder) (i : Z) :
  slice data i (i + h) <> [] ->
  hop_body data h 0 th b i = Raise ZeroDivisionError.
Proof.
  intros Hne. unfold ReferenceTrack.hop_body.
  destruct (rms_below _ _); [reflexivity|].
  destruct (detect_pitch_total _ 0%Z Hne) as [f ->]. reflexivity.
Qed.

(** X8.  When [process_audio_file] raises.  A file that cannot be read or
    whose sample format is not handled never makes it raise.  With a handled
    format it raises only when the file's rate is 0, and then exactly when
    the data have at least two samples, so that a first hop is entered: the
    exception is the [ZeroDivisionError] of [file_hop_size / rate]. *)
Theorem reference_builder_raises_only_at_zero_rate
    (read : outcome wav) (hop_size : Z) (th : Q) :
  (forall e, process_audio_file read hop_size th = Raise e ->
     e = ZeroDivisionError /\
     exists w data,
       read = Return w /\
       normalize (wav_dtype w) (first_channel (wav_data w)) = Some data /\
       wav_rate w = 0%Z /\ (2 <= len data)%Z) /\
  (forall w data,
     read = Return w ->
     normalize (wav_dtype w) (first_channel (wav_data w)) = Some data ->
     wav_rate w = 0%Z ->
     if (2 <=? len data)%Z
     then process_audio_file read hop_size th = Raise ZeroDivisionError
     else process_audio_file read hop_size th = Return ([], [])).
Proof.
  assert (Hzero : forall w data,
     normalize (wav_dtype w) (first_channel (wav_data w)) = Some data ->
     wav_rate w = 0%Z ->
     if (2 <=? len data)%Z
     then process_audio_file (Return w) hop_size th = Raise ZeroDivisionError
     else process_audio_file (Return w) hop_size th = Return ([], [])).
  { intros w data Hnorm Hrate.
    unfold ReferenceTrack.process_audio_file. rewrite Hnorm, Hrate.
    rewrite file_hop_size_zero_rate. unfold py_range0. simpl (1 <=? 0)%Z.
    cbv iota.
    replace ((len data - 1 + 1 - 1) / 1)%Z with (len data - 1)%Z
      by (rewrite Z.div_1_r; lia).
    destruct (Z.leb_spec 2 (len data)) as [Hlen|Hlen].
    - destruct (Z.to_nat (len data - 1)) as [|n] eqn:En; [lia|].
      simpl. rewrite hop_body_zero_rate; [reflexivity|].
      unfold slice, len in *. simpl.
      destruct data as [|x data]; [simpl in Hlen; lia | discriminate].
    - replace (Z.to_nat (len data - 1)) with 0%nat by lia. reflexivity. }
  split.
  - intros e He. destruct read as [w|e0]; [|discriminate].
    destruct (normalize (wav_dtype w) (first_channel (wav_data w)))
      as [data|] eqn:Hnorm.
    2:{ unfold ReferenceTrack.process_audio_file in He. rewrite Hnorm in He.
        discriminate. }
    destruct (Z.eq_dec (wav_rate w) 0) as [Hrate|Hrate].
    + specialize (Hzero w data Hnorm Hrate).
      destruct (Z.leb_spec 2 (len data)) as [Hlen|Hlen].
      * rewrite Hzero in He. injection He as <-.
        split; [reflexivity|]. exists w, data. auto.
      * rewrite Hzero in He. discriminate.
    + rewrite (process_returns_events w hop_size th data Hnorm Hrate) in He.
      discriminate.
  - intros w data -> Hnorm Hrate. now apply Hzero.
Qed.

Lemma hop_event_short (data : list Q) (h rate : Z) (th : Q) (k : nat) :
  hop_event data h rate th k = [] \/
  exists note, hop_event data h rate th k = [(hop_time h rate k, note)].
Proof.
  unfold ReferenceTrack.hop_event. destruct (rms_below _ _); [now left|].
  destruct (detect_pitch _ _) as [f|]; [|now left].
  destruct (plausible f); [right; eauto | now left].
Qed.

Lemma events_count (data : list Q) (h rate : Z) (th : Q) (m n : nat) :
  (length (flat_map (hop_event data h rate th) (seq m n)) <= n)%nat.
Proof.
  revert m. induction n as [|n IH]; intros m; simpl; [lia|].
  rewrite length_app. specialize (IH (S m)).
  destruct (hop_event_short data h rate th m) as [-> | [note ->]]; simpl; lia.
Qed.

(** How many hops the loop visits: they all fit before the last sample. *)
Lemma hop_count_bounds (data : list Q) (h : Z) :
  (0 < h)%Z -> (h < len data)%Z ->
  let n := Z.of_nat (length (py_range0 (len data - h) h)) in
  (1 <= n)%Z /\ (n * h < len data)%Z /\ (len data <= (n + 1) * h)%Z.
Proof.
  intros Hh Hlen. unfold py_range0.
  destruct (Z.leb_spec h 0); [lia|].
  rewrite length_map, length_seq. cbv zeta.
  replace (len data - h + h - 1)%Z with (len data - 1)%Z by lia.
  pose proof (Z.div_mod (len data - 1) h).
  pose proof (Z.mod_pos_bound (len data - 1) h).
  assert (1 <= (len data - 1) / h)%Z by (apply Z.div_le_lower_bound; lia).
  rewrite Z2Nat.id by lia. nia.
Qed.

(** X9.  The shape of the reference track.  For a handled format and a rate
    other than 0 the two lists returned have the same length, with at most
    one event per hop visited; a file of no more samples than one hop visits
    no hop and gives nothing; a longer one visits [n] hops with
    [n * hop < len(data) <= (n + 1) * hop]. *)
Theorem reference_track_shape (w : wav) (hop_size : Z) (th : Q) (data : list Q) :
  normalize (wav_dtype w) (first_channel (wav_data w)) = Some data ->
  wav_rate w <> 0%Z ->
  let h := file_hop_size_of hop_size (wav_rate w) in
  let n := length (py_range0 (len data - h) h) in
  exists ts ns,
    process_audio_file (Return w) hop_size th = Return (ts, ns) /\
    length ts = length ns /\
    (length ts <= n)%nat /\
    ((len data <= h)%Z -> n = 0%nat /\ ts = []) /\
    ((0 < h)%Z -> (h < len data)%Z ->
     (Z.of_nat n * h < len data)%Z /\ (len data <= (Z.of_nat n + 1) * h)%Z).
Proof.
  intros Hnorm Hrate h n.
  rewrite (process_returns_events w hop_size th data Hnorm Hrate).
  fold h. eexists. eexists. split; [reflexivity|].
  split; [now rewrite !length_map|].
  split.
  { rewrite length_map. unfold ReferenceEvents.events_of. apply events_count. }
  split.
  - intros Hshort.
    assert (Hn : n = 0%nat).
    { unfold n, py_range0. destruct (Z.leb_spec h 0); [reflexivity|].
      rewrite length_map, length_seq.
      replace (len data - h + h - 1)%Z with (len data - 1)%Z by lia.
      assert ((len data - 1) / h <= 0)%Z.
      { apply Z.lt_succ_r. apply Z.div_lt_upper_bound; lia. }
      lia. }
    split; [exact Hn|]. unfold ReferenceEvents.events_of. fold n.
    rewrite Hn. reflexivity.
  - intros Hh Hlen. apply (hop_count_bounds data h Hh Hlen).
Qed.

Lemma hop_time_increasing (h rate : Z) (m k : nat) :
  0 < inject_Z h / inject_Z rate ->
  (m < k)%nat -> hop_time h rate m < hop_time h rate k.
Proof.
  intros Hstep Hmk. rewrite !hop_time_closed.
  assert (inject_Z (Z.of_nat m) < inject_Z (Z.of_nat k))
    by (rewrite <- Zlt_Qlt; lia).
  nra.
Qed.

Lemma events_stamps (data : list Q) (h rate : Z) (th : Q) (m n : nat) :
  Forall (fun e => exists k, (m <= k < m + n)%nat /\ fst e = hop_time h rate k)
         (flat_map (hop_event data h rate th) (seq m n)).
Proof.
  revert m. induction n as [|n IH]; intros m; simpl; [constructor|].
  apply Forall_app. split.
  - destruct (hop_event_short data h rate th m) as [-> | [note ->]];
      constructor; [|constructor].
    exists m. split; [lia | reflexivity].
  - specialize (IH (S m)). revert IH. apply Forall_impl.
    intros e (k & Hk & He). exists k. split; [lia | exact He].
Qed.

Lemma events_sorted (data : list Q) (h rate : Z) (th : Q) (m n : nat) :
  0 < inject_Z h / inject_Z rate ->
  StronglySorted Qlt (map fst (flat_map (hop_event data h rate th) (seq m n))).
Proof.
  intros Hstep. revert m. induction n as [|n IH]; intros m; simpl; [constructor|].
  destruct (hop_event_short data h rate th m) as [-> | [note ->]]; simpl.
  - apply IH.
  - constructor; [apply IH|].
    rewrite Forall_map.
    pose proof (events_stamps data h rate th (S m) n) as Hst.
    revert Hst. apply Forall_impl. intros e (k & Hk & ->).
    apply hop_time_increasing; [exact Hstep | lia].
Qed.

(** X10.  The reference track is in time order.  For a handled format and a
    positive rate the timestamps returned increase strictly, none is
    negative, and each lies before the start of the part of the file the
    loop leaves out: [t * rate < len(data) - hop]. *)
Theorem reference_times_increase (w : wav) (hop_size : Z) (th : Q) (data : list Q) :
  normalize (wav_dtype w) (first_channel (wav_data w)) = Some data ->
  (0 < wav_rate w)%Z ->
  let h := file_hop_size_of hop_size (wav_rate w) in
  exists ts ns,
    process_audio_file (Return w) hop_size th = Return (ts, ns) /\
    StronglySorted Qlt ts /\
    Forall (fun t => 0 <= t /\
                     t * inject_Z (wav_rate w) < inject_Z (len data - h)) ts.
Proof.
  intros Hnorm Hrate h.
  assert (Hrate' : wav_rate w <> 0%Z) by lia.
  rewrite (process_returns_events w hop_size th data Hnorm Hrate').
  fold h. eexists. eexists. split; [reflexivity|].
  unfold ReferenceEvents.events_of.
  set (n := length (py_range0 (len data - h) h)).
  assert (Hr : 0 < inject_Z (wav_rate w)) by (rewrite Zlt_Qlt in Hrate; exact Hrate).
  destruct (Z_lt_le_dec 0 h) as [Hh|Hh].
  2:{ assert (Hn : n = 0%nat).
      { unfold n, py_range0. destruct (Z.leb_spec h 0); [reflexivity | lia]. }
      rewrite Hn. simpl. split; constructor. }
  assert (Hh' : 0 < inject_Z h) by (rewrite Zlt_Qlt in Hh; exact Hh).
  assert (Hstep : 0 < inject_Z h / inject_Z (wav_rate w)).
  { apply Qlt_shift_div_l; lra. }
  split; [now apply events_sorted|].
  rewrite Forall_map.
  pose proof (events_stamps data h (wav_rate w) th 0 n) as Hst.
  revert Hst. apply Forall_impl. intros e (k & Hk & ->).
  rewrite hop_time_closed.
  assert (Hin : (Z.of_nat k * h < len data - h)%Z).
  { apply (py_range0_inside (len data - h) h k). fold n. lia. }
  assert (Hk0 : 0 <= inject_Z (Z.of_nat k)).
  { change (inject_Z 0 <= inject_Z (Z.of_nat k)). rewrite <- Zle_Qle. lia. }
  split.
  - apply Qmult_le_0_compat; lra.
  - rewrite Zlt_Qlt, inject_Z_mult in Hin.
    setoid_replace (inject_Z (Z.of_nat k) * (inject_Z h / inject_Z (wav_rate w))
                    * inject_Z (wav_rate w))
      with (inject_Z (Z.of_nat k) * inject_Z h) by (field; lra).
    exact Hin.
Qed.

Lemma slice_firstn (l : list Q) (i j : Z) (m : nat) :
  (0 <= i)%Z -> (Z.to_nat j <= m)%nat ->
  slice (firstn m l) i j = slice l i j.
Proof.
  intros Hi Hj. unfold slice.
  rewrite skipn_firstn_comm, firstn_firstn. f_equal. lia.
Qed.

Lemma hop_loop_agree (data data' : list Q) (h rate : Z) (th : Q) (starts : list Z) :
  Forall (fun i => slice data i (i + h) = slice data' i (i + h)) starts ->
  forall b, hop_loop data h rate th b starts = hop_loop data' h rate th b starts.
Proof.
  induction 1 as [|i starts Hi _ IH]; intros b; simpl; [reflexivity|].
  assert (E : hop_body data h rate th b i = hop_body data' h rate th b i).
  { unfold ReferenceTrack.hop_body. now rewrite Hi. }
  rewrite E. destruct (hop_body data' h rate th b i); simpl; [apply IH | reflexivity].
Qed.

(** X11.  The end of the file is not analysed.  The loop reads the first
    [n * hop] samples only, [n] being the number of hops it visits: two
    files of the same rate and length whose samples agree up to there give
    the same result (the same exception included), whatever follows, a
    complete last hop included. *)
Theorem reference_ignores_tail (w w' : wav) (hop_size : Z) (th : Q)
    (data data' : list Q) :
  normalize (wav_dtype w) (first_channel (wav_data w)) = Some data ->
  normalize (wav_dtype w') (first_channel (wav_data w')) = Some data' ->
  wav_rate w' = wav_rate w ->
  length data' = length data ->
  let h := file_hop_size_of hop_size (wav_rate w) in
  let n := length (py_range0 (len data - h) h) in
  firstn (n * Z.to_nat h) data' = firstn (n * Z.to_nat h) data ->
  process_audio_file (Return w') hop_size th
  = process_audio_file (Return w) hop_size th.
Proof.
  intros Hnorm Hnorm' Hrate Hlen h n Hagree.
  unfold ReferenceTrack.process_audio_file.
  rewrite Hnorm, Hnorm', Hrate. fold h.
  assert (Hl : len data' = len data) by (unfold len; now rewrite Hlen).
  rewrite Hl.
  rewrite (hop_loop_agree data' data h (wav_rate w) th); [reflexivity|].
  rewrite py_range0_seq. fold n. rewrite Forall_map, Forall_forall.
  intros k Hk. apply in_seq in Hk.
  assert (Hin : (0 < h)%Z /\ (Z.of_nat k * h < len data - h)%Z).
  { apply (py_range0_inside (len data - h) h k). fold n. lia. }
  rewrite <- (slice_firstn data' _ _ (n * Z.to_nat h)),
          <- (slice_firstn data _ _ (n * Z.to_nat h)), Hagree;
    [reflexivity | | | |]; nia.
Qed.

(** Of a file with several channels only the first is used. *)
Lemma reference_uses_first_channel (rate : Z) (dt : dtype)
    (rows : list (list Q)) (hop_size : Z) (th : Q) :
  process_audio_file
    (Return {| wav_rate := rate; wav_dtype := dt; wav_data := Frames rows |})
    hop_size th
  = process_audio_file
      (Return {| wav_rate := rate; wav_dtype := dt;
                 wav_data := Mono (map (fun row => hd 0 row) rows) |})
      hop_size th.
Proof.
  unfold ReferenceTrack.process_audio_file. simpl.
  replace (map (fun row => nth 0 row 0) rows) with (map (fun row => hd 0 row) rows);
    [reflexivity|].
  apply map_ext. intros [|x row]; reflexivity.
Qed.

End WithLog2.

Lemma reference_track_shape_witness :
  wav_rate Samples.pcm16_file <> 0%Z /\
  exists ts ns,
    process_audio_file Samples.log2_stub (Return Samples.pcm16_file) 441 (75 # 10000)
    = Return (ts, ns) /\
    length ts = length ns.
Proof.
  split; [discriminate|].
  destruct (reference_track_shape Samples.log2_stub Samples.pcm16_file 441
              (75 # 10000) (map (fun x => x / 32768) Samples.pcm16_samples)
              eq_refl) as (ts & ns & H1 & H2 & _); [discriminate|].
  exists ts, ns. split; assumption.
Defined.

Lemma reference_times_increase_witness :
  (0 < wav_rate Samples.pcm16_file)%Z /\
  exists ts ns,
    process_audio_file Samples.log2_stub (Return Samples.pcm16_file) 441 (75 # 10000)
    = Return (ts, ns) /\
    StronglySorted Qlt ts.
Proof.
  split; [reflexivity|].
  destruct (reference_times_increase Samples.log2_stub Samples.pcm16_file 441
              (75 # 10000) (map (fun x => x / 32768) Samples.pcm16_samples)
              eq_refl) as (ts & ns & H1 & H2 & _); [reflexivity|].
  exists ts, ns. split; assumption.
Defined.

Lemma reference_ignores_tail_witness :
  length (first_channel (wav_data MoreSamples.pcm16_other_tail))
  = length Samples.pcm16_samples /\
  process_audio_file Samples.log2_stub (Return MoreSamples.pcm16_other_tail)
    441 (75 # 10000)
  = process_audio_file Samples.log2_stub (Return Samples.pcm16_file)
      441 (75 # 10000).
Proof.
  split; [reflexivity|].
  apply (reference_ignores_tail Samples.log2_stub Samples.pcm16_file
           MoreSamples.pcm16_other_tail 441 (75 # 10000)
           (map (fun x => x / 32768) Samples.pcm16_samples)
           (map (fun x => x / 32768)
                (first_channel (wav_data MoreSamples.pcm16_other_tail)))).
  - reflexivity.
  - reflexivity.
  - reflexivity.
  - reflexivity.
  - vm_compute. reflexivity.
Defined.

End ReferenceProps.

(** ** More on the transport keys *)

Module TransportProps.

Import PitchDetector Session TransportFacts.

Section WithSetup.

Variable cfg : setup.
Variable log2 : Q -> Q.

Local Abbreviation step := (Session.step cfg log2).
Local Abbreviation run := (Session.run cfg log2).
Local Abbreviation reachable := (Session.reachable cfg log2).
Local Abbreviation on_key := (Session.on_key cfg).

(** X12.  The stop key, from any state: the transport is paused at 0 with a
    seek to 0 pending, and the live lists and the queue are empty.  Until a
    key is pressed the clock reads 0 at every wall time, whatever the other
    threads and the display do.  A second stop changes nothing. *)
Theorem stop_resets (w : world) (t1 t2 : Q) (meanwhile : list action) :
  Forall (fun a => is_key a = false) meanwhile ->
  let stopped := step (KeyPress KeyS t1 t2) w in
  is_playing (shared stopped) = false /\
  current_playback_time (shared stopped) = 0 /\
  seek_to (shared stopped) = Some 0 /\
  times (shared stopped) = [] /\ notes (shared stopped) = [] /\
  data_queue (shared stopped) = [] /\
  (forall t, get_elapsed_playing_time t (shared (run meanwhile stopped)) = 0) /\
  (forall t3 t4, on_key KeyS t3 t4 (shared stopped) = shared stopped).
Proof.
  intros Hmean stopped.
  assert (Hp : is_playing (shared stopped) = false).
  { unfold stopped. simpl.
    destruct (is_playing (shared w)) eqn:E; [reflexivity | exact E]. }
  assert (Hc : current_playback_time (shared stopped) = 0) by reflexivity.
  split; [exact Hp|]. split; [exact Hc|].
  split; [reflexivity|]. split; [reflexivity|]. split; [reflexivity|].
  split; [reflexivity|]. split.
  - intros t. destruct (run_keeps_transport cfg log2 meanwhile stopped Hmean)
      as (Hp' & Hc' & _).
    unfold get_elapsed_playing_time. now rewrite Hp', Hc', Hp, Hc.
  - intros t3 t4. unfold Session.on_key at 1. rewrite Hp.
    unfold stopped. simpl.
    destruct (is_playing (shared w)) eqn:E; simpl; rewrite ?E; reflexivity.
Qed.

(** X13.  Resuming and pausing again counts the time played, no more: from
    Paused, a press of the space bar at [t1] and the next at [t2] add
    exactly [t2 - t1] to the accumulated time, and in between the clock
    reads the old accumulated time plus the wall time elapsed since [t1]. *)
Theorem played_interval_counted (w : world) (t1 t1' t2 t2' : Q)
    (meanwhile : list action) :
  is_playing (shared w) = false ->
  Forall (fun a => is_key a = false) meanwhile ->
  let resumed := run meanwhile (step (KeyPress KeySpace t1 t1') w) in
  let paused := step (KeyPress KeySpace t2 t2') resumed in
  is_playing (shared resumed) = true /\
  (forall t, get_elapsed_playing_time t (shared resumed)
             = current_playback_time (shared w) + (t - t1)) /\
  is_playing (shared paused) = false /\
  current_playback_time (shared paused)
  = current_playback_time (shared w) + (t2 - t1).
Proof.
  intros Hp Hmean resumed paused.
  destruct (run_keeps_transport cfg log2 meanwhile
              (step (KeyPress KeySpace t1 t1') w) Hmean) as (Hr1 & Hr2 & Hr3).
  fold resumed in Hr1, Hr2, Hr3.
  simpl in Hr1, Hr2, Hr3. rewrite Hp in Hr1, Hr2, Hr3. simpl in Hr1, Hr2, Hr3.
  split; [exact Hr1|]. split.
  { intros t. unfold get_elapsed_playing_time. now rewrite Hr1, Hr2, Hr3. }
  unfold paused. simpl. rewrite Hr1. simpl. rewrite Hr2, Hr3. auto.
Qed.

(** X14.  While paused and away from the two ends of the track, the arrow
    keys undo each other: forward then back, with at least 2 s left before
    the end, and back then forward, with at least 2 s played and the
    position within the track, both return to the position held before. *)
Theorem paused_seeks_cancel (g : globals) (t1 t2 t3 t4 : Q) :
  is_playing g = false ->
  0 <= current_playback_time g ->
  (current_playback_time g + 2 <= audio_duration cfg ->
   current_playback_time (on_key KeyLeft t3 t4 (on_key KeyRight t1 t2 g))
   == current_playback_time g) /\
  (2 <= current_playback_time g ->
   current_playback_time g <= audio_duration cfg ->
   current_playback_time (on_key KeyRight t3 t4 (on_key KeyLeft t1 t2 g))
   == current_playback_time g).
Proof.
  intros Hp Hc. split.
  - intros Hroom. simpl. rewrite Hp. simpl.
    destruct (py_min_cases (current_playback_time g + 2) (audio_duration cfg))
      as [[-> _]|[-> Hlt]]; [|lra].
    destruct (py_max_cases 0 (current_playback_time g + 2 - 2))
      as [[-> Hle]|[-> _]]; lra.
  - intros Hplayed Hin. simpl. rewrite Hp. simpl.
    destruct (py_max_cases 0 (current_playback_time g - 2))
      as [[E Hle]|[E _]]; rewrite E;
      match goal with |- context [py_min ?a ?b] =>
        destruct (py_min_cases a b) as [[-> _]|[-> Hlt]] end; lra.
Qed.

(** After an arrow key handled while playing, the clock reads the stored
    target plus the wall time elapsed since the handler's second reading. *)
Lemma seek_keeps_rate (g : globals) (k : key) (t1 t2 : Q) :
  is_playing g = true ->
  k = KeyLeft \/ k = KeyRight ->
  let g' := on_key k t1 t2 g in
  is_playing g' = true /\
  seek_to g' = Some (current_playback_time g') /\
  (forall t, get_elapsed_playing_time t g'
             = current_playback_time g' + (t - t2)) /\
  current_playback_time g'
  = match k with
    | KeyLeft => py_max 0 (get_elapsed_playing_time t1 g - 2)
    | _ => py_min (get_elapsed_playing_time t1 g + 2) (audio_duration cfg)
    end.
Proof.
  intros Hp [-> | ->]; simpl; unfold get_elapsed_playing_time; simpl;
    rewrite Hp; repeat split.
Qed.

Lemma prune_lengths (cutoff : Q) (ts ns : list Q) :
  length ts = length ns ->
  length (fst (prune cutoff ts ns)) = length (snd (prune cutoff ts ns)).
Proof.
  revert ns. induction ts as [|t ts IH]; intros ns Hlen; simpl.
  - destruct ns; [reflexivity | discriminate].
  - destruct (Qlt_bool t cutoff); [|exact Hlen].
    apply IH. destruct ns; [discriminate | simpl in *; lia].
Qed.

Lemma update_lengths (now : Q) (g : globals) :
  length (times g) = length (notes g) ->
  length (times (fst (update cfg now g))) = length (notes (fst (update cfg now g))).
Proof.
  intros Hlen. unfold update.
  pose proof (prune_lengths
                (get_elapsed_playing_time now g - PAST_DURATION - 1)
                (times g ++ map fst (data_queue g))
                (notes g ++ map snd (data_queue g))) as H.
  destruct (prune _ _ _) as [ts ns]. simpl in H.
  assert (Hl : length ts = length ns).
  { apply H. rewrite !length_app, !length_map. lia. }
  destruct ts; [exact Hl|]. destruct (background _ _); exact Hl.
Qed.

(** X16.  Two things that hold in every state the session can reach, with
    a track duration that is not negative: the two live lists have the same
    length, so that [times.pop(0); notes.pop(0)] always finds its second
    element; and a pending seek target is never negative. *)
Theorem live_lists_aligned (w : world) :
  0 <= audio_duration cfg ->
  reachable w ->
  length (times (shared w)) = length (notes (shared w)) /\
  (forall x, seek_to (shared w) = Some x -> 0 <= x).
Proof.
  intros Hdur H. induction H as [t0|a w Hw [IH1 IH2] Ha].
  - simpl. split; [reflexivity | discriminate].
  - destruct (reachable_clock cfg log2 w Hdur Hw) as [Hcpt Hlrw].
    destruct a as [k t1 t2|now| |samples|now|]; simpl.
    + simpl in Ha. destruct k; simpl.
      * destruct (is_playing (shared w)); simpl; auto.
      * split; [reflexivity|]. intros x [= <-]. lra.
      * split; [reflexivity|]. intros x [= <-]. apply py_max_spec.
      * split; [reflexivity|]. intros x [= <-].
        match goal with |- context [py_min ?a ?b] =>
          destruct (py_min_cases a b) as [[-> _]|[-> _]] end;
          destruct (is_playing (shared w)); lra.
      * auto.
    + pose proof (update_lengths now (shared w) IH1) as Hl.
      destruct (update cfg now (shared w)) as [g f] eqn:E. simpl in *.
      split; [exact Hl|].
      assert (Hs : seek_to g = seek_to (shared w)).
      { unfold update in E. destruct (prune _ _ _) as [ts ns].
        destruct ts; [|destruct (background _ _)]; injection E as <- _;
          reflexivity. }
      rewrite Hs. exact IH2.
    + unfold play_audio_poll.
      destruct (seek_to (shared w)) eqn:E; simpl.
      * split; [exact IH1 | discriminate].
      * split; [exact IH1|]. rewrite E. discriminate.
    + destruct (capture w); simpl; auto.
    + destruct (capture w); simpl; auto.
    + destruct (capture w); simpl; auto.
Qed.

End WithSetup.

Lemma stop_resets_witness :
  Forall (fun a => is_key a = false) [Tick 12; PlaybackPoll] /\
  get_elapsed_playing_time 40
    (shared (Session.run Samples.three_minutes Samples.log2_stub
               [Tick 12; PlaybackPoll]
               (Session.step Samples.three_minutes Samples.log2_stub
                  (KeyPress KeyS 10 10) (start 0)))) = 0.
Proof.
  split; [repeat constructor|].
  apply (stop_resets Samples.three_minutes Samples.log2_stub (start 0) 10 10
           [Tick 12; PlaybackPoll]).
  repeat constructor.
Defined.

Lemma played_interval_counted_witness :
  is_playing Samples.paused_at_ten = false /\
  current_playback_time
    (shared (Session.step Samples.three_minutes Samples.log2_stub
               (KeyPress KeySpace 30 30)
               (Session.run Samples.three_minutes Samples.log2_stub [Tick 25]
                  (Session.step Samples.three_minutes Samples.log2_stub
                     (KeyPress KeySpace 20 20)
                     {| shared := Samples.paused_at_ten; capture := AwaitChunk;
                        wall := 15; drawn := [] |}))))
  = 10 + (30 - 20).
Proof.
  split; [reflexivity|].
  apply (played_interval_counted Samples.three_minutes Samples.log2_stub
           {| shared := Samples.paused_at_ten; capture := AwaitChunk;
              wall := 15; drawn := [] |} 20 20 30 30 [Tick 25]).
  - reflexivity.
  - repeat constructor.
Defined.

Lemma paused_seeks_cancel_witness :
  is_playing Samples.paused_at_ten = false /\
  current_playback_time
    (Session.on_key Samples.three_minutes KeyLeft 3 3
       (Session.on_key Samples.three_minutes KeyRight 1 1 Samples.paused_at_ten))
  == current_playback_time Samples.paused_at_ten.
Proof.
  split; [reflexivity|].
  assert (Hc : 0 <= current_playback_time Samples.paused_at_ten) by discriminate.
  destruct (paused_seeks_cancel Samples.three_minutes Samples.paused_at_ten
              1 1 3 3 eq_refl Hc) as [H _].
  apply H. discriminate.
Defined.

Lemma live_lists_aligned_witness :
  0 <= audio_duration Samples.three_minutes /\
  length (times (shared (Session.step Samples.three_minutes Samples.log2_stub
                           (KeyPress KeySpace 200 200) (start 0))))
  = length (notes (shared (Session.step Samples.three_minutes Samples.log2_stub
                             (KeyPress KeySpace 200 200) (start 0)))).
Proof.
  split; [discriminate|].
  apply (live_lists_aligned Samples.three_minutes Samples.log2_stub).
  - discriminate.
  - apply start_then_pause_reachable. discriminate.
Defined.

End TransportProps.

(** ** More on the display tick *)

Module TickProps.

Import Session.

Lemma prune_spec (cutoff : Q) (ts : list Q) :
  forall ns,
  exists k,
    prune cutoff ts ns = (skipn k ts, skipn k ns) /\
    Forall (fun t => t < cutoff) (firstn k ts) /\
    (forall t rest, skipn k ts = t :: rest -> cutoff <= t).
Proof.
  induction ts as [|t ts IH]; intros ns; simpl.
  - exists 0%nat. simpl. repeat split; [constructor | discriminate].
  - destruct (Qlt_bool t cutoff) eqn:E.
    + apply Qlt_bool_iff in E.
      destruct (IH (tl ns)) as (k & Hk & Hold & Hhead).
      exists (S k). simpl. split.
      * rewrite Hk. destruct ns; simpl; [now rewrite skipn_nil | reflexivity].
      * split; [constructor; assumption | exact Hhead].
    + apply Qlt_bool_false_iff in E.
      exists 0%nat. simpl. repeat split; [constructor|].
      intros t' rest [= <- _]. exact E.
Qed.

Lemma combine_map_fst {A B C : Type} (f : A -> C) (l : list A) (l' : list B) :
  combine (map f l) l' = map (fun p => (f (fst p), snd p)) (combine l l').
Proof.
  revert l'. induction l as [|a l IH]; intros [|b l']; simpl; try reflexivity.
  now rewrite IH.
Qed.

Lemma score_point_nonneg (past : list (Q * Q)) (p : Q * Q) :
  0 <= score_point past p.
Proof.
  unfold score_point. destruct (Qlt_bool _ _); [apply Qabs_nonneg | lra].
Qed.

Lemma score_shape (shown live_pts : list (Q * Q)) :
  length (score shown live_pts) = length live_pts /\
  Forall (fun e => 0 <= e) (score shown live_pts).
Proof.
  unfold score.
  assert (Hd : length (map (fun _ : Q * Q => 3) live_pts) = length live_pts
               /\ Forall (fun e => 0 <= e) (map (fun _ : Q * Q => 3) live_pts)).
  { split; [apply length_map|]. rewrite Forall_map, Forall_forall. intros; lra. }
  destruct (_ >? _)%Z; [|exact Hd].
  destruct (existsb _ shown); [|exact Hd].
  split; [apply length_map|]. rewrite Forall_map, Forall_forall.
  intros p _. apply score_point_nonneg.
Qed.

Section WithSetup.

Variable cfg : setup.

Local Abbreviation update := (Session.update cfg).

(** The globals a tick leaves, spelled out. *)
Lemma update_state (now : Q) (g : globals) :
  fst (update now g)
  = {| is_playing := is_playing g;
       current_playback_time := current_playback_time g;
       last_resume_wall_time := last_resume_wall_time g;
       seek_to := seek_to g;
       times := fst (prune (get_elapsed_playing_time now g - PAST_DURATION - 1)
                       (times g ++ map fst (data_queue g))
                       (notes g ++ map snd (data_queue g)));
       notes := snd (prune (get_elapsed_playing_time now g - PAST_DURATION - 1)
                       (times g ++ map fst (data_queue g))
                       (notes g ++ map snd (data_queue g)));
       data_queue := [] |}.
Proof.
  unfold Session.update. destruct (prune _ _ _) as [ts ns].
  destruct ts; [reflexivity|]. destruct (background _ _); reflexivity.
Qed.

(** X17.  What a tick does to the live buffer.  The queue is emptied into
    the two lists, behind what they hold and in the order of arrival; then a
    prefix of stale entries is dropped, the same number from both lists:
    every time dropped is more than 6 s behind the clock's reading, and the
    first time kept is not.  Entries behind that first kept one stay, stale
    or not.  The transport variables are left alone. *)
Theorem tick_drains_and_prunes (now : Q) (g : globals) :
  let g' := fst (update now g) in
  let cutoff := get_elapsed_playing_time now g - 6 in
  data_queue g' = [] /\
  is_playing g' = is_playing g /\
  current_playback_time g' = current_playback_time g /\
  last_resume_wall_time g' = last_resume_wall_time g /\
  seek_to g' = seek_to g /\
  exists k,
    times g' = skipn k (times g ++ map fst (data_queue g)) /\
    notes g' = skipn k (notes g ++ map snd (data_queue g)) /\
    Forall (fun t => t < cutoff) (firstn k (times g ++ map fst (data_queue g))) /\
    (forall t rest, times g' = t :: rest -> cutoff <= t).
Proof.
  intros g' cutoff. unfold g'. rewrite update_state. simpl.
  repeat (split; [reflexivity|]).
  destruct (prune_spec (get_elapsed_playing_time now g - PAST_DURATION - 1)
              (times g ++ map fst (data_queue g))
              (notes g ++ map snd (data_queue g))) as (k & Hk & Hold & Hhead).
  exists k. rewrite Hk. simpl.
  assert (Hc : forall t, t < get_elapsed_playing_time now g - PAST_DURATION - 1
                         <-> t < cutoff).
  { intros t. unfold cutoff, PAST_DURATION. split; intros; lra. }
  split; [reflexivity|]. split; [reflexivity|]. split.
  - revert Hold. apply Forall_impl. intros t. apply Hc.
  - intros t rest E. specialize (Hhead t rest E).
    unfold cutoff. unfold PAST_DURATION in Hhead. lra.
Qed.

(** X18.  When a tick raises.  It raises exactly when the reference track
    is empty while the live buffer, after the drain and the pruning, is not:
    the scoring then reads [bg_x], which only the branch for a non-empty
    reference track binds.  No other exception comes out of a tick. *)
Theorem tick_raises_iff (now : Q) (g : globals) :
  (snd (update now g) = Raise UnboundLocalError
   <-> audio_times cfg = [] /\ times (fst (update now g)) <> []) /\
  (forall e, snd (update now g) = Raise e -> e = UnboundLocalError).
Proof.
  unfold Session.update, background.
  destruct (prune _ _ _) as [ts ns].
  destruct ts as [|t ts]; destruct (audio_times cfg) as [|a refs]; simpl.
  - split; [|discriminate]. split; [discriminate|]. intros [_ H]. congruence.
  - split; [|discriminate]. split; [discriminate|]. intros [_ H]. congruence.
  - split.
    + split; [intros _; split; [reflexivity | discriminate] | reflexivity].
    + intros e H. now injection H as <-.
  - split; [|discriminate]. split; [discriminate|]. intros [H _]. discriminate.
Qed.

(** X19.  What a frame holds.  Every live point drawn sits between 5 s
    before the "now" line and the line itself, and is an entry of the live
    buffer placed at its time less the clock's reading; every reference point
    drawn sits between 5 s before and 10 s after the line, and is a
    reference event placed at its time less the clock's reading plus the
    output latency.  There is one error per live point drawn, none
    negative. *)
Theorem frame_within_window (now : Q) (g : globals) (f : frame) :
  snd (update now g) = Return f ->
  let current_time := get_elapsed_playing_time now g in
  let g' := fst (update now g) in
  Forall (fun p => -5 <= fst p /\ fst p <= 0) (live f) /\
  (forall p, In p (live f) ->
     exists t, In (t, snd p) (combine (times g') (notes g')) /\
               fst p = t - current_time) /\
  Forall (fun p => -5 <= fst p /\ fst p <= 10) (bg f) /\
  (forall p, In p (bg f) ->
     exists a, In (a, snd p) (combine (audio_times cfg) (audio_notes cfg)) /\
               fst p = a - current_time + output_latency cfg) /\
  length (errors f) = length (live f) /\
  Forall (fun e => 0 <= e) (errors f).
Proof.
  intros Hf current_time g'.
  assert (Hwin : forall hi (l : list (Q * Q)),
            Forall (fun p => -5 <= fst p /\ fst p <= hi)
                   (filter (fun p => Qle_bool (- PAST_DURATION) (fst p)
                                     && Qle_bool (fst p) hi) l)).
  { intros hi l. rewrite Forall_forall. intros p Hp.
    apply filter_In in Hp as [_ Hp]. apply andb_true_iff in Hp as [H1 H2].
    apply Qle_bool_iff in H1, H2. unfold PAST_DURATION in H1. split; lra. }
  assert (Hfrom : forall (shift : Q -> Q) hi (xs ys : list Q) p,
            In p (filter (fun p => Qle_bool (- PAST_DURATION) (fst p)
                                   && Qle_bool (fst p) hi)
                         (combine (map shift xs) ys)) ->
            exists a, In (a, snd p) (combine xs ys) /\ fst p = shift a).
  { intros shift hi xs ys p Hp. apply filter_In in Hp as [Hp _].
    rewrite combine_map_fst in Hp. apply in_map_iff in Hp as ([a y] & <- & Hin).
    exists a. simpl. auto. }
  assert (Hbg : forall pts, background cfg current_time = Some pts ->
            Forall (fun p => -5 <= fst p /\ fst p <= 10) pts /\
            (forall p, In p pts ->
               exists a, In (a, snd p) (combine (audio_times cfg) (audio_notes cfg)) /\
                         fst p = a - current_time + output_latency cfg)).
  { unfold background. destruct (audio_times cfg) as [|a0 refs] eqn:Eref;
      [discriminate|]. rewrite <- Eref. intros pts [= <-]. split.
    - apply (Hwin FUTURE_DURATION).
    - intros p Hp.
      apply (Hfrom (fun a => a - current_time + output_latency cfg)
               FUTURE_DURATION _ _ p Hp). }
  unfold g'. rewrite update_state. simpl times. simpl notes.
  revert Hf. unfold Session.update. fold current_time.
  destruct (prune _ _ _) as [ts ns]. simpl fst. simpl snd.
  destruct ts as [|t ts].
  - intros [= <-]. simpl.
    split; [constructor|]. split; [intros p []|].
    destruct (background cfg current_time) as [pts|] eqn:Eb.
    + destruct (Hbg pts eq_refl) as [H1 H2].
      split; [exact H1|]. split; [exact H2|]. split; [reflexivity | constructor].
    + split; [constructor|]. split; [intros p []|].
      split; [reflexivity | constructor].
  - destruct (background cfg current_time) as [pts|] eqn:Eb; [|discriminate].
    intros [= <-]. simpl.
    destruct (Hbg pts eq_refl) as [H1 H2].
    split; [apply (Hwin 0)|]. split.
    { intros p Hp.
      apply (Hfrom (fun t => t - current_time) 0 (t :: ts) ns p Hp). }
    split; [exact H1|]. split; [exact H2|].
    apply score_shape.
Qed.

End WithSetup.

Lemma frame_within_window_witness :
  exists f,
    snd (Session.update Samples.three_minutes 0 Samples.paused_at_ten) = Return f /\
    length (errors f) = length (live f).
Proof.
  eexists. split; [reflexivity|].
  apply (frame_within_window Samples.three_minutes 0 Samples.paused_at_ten).
  reflexivity.
Defined.

End TickProps.

(** ** More on the capture thread *)

Module CaptureProps.

Import PitchDetector Session DetectorProps.

Section WithSetup.

Variable cfg : setup.
Variable log2 : Q -> Q.

Local Abbreviation step := (Session.step cfg log2).
Local Abbreviation run := (Session.run cfg log2).
Local Abbreviation capture_chunk := (Session.capture_chunk log2).

(** X20.  What the capture thread makes of a chunk read while playing.  An
    empty read ends the thread: the detector raises and the handler breaks
    out of the loop.  Nothing else does.  A chunk whose samples all stay
    below the volume threshold in magnitude, silence among them, is dropped.
    A note is kept only for a chunk that passed the energy gate and for which
    the detector returned a frequency strictly between 50 Hz and 2000 Hz;
    the note is the MIDI number of that frequency. *)
Theorem capture_chunk_outcomes (samples : list Q) (g : globals) :
  is_playing g = true ->
  (samples = [] -> capture_chunk samples g = Broken) /\
  (samples <> [] -> capture_chunk samples g <> Broken) /\
  (samples <> [] ->
   Forall (fun x => Qabs x < VOLUME_THRESHOLD) samples ->
   capture_chunk samples g = AwaitChunk) /\
  (forall n, capture_chunk samples g = HaveNote n ->
     rms_below samples VOLUME_THRESHOLD = false /\
     exists f,
       detect_pitch samples SAMPLE_RATE = Return f /\
       50 < f /\ f < 2000 /\ n = midi_of_freq log2 f) /\
  (forall ev, capture_chunk samples g <> HaveEvent ev).
Proof.
  intros Hp. unfold Session.capture_chunk. rewrite Hp. simpl negb. cbv iota.
  split; [intros ->; reflexivity|].
  split.
  { intros Hne. destruct (rms_below _ _); [discriminate|].
    destruct samples as [|x samples]; [congruence|].
    destruct (detector_cases x samples SAMPLE_RATE) as [f ->].
    destruct (plausible f); discriminate. }
  split.
  { intros Hne Hquiet. now rewrite quiet_chunk_gated. }
  split.
  { intros n. destruct (rms_below _ _); [discriminate|].
    destruct (detect_pitch samples SAMPLE_RATE) as [f|e] eqn:Ef; [|discriminate].
    destruct (plausible f) eqn:Epl; [|discriminate].
    intros [= <-]. split; [reflexivity|]. exists f.
    assert (Hnz : ~ f == 0).
    { intros Hz. unfold plausible in Epl. apply andb_true_iff in Epl as [H _].
      apply Qle_bool_iff in H. lra. }
    destruct (nonzero_result_in_band samples SAMPLE_RATE f Ef Hnz).
    auto. }
  intros ev. destruct (rms_below _ _); [discriminate|].
  destruct (detect_pitch _ _) as [f|]; [|discriminate].
  destruct (plausible f); discriminate.
Qed.

Lemma broken_step (a : action) (w : world) :
  capture w = Broken ->
  capture (step a w) = Broken /\
  (forall ev, In ev (data_queue (shared (step a w))) ->
              In ev (data_queue (shared w))).
Proof.
  intros Hc.
  destruct a as [k t1 t2|now| |samples|now|]; simpl.
  - split; [exact Hc|].
    destruct k; simpl; auto; try (intros ev []).
    destruct (is_playing (shared w)); simpl; auto.
  - unfold update. destruct (prune _ _ _) as [ts ns].
    destruct ts; [|destruct (background _ _)]; simpl;
      (split; [exact Hc | intros ev []]).
  - split; [exact Hc|]. unfold play_audio_poll.
    destruct (seek_to (shared w)); simpl; auto.
  - rewrite Hc. auto.
  - rewrite Hc. auto.
  - rewrite Hc. auto.
Qed.

(** X21.  Once the capture thread has broken out of its loop it never
    comes back: whatever happens afterwards, it stays ended, and the queue
    receives nothing more. *)
Theorem broken_capture_is_final (acts : list action) (w : world) :
  capture w = Broken ->
  capture (run acts w) = Broken /\
  (forall ev, In ev (data_queue (shared (run acts w))) ->
              In ev (data_queue (shared w))).
Proof.
  revert w. induction acts as [|a acts IH]; intros w Hc; simpl; [auto|].
  destruct (broken_step a w Hc) as [Hc' Hq'].
  destruct (IH (step a w) Hc') as [Hc'' Hq'']. auto.
Qed.

End WithSetup.

Lemma capture_chunk_outcomes_witness :
  is_playing (initial 0) = true /\
  Session.capture_chunk Samples.log2_stub [] (initial 0) = Broken.
Proof.
  split; [reflexivity|].
  apply (capture_chunk_outcomes Samples.log2_stub [] (initial 0)); reflexivity.
Defined.

Lemma broken_capture_is_final_witness :
  capture (Session.step Samples.three_minutes Samples.log2_stub
             (CaptureChunk []) (start 0)) = Broken /\
  capture (Session.run Samples.three_minutes Samples.log2_stub
             [CaptureChunk Samples.square_chunk; CaptureStamp 1; CapturePut]
             (Session.step Samples.three_minutes Samples.log2_stub
                (CaptureChunk []) (start 0))) = Broken.
Proof.
  split; [reflexivity|].
  apply (broken_capture_is_final Samples.three_minutes Samples.log2_stub).
  reflexivity.
Defined.

End CaptureProps.

(** ** The playback thread *)

Module PlaybackProps.

Import Session Playback TransportFacts.

Lemma py_int_nonneg (x : Q) : 0 <= x -> (0 <= py_int x)%Z.
Proof.
  intros Hx. unfold py_int. apply Z.quot_pos; [|lia].
  unfold Qle in Hx. simpl in Hx. lia.
Qed.

Lemma py_int_upper (x : Q) (n : Z) :
  0 <= x -> x <= inject_Z n -> (py_int x <= n)%Z.
Proof.
  intros H0 Hx. unfold py_int.
  assert (Hnum : (0 <= Qnum x)%Z) by (unfold Qle in H0; simpl in H0; lia).
  rewrite Z.quot_div_nonneg by lia.
  unfold Qle in Hx. simpl in Hx.
  apply Z.div_le_upper_bound; lia.
Qed.

Lemma py_int_lower (x : Q) (n : Z) :
  (0 <= n)%Z -> inject_Z n <= x -> (n <= py_int x)%Z.
Proof.
  intros Hn Hx. unfold py_int.
  unfold Qle in Hx. simpl in Hx.
  assert (Hnum : (0 <= Qnum x)%Z) by nia.
  rewrite Z.quot_div_nonneg by lia.
  apply Z.div_le_lower_bound; lia.
Qed.

Section WithFile.

Variable cfg : setup.
Variable log2 : Q -> Q.
Variable wf : wave_file.

Hypothesis same_file : audio_duration cfg == duration_of wf.
Hypothesis rate_positive : (0 < framerate wf)%Z.
Hypothesis frames_nonneg : (0 <= nframes wf)%Z.

Local Abbreviation reachable := (Session.reachable cfg log2).
Local Abbreviation on_key := (Session.on_key cfg).

Lemma duration_nonneg : 0 <= audio_duration cfg.
Proof.
  rewrite same_file. unfold duration_of.
  apply Qle_shift_div_l.
  - change (inject_Z 0 < inject_Z (framerate wf)). now rewrite <- Zlt_Qlt.
  - rewrite Qmult_0_l. change (inject_Z 0 <= inject_Z (nframes wf)).
    now rewrite <- Zle_Qle.
Qed.

(** A target within the track is a frame of the file. *)
Lemma target_in_file (target : Q) :
  0 <= target -> target <= audio_duration cfg ->
  setpos wf (py_int (target * inject_Z (framerate wf)))
  = Some (py_int (target * inject_Z (framerate wf))) /\
  (0 <= py_int (target * inject_Z (framerate wf)) <= nframes wf)%Z.
Proof.
  intros H0 Hd.
  assert (Hr : 0 < inject_Z (framerate wf)).
  { change (inject_Z 0 < inject_Z (framerate wf)). now rewrite <- Zlt_Qlt. }
  assert (Hx0 : 0 <= target * inject_Z (framerate wf)).
  { apply Qmult_le_0_compat; lra. }
  assert (Hx1 : target * inject_Z (framerate wf) <= inject_Z (nframes wf)).
  { rewrite same_file in Hd. unfold duration_of in Hd.
    assert (E : inject_Z (nframes wf) / inject_Z (framerate wf)
                * inject_Z (framerate wf) == inject_Z (nframes wf))
      by (field; lra).
    rewrite <- E. apply Qmult_le_compat_r; lra. }
  pose proof (py_int_nonneg _ Hx0) as Hlo.
  pose proof (py_int_upper _ _ Hx0 Hx1) as Hhi.
  split; [|lia]. unfold setpos.
  destruct (Z.ltb_spec (py_int (target * inject_Z (framerate wf))) 0); [lia|].
  destruct (Z.gtb_spec (py_int (target * inject_Z (framerate wf))) (nframes wf));
    [lia | reflexivity].
Qed.

(** X22.  The stop key and the forward key never ask for a frame outside
    the file.  In every reachable state, with the duration computed from the
    file being played, the seek they leave pending is applied by the
    playback thread without [wave.Error] as long as that thread is still in
    its loop: the cursor lands on [int(target * framerate)], between 0 and
    the number of frames (on 0 after a stop), and the pending target is
    cleared.  Once the thread has left its loop the locked block is never
    run again: the target stays pending and the cursor where it was. *)
Theorem stop_and_forward_seeks_land (w : world) (k : key) (t1 t2 : Q) (p : player) :
  reachable w ->
  wall w <= t1 -> t1 <= t2 ->
  k = KeyS \/ k = KeyRight ->
  let g := on_key k t1 t2 (shared w) in
  let g' := fst (playback_seek wf g p) in
  let p' := snd (playback_seek wf g p) in
  seek_to g = Some (current_playback_time g) /\
  (state p = Running ->
   state p' = Running /\
   pos p' = py_int (current_playback_time g * inject_Z (framerate wf)) /\
   (0 <= pos p' <= nframes wf)%Z /\
   (k = KeyS -> pos p' = 0%Z) /\
   output p' = output p /\
   seek_to g' = None /\
   current_playback_time g' = current_playback_time g /\
   is_playing g' = is_playing g) /\
  (state p <> Running -> g' = g /\ p' = p).
Proof.
  intros Hw H1 H2 Hk g g' p'.
  destruct (reachable_clock cfg log2 w duration_nonneg Hw) as [Hcpt Hlrw].
  assert (Hseek : seek_to g = Some (current_playback_time g)).
  { unfold g. destruct Hk as [-> | ->]; reflexivity. }
  assert (Hin : 0 <= current_playback_time g
                /\ current_playback_time g <= audio_duration cfg).
  { unfold g. destruct Hk as [-> | ->]; simpl.
    - pose proof duration_nonneg. lra.
    - match goal with |- context [py_min ?a ?b] =>
        pose proof (py_min_spec a b);
        destruct (py_min_cases a b) as [[E _]|[E _]]; rewrite E in *
      end; pose proof duration_nonneg;
        destruct (is_playing (shared w)); lra. }
  destruct (target_in_file (current_playback_time g)) as [Hset Hrange]; try tauto.
  split; [exact Hseek|]. split.
  - intros Hrun.
    unfold p', g', playback_seek. rewrite Hrun, Hseek, Hset. simpl.
    repeat split; try tauto; try lia.
    intros ->. reflexivity.
  - intros Hout. unfold p', g', playback_seek.
    destruct (state p); [congruence | auto | auto].
Qed.

(** X23.  The rewind key can kill the playback thread.  When the clock has
    run past the end of the track while playing, so far that two seconds
    back is still a whole frame or more beyond the last one, the target the
    rewind key stores is refused by [setpos]: the thread dies of
    [wave.Error] with the target still pending, and writes nothing from then
    on, whatever the transport does. *)
Theorem rewind_beyond_end_kills_playback (w : world) (t1 t2 : Q) (p : player)
    (later : globals) (n : nat) :
  reachable w ->
  wall w <= t1 -> t1 <= t2 ->
  state p = Running ->
  inject_Z (nframes wf + 1)
  <= (get_elapsed_playing_time t1 (shared w) - 2) * inject_Z (framerate wf) ->
  let g := on_key KeyLeft t1 t2 (shared w) in
  let g' := fst (playback_seek wf g p) in
  let p' := snd (playback_seek wf g p) in
  state p' = Crashed /\
  g' = g /\
  seek_to g' = Some (current_playback_time g) /\
  audio_duration cfg < current_playback_time g /\
  playback_seek wf later p' = (later, p') /\
  feeds wf later n p' = p'.
Proof.
  intros Hw H1 H2 Hrun Hfar g g' p'.
  assert (Hr : 0 < inject_Z (framerate wf)).
  { change (inject_Z 0 < inject_Z (framerate wf)). now rewrite <- Zlt_Qlt. }
  assert (Hn : 0 <= inject_Z (nframes wf + 1)).
  { change (inject_Z 0 <= inject_Z (nframes wf + 1)). rewrite <- Zle_Qle. lia. }
  set (now := get_elapsed_playing_time t1 (shared w)) in *.
  assert (Hpos : 0 <= now - 2).
  { destruct (Qlt_le_dec (now - 2) 0) as [Hneg|]; [|assumption]. nra. }
  assert (Hcpt : current_playback_time g = py_max 0 (now - 2)).
  { unfold g, now, get_elapsed_playing_time. simpl.
    destruct (is_playing (shared w)); reflexivity. }
  assert (Hseek : seek_to g = Some (current_playback_time g)).
  { unfold g. simpl. destruct (is_playing (shared w)); reflexivity. }
  assert (Htar : current_playback_time g == now - 2).
  { rewrite Hcpt. destruct (py_max_cases 0 (now - 2)) as [[-> Hle]|[-> _]];
      [lra | reflexivity]. }
  assert (Hframe : (nframes wf + 1
                    <= py_int (current_playback_time g * inject_Z (framerate wf)))%Z).
  { apply py_int_lower; [lia|]. rewrite Htar. exact Hfar. }
  assert (Hset : setpos wf (py_int (current_playback_time g * inject_Z (framerate wf)))
                 = None).
  { unfold setpos.
    destruct (Z.ltb_spec (py_int (current_playback_time g * inject_Z (framerate wf))) 0);
      [reflexivity|].
    destruct (Z.gtb_spec (py_int (current_playback_time g * inject_Z (framerate wf)))
                (nframes wf)); [reflexivity | lia]. }
  assert (Hp' : p' = {| pos := pos p; state := Crashed; output := output p |}
                /\ g' = g).
  { unfold p', g', playback_seek. rewrite Hrun, Hseek, Hset. auto. }
  destruct Hp' as [Hp' Hg']. rewrite Hp', Hg'.
  split; [reflexivity|]. split; [reflexivity|]. split; [exact Hseek|].
  split.
  { rewrite Htar, same_file. unfold duration_of.
    apply Qlt_shift_div_r; [exact Hr|].
    assert (inject_Z (nframes wf) < inject_Z (nframes wf + 1))
      by (rewrite <- Zlt_Qlt; lia).
    lra. }
  split; [reflexivity|].
  induction n as [|n IH]; [reflexivity | exact IH].
Qed.

End WithFile.

Section AnyFile.

Variable wf : wave_file.

(** X24.  A pending seek is applied once.  When the thread is in its loop
    and the target is accepted, the locked block leaves the shared variables
    as the session's [play_audio_poll] does, with nothing pending, and
    running it again moves nothing; with nothing pending to begin with it
    changes nothing at all. *)
Theorem pending_seek_applied_once (g : globals) (p : player) :
  state p = Running ->
  state (snd (playback_seek wf g p)) = Running ->
  fst (playback_seek wf g p) = play_audio_poll g /\
  seek_to (fst (playback_seek wf g p)) = None /\
  playback_seek wf (fst (playback_seek wf g p)) (snd (playback_seek wf g p))
  = playback_seek wf g p /\
  (seek_to g = None -> playback_seek wf g p = (g, p)).
Proof.
  intros Hrun. unfold playback_seek, play_audio_poll. rewrite Hrun.
  destruct (seek_to g) as [target|] eqn:Es.
  - destruct (setpos wf _) as [q|]; simpl; [|discriminate].
    intros _. repeat split. discriminate.
  - simpl. intros _. rewrite Hrun, Es. auto.
Qed.

Lemma feeds_paused (g : globals) (k : nat) :
  is_playing g = false ->
  forall p, state p = Running ->
    feeds wf g k p
    = {| pos := pos p; state := Running;
         output := output p
                   ++ repeat (Silence (chunk * sampwidth wf * nchannels wf)) k |}.
Proof.
  intros Hp. induction k as [|k IH]; intros p Hrun; simpl.
  - rewrite app_nil_r. destruct p; simpl in *. now subst.
  - unfold playback_feed at 1. rewrite Hrun, Hp. simpl negb. cbv iota.
    rewrite IH by reflexivity. simpl. now rewrite <- app_assoc.
Qed.

(** With nothing pending, a whole iteration is its second half. *)
Lemma iterations_nothing_pending (g : globals) (k : nat) :
  seek_to g = None ->
  forall p, playback_iterations wf k (g, p) = (g, feeds wf g k p).
Proof.
  intros Hs. induction k as [|k IH]; intros p; simpl; [reflexivity|].
  assert (E : playback_iteration wf (g, p) = (g, playback_feed wf g p)).
  { unfold playback_iteration, playback_seek. simpl. rewrite Hs.
    destruct (state p); reflexivity. }
  rewrite E. apply IH.
Qed.

(** A thread that has left its loop stays where it is. *)
Lemma iterations_not_running (g : globals) (k : nat) (p : player) :
  state p <> Running -> playback_iterations wf k (g, p) = (g, p).
Proof.
  intros Hout. induction k as [|k IH]; simpl; [reflexivity|].
  assert (E : playback_iteration wf (g, p) = (g, p)).
  { unfold playback_iteration, playback_seek, playback_feed. cbn [fst snd].
    destruct (state p) eqn:Es; [congruence | |]; cbn [fst snd];
      rewrite Es; reflexivity. }
  rewrite E. exact IH.
Qed.

(** X25.  While the transport is not playing and no key is pressed, the
    thread keeps the stream fed with silence, one buffer of
    [1024 * sampwidth * nchannels] zero bytes per iteration, and reads
    nothing from the file.  With nothing pending the cursor stays where it
    is.  With a seek pending that [setpos] accepts (as right after the stop
    key) the first iteration moves the cursor to the target and clears it,
    and the cursor stays there.  With a seek pending that [setpos] refuses
    the thread dies in the first iteration, having written nothing. *)
Theorem paused_playback_writes_silence (g : globals) (k : nat) (p : player) :
  is_playing g = false ->
  state p = Running ->
  let silence := Silence (1024 * sampwidth wf * nchannels wf) in
  (seek_to g = None ->
   playback_iterations wf k (g, p)
   = (g, {| pos := pos p; state := Running;
            output := output p ++ repeat silence k |})) /\
  (forall target q,
     seek_to g = Some target ->
     setpos wf (py_int (target * inject_Z (framerate wf))) = Some q ->
     playback_iterations wf (S k) (g, p)
     = (play_audio_poll g,
        {| pos := q; state := Running;
           output := output p ++ repeat silence (S k) |})) /\
  (forall target,
     seek_to g = Some target ->
     setpos wf (py_int (target * inject_Z (framerate wf))) = None ->
     playback_iterations wf (S k) (g, p)
     = (g, {| pos := pos p; state := Crashed; output := output p |})).
Proof.
  intros Hp Hrun silence. split; [|split].
  - intros Hs. rewrite (iterations_nothing_pending g k Hs).
    now rewrite (feeds_paused g k Hp p Hrun).
  - intros target q Hs Hset.
    assert (Hs' : seek_to (play_audio_poll g) = None).
    { unfold play_audio_poll. now rewrite Hs. }
    assert (Hp' : is_playing (play_audio_poll g) = false).
    { unfold play_audio_poll. now rewrite Hs. }
    assert (E : playback_iteration wf (g, p)
                = (play_audio_poll g,
                   {| pos := q; state := Running;
                      output := output p ++ [silence] |})).
    { unfold playback_iteration, playback_seek. simpl fst. simpl snd.
      rewrite Hrun, Hs, Hset.
      change (set_transport g (is_playing g) (current_playback_time g)
                (last_resume_wall_time g) None)
        with (match Some target with
              | Some _ => set_transport g (is_playing g) (current_playback_time g)
                            (last_resume_wall_time g) None
              | None => g
              end).
      rewrite <- Hs. fold (play_audio_poll g).
      unfold playback_feed. cbn [state]. rewrite Hp'. reflexivity. }
    simpl playback_iterations. rewrite E.
    rewrite (iterations_nothing_pending _ k Hs').
    rewrite (feeds_paused _ k Hp') by reflexivity.
    cbn [pos output]. rewrite <- app_assoc. reflexivity.
  - intros target Hs Hset.
    assert (E : playback_iteration wf (g, p)
                = (g, {| pos := pos p; state := Crashed; output := output p |})).
    { unfold playback_iteration, playback_seek. simpl fst. simpl snd.
      now rewrite Hrun, Hs, Hset. }
    simpl playback_iterations. rewrite E.
    apply iterations_not_running. discriminate.
Qed.

Lemma feeds_finished (g : globals) (k : nat) (p : player) :
  state p = Finished -> feeds wf g k p = p.
Proof.
  revert p. induction k as [|k IH]; intros p Hfin; simpl; [reflexivity|].
  assert (E : playback_feed wf g p = p) by (unfold playback_feed; now rewrite Hfin).
  rewrite E. now apply IH.
Qed.

(** X26.  While playing, the thread moves through the file 1024 frames at
    a time and stops at its end, without looping: after [k] iterations the
    cursor is at [min(pos + 1024 k, nframes)], and the thread has left its
    loop exactly when an iteration found the cursor on the last frame. *)
Theorem playing_advances_to_end (g : globals) (k : nat) (p : player) :
  is_playing g = true ->
  state p = Running ->
  (0 <= pos p <= nframes wf)%Z ->
  pos (feeds wf g k p) = Z.min (pos p + Z.of_nat k * 1024) (nframes wf) /\
  (state (feeds wf g k p) = Finished
   <-> (1 <= k)%nat /\ (nframes wf <= pos p + (Z.of_nat k - 1) * 1024)%Z) /\
  (state (feeds wf g k p) = Running
   <-> k = 0%nat \/ (pos p + (Z.of_nat k - 1) * 1024 < nframes wf)%Z).
Proof.
  intros Hp. revert p. induction k as [|k IH]; intros p Hrun Hin.
  - simpl. rewrite Hrun. split; [lia|]. split.
    + split; [discriminate | intros [H _]; lia].
    + split; [intros _; now left | reflexivity].
  - simpl feeds.
    destruct (Z.eq_dec (pos p) (nframes wf)) as [Hend|Hmore].
    + assert (E : playback_feed wf g p
                  = {| pos := pos p; state := Finished; output := output p |}).
      { unfold playback_feed, readframes, chunk. rewrite Hrun, Hp. simpl negb.
        cbv iota. replace (Z.min 1024 (nframes wf - pos p)) with 0%Z by lia.
        reflexivity. }
      rewrite E, feeds_finished by reflexivity. cbn [pos state].
      split; [lia|]. split.
      * split; [intros _; lia | reflexivity].
      * split; [discriminate | intros [H|H]; lia].
    + assert (E : playback_feed wf g p
                  = {| pos := pos p + Z.min 1024 (nframes wf - pos p);
                       state := Running;
                       output := output p
                                 ++ [FileFrames (pos p)
                                       (Z.min 1024 (nframes wf - pos p))] |}).
      { unfold playback_feed, readframes, chunk. rewrite Hrun, Hp. simpl negb.
        cbv iota.
        destruct (Z.eqb_spec (Z.min 1024 (nframes wf - pos p)) 0); [lia|].
        reflexivity. }
      rewrite E.
      destruct (IH {| pos := pos p + Z.min 1024 (nframes wf - pos p);
                      state := Running;
                      output := output p
                                ++ [FileFrames (pos p)
                                      (Z.min 1024 (nframes wf - pos p))] |})
        as (Hpos & Hfin & Hrunning); [reflexivity | cbn [pos]; lia |].
      cbn [pos state] in Hpos, Hfin, Hrunning.
      split; [rewrite Hpos; lia|].
      split.
      * rewrite Hfin. split; intros [H1 H2]; split; lia.
      * rewrite Hrunning. split; intros [H|H]; lia.
Qed.

End AnyFile.

Lemma stop_and_forward_seeks_land_witness :
  audio_duration Samples.three_minutes
  == duration_of MoreSamples.three_minutes_file /\
  state (snd (playback_seek MoreSamples.three_minutes_file
                (Session.on_key Samples.three_minutes KeyRight 179 179
                   (shared (start 0))) fresh)) = Running /\
  pos (snd (playback_seek MoreSamples.three_minutes_file
              (Session.on_key Samples.three_minutes KeyRight 179 179
                 (shared (start 0))) fresh))
  = nframes MoreSamples.three_minutes_file.
Proof.
  split; [reflexivity|].
  assert (Hr : Session.reachable Samples.three_minutes Samples.log2_stub (start 0))
    by apply reachable_start.
  pose proof (stop_and_forward_seeks_land Samples.three_minutes Samples.log2_stub
                MoreSamples.three_minutes_file) as H.
  specialize (H (eq_refl : audio_duration Samples.three_minutes
                           == duration_of MoreSamples.three_minutes_file)).
  specialize (H eq_refl).
  assert (Hn : (0 <= nframes MoreSamples.three_minutes_file)%Z) by discriminate.
  specialize (H Hn (start 0) KeyRight 179 179 fresh Hr).
  assert (H1 : wall (start 0) <= 179) by discriminate.
  assert (H2 : 179 <= 179) by discriminate.
  specialize (H H1 H2 (or_intror eq_refl)).
  cbv zeta in H. destruct H as (_ & H & _).
  destruct (H eq_refl) as (Hs & Hpos & _).
  split; [exact Hs|]. rewrite Hpos. vm_compute. reflexivity.
Defined.

Lemma rewind_beyond_end_kills_playback_witness :
  inject_Z (nframes MoreSamples.three_minutes_file + 1)
  <= (get_elapsed_playing_time 200 (shared (start 0)) - 2)
     * inject_Z (framerate MoreSamples.three_minutes_file) /\
  state (snd (playback_seek MoreSamples.three_minutes_file
                (Session.on_key Samples.three_minutes KeyLeft 200 200
                   (shared (start 0))) fresh)) = Crashed.
Proof.
  split; [vm_compute; discriminate|].
  apply (rewind_beyond_end_kills_playback Samples.three_minutes Samples.log2_stub
           MoreSamples.three_minutes_file) with (later := initial 0) (n := 3%nat);
    first [ reflexivity | discriminate | apply reachable_start
          | vm_compute; discriminate ].
Defined.

Lemma pending_seek_applied_once_witness :
  state fresh = Running /\
  seek_to (fst (playback_seek MoreSamples.three_minutes_file
                  (Session.on_key Samples.three_minutes KeyS 10 10 (initial 0))
                  fresh)) = None.
Proof.
  split; [reflexivity|].
  apply (pending_seek_applied_once MoreSamples.three_minutes_file
           (Session.on_key Samples.three_minutes KeyS 10 10 (initial 0)) fresh);
    reflexivity.
Defined.

Lemma paused_playback_writes_silence_witness :
  let g := Session.on_key Samples.three_minutes KeyS 10 10 (initial 0) in
  let p := {| pos := 441000; state := Running; output := [] |} in
  is_playing g = false /\
  seek_to g = Some 0 /\
  playback_iterations MoreSamples.three_minutes_file 3 (g, p)
  = (play_audio_poll g,
     {| pos := 0; state := Running;
        output := repeat (Silence (1024 * 2 * 2)) 3 |}).
Proof.
  intros g p.
  split; [reflexivity|]. split; [reflexivity|].
  pose proof (paused_playback_writes_silence MoreSamples.three_minutes_file
                g 2 p eq_refl eq_refl) as H.
  cbv zeta in H. destruct H as (_ & H & _).
  exact (H 0 0%Z eq_refl eq_refl).
Defined.

Lemma playing_advances_to_end_witness :
  is_playing (initial 0) = true /\
  pos (feeds MoreSamples.three_minutes_file (initial 0) 3 fresh)
  = Z.min (pos fresh + Z.of_nat 3 * 1024) (nframes MoreSamples.three_minutes_file).
Proof.
  split; [reflexivity|].
  apply (playing_advances_to_end MoreSamples.three_minutes_file (initial 0) 3 fresh).
  - reflexivity.
  - reflexivity.
  - split; discriminate.
Defined.

End PlaybackProps.

(** ** Note names *)

Module NoteNameProps.

Import String Ascii NoteNames.

Local Open Scope string_scope.

Lemma uint_no_sharp (d : Decimal.uint) :
  has_char "#" (DecimalString.NilEmpty.string_of_uint d) = false.
Proof. induction d; simpl; auto. Qed.

Lemma str_no_sharp (z : Z) : has_char "#" (str z) = false.
Proof.
  unfold str. destruct (Z.to_int z); simpl; apply uint_no_sharp.
Qed.

Lemma str_head (z : Z) (rest : string) : str z <> String "#" rest.
Proof.
  intros H. pose proof (str_no_sharp z) as Hs. rewrite H in Hs. discriminate.
Qed.

Lemma str_injective (a b : Z) : str a = str b -> a = b.
Proof.
  unfold str. intros H.
  apply (f_equal DecimalString.NilEmpty.int_of_string) in H.
  rewrite !DecimalString.NilEmpty.isi in H. injection H as H.
  apply (f_equal Z.of_int) in H. now rewrite !DecimalZ.of_to in H.
Qed.

(** A note name in front of a string that does not begin with a sharp can
    be read back: the names differ in their letter or in their sharp. *)
Lemma name_split (k k' : nat) (s s' : string) :
  (k < 12)%nat -> (k' < 12)%nat ->
  (forall rest, s <> String "#" rest) -> (forall rest, s' <> String "#" rest) ->
  nth k note_names "" ++ s = nth k' note_names "" ++ s' ->
  k = k' /\ s = s'.
Proof.
  intros Hk Hk' Hs Hs' H.
  do 12 (destruct k as [|k];
         [ do 12 (destruct k' as [|k'];
                  [ simpl in H;
                    first [ discriminate H
                          | injection H as H;
                            first [ split; [reflexivity | exact H]
                                  | exfalso; exact (Hs _ H)
                                  | exfalso; exact (Hs' _ (eq_sym H)) ] ]
                  | ]); exfalso; lia
         | ]).
  exfalso. lia.
Qed.

Lemma pitch_class_bound (n : Z) : (Z.to_nat (n mod 12) < 12)%nat.
Proof. pose proof (Z.mod_pos_bound n 12). lia. Qed.

(** X27.  Note names identify notes: two MIDI numbers with the same name
    are the same number, negative ones and those beyond 127 included. *)
Theorem midi_to_name_injective (n m : Z) :
  midi_to_name n = midi_to_name m <-> n = m.
Proof.
  split; [|intros ->; reflexivity].
  unfold midi_to_name. intros H.
  apply name_split in H; try apply pitch_class_bound; try apply str_head.
  destruct H as [Hk Ho]. apply str_injective in Ho.
  pose proof (Z.mod_pos_bound n 12). pose proof (Z.mod_pos_bound m 12).
  pose proof (Z.div_mod n 12). pose proof (Z.div_mod m 12). lia.
Qed.

Lemma name_sharp (n : Z) :
  has_char "#" (midi_to_name n)
  = existsb (Z.eqb (n mod 12)) [1; 3; 6; 8; 10]%Z.
Proof.
  unfold midi_to_name.
  pose proof (Z.mod_pos_bound n 12) as Hb.
  pose proof (str_no_sharp (n / 12 - 1)) as Hs.
  assert (Hcases : (n mod 12 = 0 \/ n mod 12 = 1 \/ n mod 12 = 2 \/ n mod 12 = 3
                    \/ n mod 12 = 4 \/ n mod 12 = 5 \/ n mod 12 = 6 \/ n mod 12 = 7
                    \/ n mod 12 = 8 \/ n mod 12 = 9 \/ n mod 12 = 10
                    \/ n mod 12 = 11)%Z) by lia.
  repeat destruct Hcases as [E | Hcases]; try rename Hcases into E;
    rewrite E; simpl; rewrite ?Hs; reflexivity.
Qed.

Lemma in_notes_between (lo hi n : Z) :
  In n (notes_between lo hi) <-> (lo <= n <= hi)%Z.
Proof.
  unfold notes_between. rewrite in_map_iff. split.
  - intros (k & <- & Hk). apply in_seq in Hk. lia.
  - intros Hn. exists (Z.to_nat (n - lo)). split; [lia|]. apply in_seq. lia.
Qed.

(** X28.  The staff is labelled with the natural notes of the range and
    nothing else: a label is written for a note exactly when the note lies
    between the two bounds and is one of C, D, E, F, G, A, B, and it carries
    that note's name; each such note gets one label, in rising order. *)
Theorem staff_labels_are_naturals (min_note max_note : Z) :
  (forall n s,
     In (n, s) (staff_labels min_note max_note)
     <-> (min_note <= n <= max_note)%Z /\
         s = midi_to_name n /\
         In (n mod 12)%Z [0; 2; 4; 5; 7; 9; 11]%Z) /\
  map fst (staff_labels min_note max_note)
  = filter (fun n => negb (existsb (Z.eqb (n mod 12)) [1; 3; 6; 8; 10]%Z))
           (notes_between min_note max_note).
Proof.
  assert (Hnat : forall n,
            negb (has_char "#" (midi_to_name n)) = true
            <-> In (n mod 12)%Z [0; 2; 4; 5; 7; 9; 11]%Z).
  { intros n. rewrite name_sharp.
    pose proof (Z.mod_pos_bound n 12) as Hb.
    assert (Hcases : (n mod 12 = 0 \/ n mod 12 = 1 \/ n mod 12 = 2 \/ n mod 12 = 3
                      \/ n mod 12 = 4 \/ n mod 12 = 5 \/ n mod 12 = 6 \/ n mod 12 = 7
                      \/ n mod 12 = 8 \/ n mod 12 = 9 \/ n mod 12 = 10
                      \/ n mod 12 = 11)%Z) by lia.
    repeat destruct Hcases as [E | Hcases]; try rename Hcases into E;
      rewrite E; simpl; split; intros H; try discriminate; try tauto;
      repeat (destruct H as [H | H]; try discriminate H); try contradiction. }
  split.
  - intros n s. unfold staff_labels. rewrite in_map_iff. split.
    + intros (n' & [= <- <-] & Hin). apply filter_In in Hin as [Hin Hf].
      apply in_notes_between in Hin. apply Hnat in Hf. auto.
    + intros (Hin & -> & Hf). exists n. split; [reflexivity|].
      apply filter_In. split; [now apply in_notes_between | now apply Hnat].
  - unfold staff_labels. rewrite map_map. simpl. rewrite map_id.
    apply filter_ext. intros n. now rewrite name_sharp.
Qed.

End NoteNameProps.

(** ** The scrolling window of voice_2.py *)

Module ScrollingProps.

Import Scrolling.

(** X29.  The tick of voice_2.py.  The x-axis runs from
    [max(0, c - 30)] to [c], [c] being the time since the start: from 0
    during the first 30 s and from [c - 30] after, so the window is never
    wider than 30 s and never reaches into the future.  The reference points drawn are the reference events whose time
    lies in the window, both ends included: none that is still to come.
    The queue is emptied into the live lists in order of arrival, a prefix
    of entries older than the window is dropped from both, the first entry
    kept is inside the window's left end, and all that is kept is drawn. *)
Theorem scrolling_tick (audio_times audio_notes : list Q)
    (start_time_global now : Q) (b : buffers) :
  start_time_global <= now ->
  let c := now - start_time_global in
  let b' := fst (update audio_times audio_notes start_time_global now b) in
  let v := snd (update audio_times audio_notes start_time_global now b) in
  let lo := fst (xlim v) in
  (xlim v = (py_max 0 (c - 30), c) /\
   (c <= 30 -> lo = 0) /\ (30 < c -> lo = c - 30) /\
   0 <= lo /\ lo <= c /\ c - lo <= 30 /\ c - 30 <= lo) /\
  (forall p, In p (bg v)
     <-> In p (combine audio_times audio_notes) /\ lo <= fst p /\ fst p <= c) /\
  data_queue b' = [] /\
  live v = combine (times b') (notes b') /\
  exists k,
    times b' = skipn k (times b ++ map fst (data_queue b)) /\
    notes b' = skipn k (notes b ++ map snd (data_queue b)) /\
    Forall (fun t => t < lo) (firstn k (times b ++ map fst (data_queue b))) /\
    (forall t rest, times b' = t :: rest -> lo <= t).
Proof.
  intros Hstart c b' v lo.
  subst lo v b'. unfold update. fold c.
  set (window_min := py_max 0 (c - WINDOW_DURATION)).
  destruct (TickProps.prune_spec window_min
              (times b ++ map fst (data_queue b))
              (notes b ++ map snd (data_queue b))) as (k & Hk & Hold & Hhead).
  rewrite Hk. simpl.
  assert (Hlo : (c <= 30 -> window_min = 0) /\
                (30 < c -> window_min = c - 30) /\
                0 <= window_min /\ window_min <= c /\ c - window_min <= 30
                /\ c - 30 <= window_min).
  { unfold window_min, WINDOW_DURATION.
    destruct (py_max_cases 0 (c - 30)) as [[-> H]|[-> H]]; unfold c in *;
      repeat split; try lra; intros; try reflexivity; exfalso; lra. }
  split; [split; [reflexivity | exact Hlo]|]. split.
  { intros p. destruct audio_times as [|a refs] eqn:Ea.
    - simpl. tauto.
    - rewrite <- Ea. rewrite filter_In, andb_true_iff, !Qle_bool_iff. tauto. }
  split; [reflexivity|]. split; [reflexivity|].
  exists k. auto.
Qed.

Lemma scrolling_tick_witness :
  (0 : Q) <= 40 /\
  xlim (snd (update [5; 15; 45] [60; 62; 64] 0 40
               {| times := [3; 20]; notes := [61; 63];
                  data_queue := [(39, 65)] |}))
  = (py_max 0 (40 - 0 - 30), 40 - 0) /\
  fst (xlim (snd (update [5; 15; 45] [60; 62; 64] 0 40
                    {| times := [3; 20]; notes := [61; 63];
                       data_queue := [(39, 65)] |}))) = 40 - 0 - 30.
Proof.
  split; [discriminate|].
  pose proof (scrolling_tick [5; 15; 45] [60; 62; 64] 0 40
                {| times := [3; 20]; notes := [61; 63];
                   data_queue := [(39, 65)] |}) as H.
  cbv zeta in H. destruct H as ((Hx & _ & Hlate & _) & _); [discriminate|].
  split; [exact Hx|]. apply Hlate. reflexivity.
Defined.

(** The sample tick: the reference note at 5 s has left the window and the
    one at 45 s is still to come; the live entry at 3 s is dropped. *)
Example scrolling_tick_sample :
  snd (update [5; 15; 45] [60; 62; 64] 0 40
         {| times := [3; 20]; notes := [61; 63]; data_queue := [(39, 65)] |})
  = {| bg := [(15, 62)]; live := [(20, 63); (39, 65)];
       xlim := (40 - 0 - 30, 40 - 0) |}.
Proof. reflexivity. Qed.

End ScrollingProps.

(** ** The clock along a run *)

Module ClockProps.

Import Session SessionRuns TransportFacts.

Section WithSetup.

Variable cfg : setup.
Variable log2 : Q -> Q.

Hypothesis duration_nonneg : 0 <= audio_duration cfg.

Local Abbreviation step := (Session.step cfg log2).
Local Abbreviation run := (Session.run cfg log2).
Local Abbreviation reachable := (Session.reachable cfg log2).
Local Abbreviation timely_run := (SessionRuns.timely_run cfg log2).

(** No action other than a seek or a stop sets the clock back. *)
Lemma step_clock_monotone (a : action) (w : world) :
  reachable w -> timely a w -> repositions a = false ->
  clock w <= clock (step a w).
Proof.
  intros Hw Ha Hrep. unfold clock.
  destruct (reachable_clock cfg log2 w duration_nonneg Hw) as [Hcpt Hlrw].
  destruct (is_key a) eqn:Hk.
  - destruct a as [k t1 t2| | | | |]; try discriminate.
    simpl in Ha. destruct k; try discriminate; simpl;
      unfold get_elapsed_playing_time;
      destruct (is_playing (shared w)); simpl; lra.
  - destruct (step_keeps_transport cfg log2 a w Hk) as (Hp & Hc & Hl).
    pose proof (step_wall cfg log2 a w Ha).
    unfold get_elapsed_playing_time. rewrite Hp, Hc, Hl.
    destruct (is_playing (shared w)); lra.
Qed.

Lemma run_clock_monotone (acts : list action) :
  forall w,
    reachable w -> timely_run acts w ->
    Forall (fun a => repositions a = false) acts ->
    reachable (run acts w) /\ clock w <= clock (run acts w).
Proof.
  induction acts as [|a acts IH]; intros w Hw Ht Hrep; simpl.
  - split; [exact Hw | lra].
  - destruct Ht as [Ha Ht]. inversion Hrep as [|? ? Ha' Hrep']; subst.
    destruct (IH (step a w)) as [Hr Hc]; try assumption.
    { now apply reachable_step. }
    split; [exact Hr|].
    pose proof (step_clock_monotone a w Hw Ha Ha'). lra.
Qed.

(** X15.  Without a seek or a stop, what was sung is never drawn ahead of
    the "now" line.  When the capture thread stamps a note, the stamp is
    the clock's reading less the input latency; along any run that follows,
    pauses and resumes included, as long as no seek or stop key is pressed,
    the clock never reads less than it did then, so at every later tick the
    event sits at or behind the line, by the input latency at least. *)
Theorem live_event_never_ahead (w : world) (n ts : Q) (acts : list action) :
  0 <= input_latency cfg ->
  reachable w ->
  capture w = HaveNote n ->
  wall w <= ts ->
  let stamped := step (CaptureStamp ts) w in
  timely_run acts stamped ->
  Forall (fun a => repositions a = false) acts ->
  exists stamp,
    capture stamped = HaveEvent (stamp, n) /\
    stamp = get_elapsed_playing_time ts (shared w) - input_latency cfg /\
    forall t, wall (run acts stamped) <= t ->
      stamp - get_elapsed_playing_time t (shared (run acts stamped))
      <= - input_latency cfg /\
      stamp - get_elapsed_playing_time t (shared (run acts stamped)) <= 0.
Proof.
  intros Hlat Hw Hnote Hts stamped Hrun Hrep.
  assert (Hst : stamped
                = {| shared := shared w;
                     capture := HaveEvent (capture_stamp cfg ts n (shared w));
                     wall := ts; drawn := drawn w |}).
  { unfold stamped. simpl. now rewrite Hnote. }
  assert (Hreach : reachable stamped).
  { unfold stamped. apply reachable_step; [exact Hw | exact Hts]. }
  destruct (run_clock_monotone acts stamped Hreach Hrun Hrep) as [Hend Hmono].
  exists (get_elapsed_playing_time ts (shared w) - input_latency cfg).
  split; [rewrite Hst; reflexivity|]. split; [reflexivity|].
  intros t Ht.
  assert (Hc0 : clock stamped = get_elapsed_playing_time ts (shared w)).
  { rewrite Hst. reflexivity. }
  destruct (reachable_clock cfg log2 (run acts stamped) duration_nonneg Hend)
    as [_ Hlrw].
  assert (Hlater : clock (run acts stamped)
                   <= get_elapsed_playing_time t (shared (run acts stamped))).
  { unfold clock, get_elapsed_playing_time.
    destruct (is_playing (shared (run acts stamped))); lra. }
  rewrite Hc0 in Hmono. split; lra.
Qed.

End WithSetup.

Lemma live_event_never_ahead_witness :
  let note := midi_of_freq Samples.log2_stub (inject_Z 44100 / inject_Z 44) in
  let w := {| shared := initial 0; capture := HaveNote note;
              wall := 0; drawn := [] |} in
  let stamped := Session.step Samples.three_minutes Samples.log2_stub
                   (CaptureStamp 10) w in
  let later := Session.run Samples.three_minutes Samples.log2_stub
                 [KeyPress KeySpace 11 11; Tick 12] stamped in
  Session.reachable Samples.three_minutes Samples.log2_stub w /\
  exists stamp,
    capture stamped = HaveEvent (stamp, note) /\
    forall t, wall later <= t ->
      stamp - get_elapsed_playing_time t (shared later) <= 0.
Proof.
  intros note w stamped later.
  assert (Hr : Session.reachable Samples.three_minutes Samples.log2_stub w).
  { assert (Hw : Session.step Samples.three_minutes Samples.log2_stub
                   (CaptureChunk (repeat (1 # 2) 1024)) (start 0) = w).
    { unfold w, note. simpl.
      rewrite CaptureFacts.constant_hop_captured by reflexivity. reflexivity. }
    rewrite <- Hw. apply reachable_step; [apply reachable_start | exact I]. }
  split; [exact Hr|].
  assert (Hdur : 0 <= audio_duration Samples.three_minutes) by discriminate.
  assert (Hlat : 0 <= input_latency Samples.three_minutes) by discriminate.
  assert (Hts : wall w <= 10) by discriminate.
  assert (Hrun : SessionRuns.timely_run Samples.three_minutes Samples.log2_stub
                   [KeyPress KeySpace 11 11; Tick 12] stamped).
  { simpl. repeat split; discriminate. }
  assert (Hrep : Forall (fun a => repositions a = false)
                        [KeyPress KeySpace 11 11; Tick 12])
    by (repeat constructor).
  destruct (live_event_never_ahead Samples.three_minutes Samples.log2_stub Hdur
              w note 10 [KeyPress KeySpace 11 11; Tick 12]
              Hlat Hr eq_refl Hts Hrun Hrep) as (stamp & H1 & _ & H3).
  exists stamp. split; [exact H1|].
  intros t Ht. apply H3. exact Ht.
Defined.

End ClockProps.
